(** * dymean: a "did you mean" spell checker (Go package [dymean])

    Shallow embedding of the package's bloom filter, Levenshtein metric,
    candidate generator, language registry and checker, followed by the
    properties of the specification that were settled against it.

    Conventions of the embedding.
    - A Go [string] is a Rocq [string]: an immutable sequence of bytes.
      [len(s)], [s[i]] and [s[i:j]] work on bytes; [for i, r := range s]
      decodes UTF-8 ([range_string]).
    - Go [int] is [Z] and [uint] is [N].  Every [int] the program computes
      is a length, an index or an edit distance, so 64-bit wrap-around is
      never reached and is not written out, with two exceptions that are:
      the [uint64] digest of the FNV hash, and the product
      [maxSuggestions*2] of a caller's bound ([int64]).
    - A function that may panic returns [option]; [None] is the panic
      (integer division by zero, index or slice bound out of range,
      [make] with a negative length, write to a nil map).
    - [map[string]bool] used as a set of candidates is a [gset string];
      ranging over it is [elements], whose order is as unspecified as Go's.
    - [float64] scores are exact rationals ([Q]); rounding is not modelled. *)

From Stdlib Require Import ZArith Zbitwise QArith String Ascii List Sorted
  Permutation Lia.
From stdpp Require Import base option list gmap sets strings.

Open Scope Z_scope.

(** ** Part I: definitions *)

(** *** Control flow *)

(** [for _, x := range l { s = body(s, x) }] where the body may panic. *)
Fixpoint forM {St A : Type} (l : list A) (body : St → A → option St) (s : St)
  : option St :=
  match l with
  | [] => Some s
  | x :: l' => s' ← body s x; forM l' body s'
  end.

(** *** Strings as bytes *)

Abbreviation rune := Z (only parsing).

Definition bytes (s : string) : list ascii := list_ascii_of_string s.
Definition of_bytes (b : list ascii) : string := string_of_list_ascii b.
Definition len (s : string) : nat := length (bytes s).

(** [rune(b)] / [uint64(b)] for a byte [b]. *)
Definition byte_val (b : ascii) : Z := Z.of_N (N_of_ascii b).
(** [byte(i)]: truncation of an integer to its low 8 bits. *)
Definition to_byte (i : Z) : ascii := ascii_of_N (Z.to_N (i mod 256)).


(** *** Package unicode/utf8 *)

Module utf8.

Definition RuneError : rune := 0xFFFD.
Definition MaxRune : rune := 0x10FFFF.

Definition continuation (lo hi : Z) (b : ascii) : bool :=
  (lo <=? byte_val b) && (byte_val b <=? hi).

(** The size announced by a leading byte and the range accepted for the
    second byte (tables [first] and [acceptRanges]); [None] for a byte
    that cannot start a multi-byte sequence. *)
Definition lead (b0 : Z) : option (nat * (Z * Z)) :=
  if (0xC2 <=? b0) && (b0 <=? 0xDF) then Some (2%nat, (0x80, 0xBF))
  else if b0 =? 0xE0 then Some (3%nat, (0xA0, 0xBF))
  else if (0xE1 <=? b0) && (b0 <=? 0xEC) then Some (3%nat, (0x80, 0xBF))
  else if b0 =? 0xED then Some (3%nat, (0x80, 0x9F))
  else if (0xEE <=? b0) && (b0 <=? 0xEF) then Some (3%nat, (0x80, 0xBF))
  else if b0 =? 0xF0 then Some (4%nat, (0x90, 0xBF))
  else if (0xF1 <=? b0) && (b0 <=? 0xF3) then Some (4%nat, (0x80, 0xBF))
  else if b0 =? 0xF4 then Some (4%nat, (0x80, 0x8F))
  else None.

(** [DecodeRuneInString] on a non-empty string [b0 :: rest]: the rune and
    its width in bytes; an invalid or truncated sequence decodes to
    [(RuneError, 1)]. *)
Definition DecodeRune (b0 : ascii) (rest : list ascii) : rune * nat :=
  let s0 := byte_val b0 in
  if s0 <? 0x80 then (s0, 1%nat)
  else
    match lead s0 with
    | None => (RuneError, 1%nat)
    | Some (sz, (lo, hi)) =>
      match sz, rest with
      | 2%nat, b1 :: _ =>
        if continuation lo hi b1
        then (Z.lor (Z.shiftl (Z.land s0 0x1F) 6) (Z.land (byte_val b1) 0x3F), 2%nat)
        else (RuneError, 1%nat)
      | 3%nat, b1 :: b2 :: _ =>
        if continuation lo hi b1 && continuation 0x80 0xBF b2
        then (Z.lor (Z.shiftl (Z.land s0 0x0F) 12)
               (Z.lor (Z.shiftl (Z.land (byte_val b1) 0x3F) 6)
                      (Z.land (byte_val b2) 0x3F)), 3%nat)
        else (RuneError, 1%nat)
      | 4%nat, b1 :: b2 :: b3 :: _ =>
        if continuation lo hi b1 && continuation 0x80 0xBF b2
           && continuation 0x80 0xBF b3
        then (Z.lor (Z.shiftl (Z.land s0 0x07) 18)
               (Z.lor (Z.shiftl (Z.land (byte_val b1) 0x3F) 12)
                 (Z.lor (Z.shiftl (Z.land (byte_val b2) 0x3F) 6)
                        (Z.land (byte_val b3) 0x3F))), 4%nat)
        else (RuneError, 1%nat)
      | _, _ => (RuneError, 1%nat)
      end
    end.

(** [AppendRune(nil, r)], which is also the conversion [string(r)]:
    surrogates and values outside the Unicode range encode [RuneError]. *)
Definition EncodeRune (r : rune) : list ascii :=
  let r := if (r <? 0) || (MaxRune <? r) || ((0xD800 <=? r) && (r <=? 0xDFFF))
           then RuneError else r in
  if r <=? 0x7F then [to_byte r]
  else if r <=? 0x7FF then
    [to_byte (Z.lor 0xC0 (Z.shiftr r 6));
     to_byte (Z.lor 0x80 (Z.land r 0x3F))]
  else if r <=? 0xFFFF then
    [to_byte (Z.lor 0xE0 (Z.shiftr r 12));
     to_byte (Z.lor 0x80 (Z.land (Z.shiftr r 6) 0x3F));
     to_byte (Z.lor 0x80 (Z.land r 0x3F))]
  else
    [to_byte (Z.lor 0xF0 (Z.shiftr r 18));
     to_byte (Z.lor 0x80 (Z.land (Z.shiftr r 12) 0x3F));
     to_byte (Z.lor 0x80 (Z.land (Z.shiftr r 6) 0x3F));
     to_byte (Z.lor 0x80 (Z.land r 0x3F))].

End utf8.

(** [for i, r := range s]: the byte offset and the rune of every UTF-8
    sequence of [s], in order.  [skip] counts the bytes still covered by
    the sequence decoded last. *)
Fixpoint range_from (off skip : nat) (b : list ascii) : list (nat * rune) :=
  match b with
  | [] => []
  | b0 :: rest =>
    match skip with
    | S k => range_from (S off) k rest
    | O =>
      let '(r, w) := utf8.DecodeRune b0 rest in
      (off, r) :: range_from (S off) (w - 1) rest
    end
  end.

Definition range_string (s : string) : list (nat * rune) := range_from 0 0 (bytes s).

(** The runes of [for _, r := range s]. *)
Definition runes (s : string) : list rune := snd <$> range_string s.

(** [string(r)] for a rune (or byte) value [r]. *)
Definition string_of_rune (r : rune) : string := of_bytes (utf8.EncodeRune r).

(** *** Package hash/fnv: the 64-bit FNV-1a digest *)

Module fnv.

Definition offset64 : Z := 14695981039346656037.
Definition prime64 : Z := 1099511628211.

(** [New64a()] and [Reset()]. *)
Definition New64a : Z := offset64.

(** [Write(data)]: [hash ^= uint64(c); hash *= prime64] for every byte,
    in [uint64] arithmetic. *)
Definition Write (h : Z) (data : list ascii) : Z :=
  foldl (λ hash c, (Z.lxor hash (byte_val c) * prime64) mod 2 ^ 64) h data.

Definition Sum64 (h : Z) : Z := h.

End fnv.

(** *** levenshtein.go *)

(** [min(a, b, c int) int]. *)
Definition min (a b c : Z) : Z :=
  if (a <? b) && (a <? c) then a
  else if b <? c then b
  else c.

(** [max(a, b int) int]. *)
Definition max (a b : Z) : Z :=
  if a >? b then a else b.

(** [matrix[i][j]] and [matrix[i][j] = v] on a slice of slices; an index
    out of range panics. *)
Definition mget (matrix : list (list Z)) (i j : nat) : option Z :=
  row ← matrix !! i; row !! j.

Definition mset (matrix : list (list Z)) (i j : nat) (v : Z)
  : option (list (list Z)) :=
  row ← matrix !! i;
  if decide (j < length row)%nat then Some (<[i := <[j := v]> row]> matrix)
  else None.

(** The body of the inner loop of [LevenshteinDistance]. *)
Definition fill_cell (s1 s2 : list ascii) (i : nat) (matrix : list (list Z))
    (j : nat) : option (list (list Z)) :=
  c1 ← s1 !! (i - 1)%nat;
  c2 ← s2 !! (j - 1)%nat;
  let cost := if decide (c1 ≠ c2) then 1 else 0 in
  deletion ← mget matrix (i - 1) j;
  insertion ← mget matrix i (j - 1);
  substitution ← mget matrix (i - 1) (j - 1);
  mset matrix i j (min (deletion + 1) (insertion + 1) (substitution + cost)).

Definition LevenshteinDistance (s1 s2 : string) : option Z :=
  let b1 := bytes s1 in
  let b2 := bytes s2 in
  let n1 := length b1 in
  let n2 := length b2 in
  if decide (n1 = 0%nat) then Some (Z.of_nat n2)
  else if decide (n2 = 0%nat) then Some (Z.of_nat n1)
  else
    (* matrix := make([][]int, len(s1)+1); matrix[i] = make([]int, len(s2)+1) *)
    let matrix := (λ _ : list Z, replicate (n2 + 1) 0) <$> replicate (n1 + 1) [] in
    (* first column and first row *)
    matrix ← forM (seq 0 (n1 + 1)) (λ m i, mset m i 0 (Z.of_nat i)) matrix;
    matrix ← forM (seq 0 (n2 + 1)) (λ m j, mset m 0 j (Z.of_nat j)) matrix;
    (* fill the matrix *)
    matrix ← forM (seq 1 n1)
                (λ m i, forM (seq 1 n2) (fill_cell b1 b2 i) m) matrix;
    mget matrix n1 n2.

(** [CalculateSimilarity]; the score is an exact rational. *)
Definition CalculateSimilarity (s1 s2 : string) : option Q :=
  if decide (s1 = s2) then Some 1%Q
  else
    let maxLen := max (Z.of_nat (len s1)) (Z.of_nat (len s2)) in
    if decide (maxLen = 0) then Some 1%Q
    else
      distance ← LevenshteinDistance s1 s2;
      Some (1 - inject_Z distance / inject_Z maxLen)%Q.

(** *** bloom_filter.go *)

(** The [hashFuncs] slice holds [numHashFuncs] FNV-1a digests that are
    [Reset] before every use, so a probe depends on no earlier call; the
    slice is not part of the state below and [probe] computes the digest
    from its initial value.  For a filter made by [NewBloomFilter],
    [hashFuncs[i]] is in range for every [0 <= i < numHashFuncs]. *)
Record BloomFilter := mkBloomFilter {
  bitArray : list bool;
  size : N;
  numHashFuncs : Z;
}.

(** [make([]hash.Hash64, numHashFuncs)] panics on a negative length. *)
Definition NewBloomFilter (size : N) (numHashFuncs : Z) : option BloomFilter :=
  if decide (numHashFuncs < 0) then None
  else Some {| bitArray := replicate (N.to_nat size) false;
               size := size;
               numHashFuncs := numHashFuncs |}.

(** [index := hash % uint64(bf.size)] for the digest of [item] salted with
    [byte(i)]; the remainder panics when [size] is zero. *)
Definition probe (bf : BloomFilter) (item : string) (i : Z) : option nat :=
  let h := fnv.New64a in
  let h := fnv.Write h (bytes item) in
  let h := fnv.Write h [to_byte i] in
  let hash := fnv.Sum64 h in
  if decide (size bf = 0%N) then None
  else Some (Z.to_nat (hash mod Z.of_N (size bf))).

Definition Add (bf : BloomFilter) (item : string) : option BloomFilter :=
  forM (seqZ 0 (numHashFuncs bf))
    (λ bf i,
       index ← probe bf item i;
       if decide (index < length (bitArray bf))%nat
       then Some {| bitArray := <[index := true]> (bitArray bf);
                    size := size bf;
                    numHashFuncs := numHashFuncs bf |}
       else None)
    bf.

Fixpoint Contains_loop (bf : BloomFilter) (item : string) (salts : list Z)
  : option bool :=
  match salts with
  | [] => Some true
  | i :: salts' =>
    index ← probe bf item i;
    bit ← bitArray bf !! index;
    if bit : bool then Contains_loop bf item salts' else Some false
  end.

Definition Contains (bf : BloomFilter) (item : string) : option bool :=
  Contains_loop bf item (seqZ 0 (numHashFuncs bf)).

(** [BloomFilter.AddWords]. *)
Definition BloomFilter_AddWords (bf : BloomFilter) (words : list string)
  : option BloomFilter :=
  forM words Add bf.

(** *** Slicing and package strings *)

(** [s[:i]] and [s[i:]]; a bound beyond [len(s)] panics. *)
Definition slice_to (s : string) (i : nat) : option string :=
  if decide (i ≤ len s)%nat then Some (of_bytes (take i (bytes s))) else None.

Definition slice_from (s : string) (i : nat) : option string :=
  if decide (i ≤ len s)%nat then Some (of_bytes (drop i (bytes s))) else None.

(** [s[i]]. *)
Definition index (s : string) (i : nat) : option ascii := bytes s !! i.

(** [strings.ReplaceAll(s, old, new)]: leftmost non-overlapping matches;
    an empty [old] matches before every UTF-8 sequence and at the end. *)
Fixpoint replace_from (old new : list ascii) (skip : nat) (b : list ascii)
  : list ascii :=
  match b with
  | [] => match old with [] => new | _ => [] end
  | c :: rest =>
    match skip with
    | S k =>
      match old with
      | [] => c :: replace_from old new k rest
      | _ => replace_from old new k rest
      end
    | O =>
      match old with
      | [] => new ++ c :: replace_from old new (snd (utf8.DecodeRune c rest) - 1) rest
      | _ =>
        if bool_decide (old `prefix_of` b)
        then new ++ replace_from old new (length old - 1) rest
        else c :: replace_from old new 0 rest
      end
    end
  end.

Definition strings_ReplaceAll (s old new : string) : string :=
  of_bytes (replace_from (bytes old) (bytes new) 0 (bytes s)).

(** *** What the package takes from outside the available sources

    The Unicode tables of the Go library (case mapping, white space,
    letter and script classes), its sorting routine, and the package's own
    default word lists ([GetWordsForLanguage]) are parameters of the
    development.  Every general statement below holds for all of them. *)

Inductive RangeTable := Han | Hiragana | Katakana | Hangul.

Abbreviation Language := string (only parsing).

Class GoLibrary := {
  strings_ToLower : string → string;
  strings_TrimSpace : string → string;
  unicode_IsLetter : rune → bool;
  unicode_IsSpace : rune → bool;
  unicode_Is : RangeTable → rune → bool;
  (** [sort.Slice(x, less)], with [less] read on elements *)
  sort_Slice : ∀ A : Type, list A → (A → A → bool) → list A;
  (** the package's default word lists *)
  GetWordsForLanguage : Language → list string;
}.
Arguments sort_Slice {_ _} _ _.

(** What [sort.Slice] promises for a [less] that is a strict weak order:
    the result is a rearrangement of the input in which no element is
    [less] than its predecessor. *)
Definition strict_weak_order {A : Type} (less : A → A → bool) : Prop :=
  (∀ a b, less a b = true → less b a = false) ∧
  (∀ a b c, less a c = true → less a b = true ∨ less b c = true).

Definition sort_Slice_contract (L : GoLibrary) : Prop :=
  ∀ (A : Type) (l : list A) (less : A → A → bool),
    strict_weak_order less →
    Permutation (sort_Slice l less) l ∧
    Sorted (λ a b, less b a = false) (sort_Slice l less).

Section Package.
Context `{L : GoLibrary}.

(** *** Candidate generation (second part of bloom_filter.go) *)

Record CandidateGenerator := mkCandidateGenerator {
alphabet : string;
}.

Definition NewCandidateGenerator : CandidateGenerator :=
{| alphabet := "abcdefghijklmnopqrstuvwxyz" |}.

(** The four edits of [word] at byte offset [i]. *)
Definition deleted (word : string) (i : nat) : option string :=
pre ← slice_to word i;
post ← slice_from word (i + 1);
Some (pre +:+ post).

Definition inserted (word : string) (i : nat) (char : rune) : option string :=
pre ← slice_to word i;
post ← slice_from word i;
Some (pre +:+ string_of_rune char +:+ post).

Definition substituted (word : string) (i : nat) (char : rune) : option string :=
pre ← slice_to word i;
post ← slice_from word (i + 1);
Some (pre +:+ string_of_rune char +:+ post).

(** [string(word[i+1])] and [string(word[i])] convert a byte to the UTF-8
  encoding of the code point of the same value. *)
Definition transposed (word : string) (i : nat) : option string :=
pre ← slice_to word i;
c1 ← index word (i + 1);
c0 ← index word i;
post ← slice_from word (i + 2);
Some (pre +:+ string_of_rune (byte_val c1) +:+ string_of_rune (byte_val c0) +:+ post).

(** [generateCandidatesAtDistance]; the shared map [candidates] is passed
  through. *)
Fixpoint generateCandidatesAtDistance (cg : CandidateGenerator) (word : string)
  (distance : nat) (candidates : gset string) : option (gset string) :=
match distance with
| O => Some ({[word]} ∪ candidates)
| S d =>
  let visit (cands : gset string) (edit : option string) : option (gset string) :=
    w ← edit;
    if decide (distance = 1%nat) then Some ({[w]} ∪ cands)
    else generateCandidatesAtDistance cg w d cands in
  (* deletions *)
  candidates ← forM (seq 0 (len word))
    (λ cands i, visit cands (deleted word i)) candidates;
  (* insertions *)
  candidates ← forM (seq 0 (len word + 1))
    (λ cands i,
       forM (runes (alphabet cg))
         (λ cands char, visit cands (inserted word i char)) cands)
    candidates;
  (* substitutions *)
  candidates ← forM (seq 0 (len word))
    (λ cands i,
       forM (runes (alphabet cg))
         (λ cands char,
            wi ← index word i;
            if decide (char ≠ byte_val wi)
            then visit cands (substituted word i char)
            else Some cands) cands)
    candidates;
  (* transpositions of adjacent bytes *)
  forM (seq 0 (len word - 1))
    (λ cands i, visit cands (transposed word i)) candidates
end.

(** [for distance := 1; distance <= maxDistance; distance++]. *)
Definition GenerateCandidates (cg : CandidateGenerator) (word : string)
  (maxDistance : Z) : option (list string) :=
let word := strings_ToLower word in
candidates ← forM (seq 1 (Z.to_nat maxDistance))
  (λ cands distance, generateCandidatesAtDistance cg word distance cands) ∅;
Some (elements candidates).

(** The QWERTY table of [GenerateCommonTypos], keys and neighbours as
  characters. *)
Definition keyboard_layout : list (string * string) :=
[("q", "wa"); ("w", "qeas"); ("e", "wrsd");
 ("r", "etdf"); ("t", "ryfg"); ("y", "tugh");
 ("u", "yihj"); ("i", "uojk"); ("o", "ipkl");
 ("p", "ol"); ("a", "qwsz"); ("s", "awedxz");
 ("d", "serfcx"); ("f", "drtgvc");
 ("g", "ftyhbv"); ("h", "gyujnb");
 ("j", "huikmn"); ("k", "jiolm");
 ("l", "kop"); ("z", "asx"); ("x", "zsdc");
 ("c", "xdfv"); ("v", "cfgb"); ("b", "vghn");
 ("n", "bhjm"); ("m", "njk")].

(** [keyboard[char]]: the neighbours of a rune, if it is a key. *)
Definition keyboard (char : rune) : option (list rune) :=
(λ kv : string * string, runes kv.2) <$>
  find (λ kv, bool_decide (runes kv.1 = [char])) keyboard_layout.

Definition GenerateCommonTypos (cg : CandidateGenerator) (word : string)
: option (list string) :=
let word := strings_ToLower word in
candidates ← forM (range_string word)
  (λ (cands : gset string) (ic : nat * rune),
     match keyboard ic.2 with
     | Some neighbors =>
       forM neighbors
         (λ (cands : gset string) neighbor,
            candidate ← substituted word ic.1 neighbor;
            Some ({[candidate]} ∪ cands)) cands
     | None => Some cands
     end) ∅;
Some (elements candidates).

(** [IsValidWord]. *)
Definition IsValidWord (word : string) : bool :=
if decide (len word = 0%nat) then false
else forallb unicode_IsLetter (runes word).

(** *** language.go *)

Definition English : Language := "en".
Definition Persian : Language := "fa".
Definition Arabic : Language := "ar".
Definition French : Language := "fr".
Definition Spanish : Language := "es".
Definition German : Language := "de".
Definition Italian : Language := "it".
Definition Russian : Language := "ru".
Definition Chinese : Language := "zh".
Definition Japanese : Language := "ja".
Definition Korean : Language := "ko".

Record LanguageInfo := mkLanguageInfo {
Code : Language;
Name : string;
Direction : string;
Alphabet : string;
IsRTL : bool;
Normalizer : string → string;
}.

Definition normalizeEnglish (word : string) : string :=
strings_ToLower (strings_TrimSpace word).

Definition normalizePersian (word : string) : string :=
let word := strings_TrimSpace word in
let word := strings_ReplaceAll word "0" "۰" in
let word := strings_ReplaceAll word "1" "۱" in
let word := strings_ReplaceAll word "2" "۲" in
let word := strings_ReplaceAll word "3" "۳" in
let word := strings_ReplaceAll word "4" "۴" in
let word := strings_ReplaceAll word "5" "۵" in
let word := strings_ReplaceAll word "6" "۶" in
let word := strings_ReplaceAll word "7" "۷" in
let word := strings_ReplaceAll word "8" "۸" in
let word := strings_ReplaceAll word "9" "۹" in
word.

Definition normalizeArabic (word : string) : string := strings_TrimSpace word.
Definition normalizeFrench (word : string) : string :=
strings_ToLower (strings_TrimSpace word).
Definition normalizeSpanish (word : string) : string :=
strings_ToLower (strings_TrimSpace word).
Definition normalizeGerman (word : string) : string :=
strings_ToLower (strings_TrimSpace word).
Definition normalizeItalian (word : string) : string :=
strings_ToLower (strings_TrimSpace word).
Definition normalizeRussian (word : string) : string :=
strings_ToLower (strings_TrimSpace word).
Definition normalizeChinese (word : string) : string := strings_TrimSpace word.
Definition normalizeJapanese (word : string) : string := strings_TrimSpace word.
Definition normalizeKorean (word : string) : string := strings_TrimSpace word.

Definition GetLanguageInfo (lang : Language) : LanguageInfo :=
if decide (lang = English) then
  mkLanguageInfo English "English" "ltr" "abcdefghijklmnopqrstuvwxyz"
    false normalizeEnglish
else if decide (lang = Persian) then
  mkLanguageInfo Persian "Persian" "rtl" "ابپتثجچحخدذرزژسشصضطظعغفقکگلمنوهی"
    true normalizePersian
else if decide (lang = Arabic) then
  mkLanguageInfo Arabic "Arabic" "rtl" "ابتثجحخدذرزسشصضطظعغفقكلمنهوي"
    true normalizeArabic
else if decide (lang = French) then
  mkLanguageInfo French "French" "ltr" "abcdefghijklmnopqrstuvwxyzàâäéèêëïîôöùûüÿç"
    false normalizeFrench
else if decide (lang = Spanish) then
  mkLanguageInfo Spanish "Spanish" "ltr" "abcdefghijklmnopqrstuvwxyzñáéíóúü"
    false normalizeSpanish
else if decide (lang = German) then
  mkLanguageInfo German "German" "ltr" "abcdefghijklmnopqrstuvwxyzäöüß"
    false normalizeGerman
else if decide (lang = Italian) then
  mkLanguageInfo Italian "Italian" "ltr" "abcdefghijklmnopqrstuvwxyzàèéìíîòóùú"
    false normalizeItalian
else if decide (lang = Russian) then
  mkLanguageInfo Russian "Russian" "ltr" "абвгдеёжзийклмнопрстуфхцчшщъыьэюя"
    false normalizeRussian
else if decide (lang = Chinese) then
  mkLanguageInfo Chinese "Chinese" "ltr" "" false normalizeChinese
else if decide (lang = Japanese) then
  mkLanguageInfo Japanese "Japanese" "ltr"
    "あいうえおかきくけこさしすせそたちつてとなにぬねのはひふへほまみむめもやゆよらりるれろわをん"
    false normalizeJapanese
else if decide (lang = Korean) then
  mkLanguageInfo Korean "Korean" "ltr" "ㄱㄴㄷㄹㅁㅂㅅㅇㅈㅊㅋㅌㅍㅎㅏㅑㅓㅕㅗㅛㅜㅠㅡㅣ"
    false normalizeKorean
else
  mkLanguageInfo English "English" "ltr" "abcdefghijklmnopqrstuvwxyz"
    false normalizeEnglish.

Definition in_range (lo hi : Z) (r : rune) : bool := (lo <=? r) && (r <=? hi).

(** [DetectLanguage]: each loop returns at the first rune inside one of
  its ranges. *)
Definition DetectLanguage (word : string) : Language :=
if decide (len word = 0%nat) then English
else if existsb (λ r, in_range 0x0600 0x06FF r || in_range 0x0750 0x077F r
                      || in_range 0x08A0 0x08FF r || in_range 0xFB50 0xFDFF r
                      || in_range 0xFE70 0xFEFF r) (runes word) then Persian
else if existsb (in_range 0x0400 0x04FF) (runes word) then Russian
else if existsb (in_range 0x4E00 0x9FFF) (runes word) then Chinese
else if existsb (in_range 0x3040 0x309F) (runes word) then Japanese
else if existsb (in_range 0xAC00 0xD7AF) (runes word) then Korean
else English.

(** [strings.ContainsRune(s, r)] for a rune [r] produced by [range]. *)
Definition strings_ContainsRune (s : string) (r : rune) : bool :=
bool_decide (r ∈ runes s).

Definition IsValidWordForLanguage (word : string) (lang : Language) : bool :=
if decide (len word = 0%nat) then false
else
  let langInfo := GetLanguageInfo lang in
  let by_alphabet :=
    forallb (λ r, negb (negb (strings_ContainsRune (Alphabet langInfo) r)
                        && negb (unicode_IsSpace r))) (runes word) in
  if decide (Alphabet langInfo = "") then
    if decide (lang = Chinese) then
      forallb (λ r, negb (negb (unicode_Is Han r) && negb (unicode_IsLetter r)))
        (runes word)
    else if decide (lang = Japanese) then
      forallb (λ r, negb (negb (unicode_Is Hiragana r)
                          && negb (unicode_Is Katakana r)
                          && negb (unicode_Is Han r)
                          && negb (unicode_IsLetter r))) (runes word)
    else if decide (lang = Korean) then
      forallb (λ r, negb (negb (unicode_Is Hangul r) && negb (unicode_IsLetter r)))
        (runes word)
    else by_alphabet
  else by_alphabet.

Definition GetSupportedLanguages : list Language :=
[English; Persian; Arabic; French; Spanish; German;
 Italian; Russian; Chinese; Japanese; Korean].

(** *** did_you_mean.go *)

Record Suggestion := mkSuggestion {
Word : string;
Similarity : Q;
}.

(** [bloomFilters[lang] == nil] is an absent key: no nil pointer is ever
  stored.  The filters are held by pointer and updated in place; here
  the updated filter is written back under its key. *)
Record DidYouMean := mkDidYouMean {
bloomFilters : gmap Language BloomFilter;
candidates : CandidateGenerator;
dictionaries : gmap Language (gmap string bool);
currentLang : Language;
}.

Definition NewDidYouMean (dictionarySize : N) (numHashFuncs : Z) : DidYouMean :=
{| bloomFilters := ∅;
   candidates := NewCandidateGenerator;
   dictionaries := ∅;
   currentLang := English |}.

(** [dym.dictionaries[lang][word]]: the zero value [false] for an absent
  language or word. *)
Definition dictionary_has (dym : DidYouMean) (lang : Language) (word : string)
: bool :=
default false (dictionaries dym !! lang ≫= (.!! word)).

Definition AddWordsForLanguage (dym : DidYouMean) (words : list string)
  (lang : Language) : option DidYouMean :=
dym ← (match bloomFilters dym !! lang with
       | None =>
         bf ← NewBloomFilter 10000 7;
         Some {| bloomFilters := <[lang := bf]> (bloomFilters dym);
                 candidates := candidates dym;
                 dictionaries := <[lang := ∅]> (dictionaries dym);
                 currentLang := currentLang dym |}
       | Some _ => Some dym
       end);
let langInfo := GetLanguageInfo lang in
forM words
  (λ dym word,
     let normalized := Normalizer langInfo word in
     if IsValidWordForLanguage normalized lang then
       bf ← bloomFilters dym !! lang;
       bf ← Add bf normalized;
       dict ← dictionaries dym !! lang;
       Some {| bloomFilters := <[lang := bf]> (bloomFilters dym);
               candidates := candidates dym;
               dictionaries := <[lang := <[normalized := true]> dict]> (dictionaries dym);
               currentLang := currentLang dym |}
     else Some dym)
  dym.

Definition AddWords (dym : DidYouMean) (words : list string) : option DidYouMean :=
AddWordsForLanguage dym words (currentLang dym).

Definition SetLanguage (dym : DidYouMean) (lang : Language) : DidYouMean :=
{| bloomFilters := bloomFilters dym;
   candidates := candidates dym;
   dictionaries := dictionaries dym;
   currentLang := lang |}.

Definition GetCurrentLanguage (dym : DidYouMean) : Language := currentLang dym.

Definition LoadDefaultDictionary (dym : DidYouMean) (lang : Language)
: option DidYouMean :=
let words := GetWordsForLanguage lang in
AddWordsForLanguage dym words lang.

Definition IsCorrectForLanguage (dym : DidYouMean) (word : string)
  (lang : Language) : option bool :=
match bloomFilters dym !! lang, dictionaries dym !! lang with
| Some bf, Some _ =>
  let langInfo := GetLanguageInfo lang in
  let normalized := Normalizer langInfo word in
  inFilter ← Contains bf normalized;
  Some (inFilter && dictionary_has dym lang normalized)
| _, _ => Some false
end.

Definition IsCorrect (dym : DidYouMean) (word : string) : option bool :=
IsCorrectForLanguage dym word (currentLang dym).

(** [suggestions[i].Similarity > suggestions[j].Similarity]. *)
Definition more_similar (a b : Suggestion) : bool :=
negb (Qle_bool (Similarity a) (Similarity b)).

Definition GetSuggestionsForLanguage (dym : DidYouMean) (word : string)
  (maxSuggestions maxEditDistance : Z) (lang : Language)
: option (list Suggestion) :=
match bloomFilters dym !! lang, dictionaries dym !! lang with
| Some bf, Some _ =>
  let langInfo := GetLanguageInfo lang in
  let normalized := Normalizer langInfo word in
  if negb (IsValidWordForLanguage normalized lang) then Some []
  else
    correct ← IsCorrectForLanguage dym normalized lang;
    if correct : bool then Some [mkSuggestion normalized 1]
    else
      cands ← GenerateCandidates (candidates dym) normalized maxEditDistance;
      typoCandidates ← GenerateCommonTypos (candidates dym) normalized;
      let cands := cands ++ typoCandidates in
      validCandidates ← forM cands
        (λ valid candidate,
           inFilter ← Contains bf candidate;
           if inFilter && dictionary_has dym lang candidate
           then Some (valid ++ [candidate]) else Some valid) [];
      suggestions ← forM validCandidates
        (λ suggestions candidate,
           similarity ← CalculateSimilarity normalized candidate;
           Some (suggestions ++ [mkSuggestion candidate similarity])) [];
      let suggestions := sort_Slice suggestions more_similar in
      if decide (Z.of_nat (length suggestions) > maxSuggestions) then
        if decide (maxSuggestions < 0) then None
        else Some (take (Z.to_nat maxSuggestions) suggestions)
      else Some suggestions
| _, _ => Some []
end.

Definition GetSuggestions (dym : DidYouMean) (word : string)
  (maxSuggestions maxEditDistance : Z) : option (list Suggestion) :=
GetSuggestionsForLanguage dym word maxSuggestions maxEditDistance (currentLang dym).

Definition SuggestForLanguage (dym : DidYouMean) (word : string)
  (lang : Language) : option string :=
suggestions ← GetSuggestionsForLanguage dym word 1 2 lang;
match suggestions with
| s :: _ => Some (Word s)
| [] => Some word
end.

Definition Suggest (dym : DidYouMean) (word : string) : option string :=
SuggestForLanguage dym word (currentLang dym).

(** [int] arithmetic on a caller's value: the result wraps to 64 bits. *)
Definition int64 (z : Z) : Z := (z + 2 ^ 63) mod 2 ^ 64 - 2 ^ 63.

(** [GetSuggestionsWithThreshold]; the threshold is an exact rational. *)
Definition GetSuggestionsWithThreshold (dym : DidYouMean) (word : string)
    (threshold : Q) (maxSuggestions : Z) : option (list Suggestion) :=
  allSuggestions ← GetSuggestions dym word (int64 (maxSuggestions * 2)) 2;
  let filtered :=
    List.filter (λ suggestion, Qle_bool threshold (Similarity suggestion))
      allSuggestions in
  if decide (Z.of_nat (length filtered) > maxSuggestions) then
    if decide (maxSuggestions < 0) then None
    else Some (take (Z.to_nat maxSuggestions) filtered)
  else Some filtered.

Definition CheckAndSuggestForLanguage (dym : DidYouMean) (word : string)
    (lang : Language) : option (bool * list Suggestion) :=
  correct ← IsCorrectForLanguage dym word lang;
  if correct : bool then Some (true, [])
  else
    suggestions ← GetSuggestionsForLanguage dym word 5 2 lang;
    Some (false, suggestions).

Definition CheckAndSuggest (dym : DidYouMean) (word : string)
  : option (bool * list Suggestion) :=
  CheckAndSuggestForLanguage dym word (currentLang dym).

Definition AutoDetectAndSuggest (dym : DidYouMean) (word : string)
  : option (Language * bool * list Suggestion) :=
  let detectedLang := DetectLanguage word in
  r ← CheckAndSuggestForLanguage dym word detectedLang;
  Some (detectedLang, r.1, r.2).

(** *** Reachable checker states

  The operations that change a checker.  The queries ([IsCorrect],
  [GetSuggestions], [Suggest] and their per-language forms) return a
  result and leave the state as it is. *)
Inductive Op :=
| OpAddWords (words : list string)
| OpAddWordsForLanguage (words : list string) (lang : Language)
| OpSetLanguage (lang : Language)
| OpLoadDefaultDictionary (lang : Language).

Definition step (dym : DidYouMean) (op : Op) : option DidYouMean :=
match op with
| OpAddWords words => AddWords dym words
| OpAddWordsForLanguage words lang => AddWordsForLanguage dym words lang
| OpSetLanguage lang => Some (SetLanguage dym lang)
| OpLoadDefaultDictionary lang => LoadDefaultDictionary dym lang
end.

Inductive reachable : DidYouMean → Prop :=
| reachable_new dictionarySize numHashFuncs :
  reachable (NewDidYouMean dictionarySize numHashFuncs)
| reachable_step dym op dym' :
  reachable dym → step dym op = Some dym' → reachable dym'.

End Package.

(** *** An instance for evaluating the package on ASCII text

    The library functions below agree with Go's on strings made of ASCII
    bytes, where Go itself takes a byte-wise path: case mapping touches
    ['A'..'Z'] only and white space is one of the six ASCII blanks.  The
    instance sorts by insertion and loads no default word list.  It is
    used for the concrete evaluations at the end of the file. *)

Definition ascii_upper (c : ascii) : bool :=
  (0x41 <=? byte_val c) && (byte_val c <=? 0x5A).

Definition ascii_ToLower (s : string) : string :=
  of_bytes ((λ c, if ascii_upper c then to_byte (byte_val c + 32) else c) <$> bytes s).

Definition ascii_space (c : ascii) : bool :=
  bool_decide (byte_val c ∈ [0x09; 0x0A; 0x0B; 0x0C; 0x0D; 0x20]).

Fixpoint drop_spaces (b : list ascii) : list ascii :=
  match b with
  | c :: b' => if ascii_space c then drop_spaces b' else b
  | [] => []
  end.

Definition ascii_TrimSpace (s : string) : string :=
  of_bytes (reverse (drop_spaces (reverse (drop_spaces (bytes s))))).

Definition ascii_IsLetter (r : rune) : bool :=
  in_range 0x41 0x5A r || in_range 0x61 0x7A r.

(** [unicode.IsSpace], in full. *)
Definition IsSpace (r : rune) : bool :=
  bool_decide (r ∈ [0x09; 0x0A; 0x0B; 0x0C; 0x0D; 0x20; 0x85; 0xA0; 0x1680;
                    0x2028; 0x2029; 0x202F; 0x205F; 0x3000])
  || in_range 0x2000 0x200A r.

Fixpoint insert_by {A : Type} (less : A → A → bool) (x : A) (l : list A)
  : list A :=
  match l with
  | [] => [x]
  | y :: l' => if less x y then x :: l else y :: insert_by less x l'
  end.

Definition insertion_sort {A : Type} (l : list A) (less : A → A → bool)
  : list A :=
  foldr (insert_by less) [] l.

Definition ascii_model : GoLibrary :=
  {| strings_ToLower := ascii_ToLower;
     strings_TrimSpace := ascii_TrimSpace;
     unicode_IsLetter := ascii_IsLetter;
     unicode_IsSpace := IsSpace;
     unicode_Is := λ _ _, false;
     sort_Slice := @insertion_sort;
     GetWordsForLanguage := λ _, [] |}.

(** *** Notions used to state and prove the properties *)

Definition same_shape (bf bf' : BloomFilter) : Prop :=
  size bf' = size bf ∧ numHashFuncs bf' = numHashFuncs bf ∧
  length (bitArray bf') = length (bitArray bf).

(** Bits are only ever set. *)
Definition bits_kept (bf bf' : BloomFilter) : Prop :=
  same_shape bf bf' ∧
  ∀ i, bitArray bf !! i = Some true → bitArray bf' !! i = Some true.

(** One probe of [Add]. *)
Definition set_probe (item : string) (bf : BloomFilter) (i : Z) : option BloomFilter :=
  index ← probe bf item i;
  if decide (index < length (bitArray bf))%nat
  then Some {| bitArray := <[index := true]> (bitArray bf);
               size := size bf; numHashFuncs := numHashFuncs bf |}
  else None.

(** A filter whose bit array has [size] cells, [size] positive: neither
    [Add] nor [Contains] panics on it. *)
Definition usable (bf : BloomFilter) : Prop :=
  size bf ≠ 0%N ∧ length (bitArray bf) = N.to_nat (size bf).

(** The recurrence that [LevenshteinDistance] tabulates: the value of
    [matrix[i][j]], the distance between the first [i] bytes of [s1] and
    the first [j] bytes of [s2]. *)
Definition cost (s1 s2 : list ascii) (i j : nat) : Z :=
  if decide (s1 !! i = s2 !! j) then 0 else 1.

Fixpoint lev_cell (s1 s2 : list ascii) (i j : nat) : Z :=
  match i with
  | O => Z.of_nat j
  | S i' =>
    (fix row (j : nat) : Z :=
       match j with
       | O => Z.of_nat (S i')
       | S j' => min (lev_cell s1 s2 i' (S j') + 1)
                     (row j' + 1)
                     (lev_cell s1 s2 i' j' + cost s1 s2 i' j')
       end) j
  end.

(** The matrix has [n1 + 1] rows of [n2 + 1] cells. *)
Definition shape (n1 n2 : nat) (m : list (list Z)) : Prop :=
  length m = S n1 ∧ ∀ i row, m !! i = Some row → length row = S n2.

(** Cells known to hold the recurrence while row [i] is being filled up
    to column [j]. *)
Definition cells_filled (s1 s2 : list ascii) (n1 n2 i j : nat)
    (m : list (list Z)) : Prop :=
  shape n1 n2 m ∧
  ∀ i' j', (i' ≤ n1)%nat → (j' ≤ n2)%nat →
    (i' = 0 ∨ j' = 0 ∨ i' < i ∨ (i' = i ∧ j' < j))%nat →
    mget m i' j' = Some (lev_cell s1 s2 i' j').

(** What every reachable checker satisfies, language by language: filter
    and dictionary exist together, the filter is the one made by
    [NewBloomFilter(10000, 7)] up to set bits, the dictionary stores
    [true] only, and each of its words passes the filter. *)
Definition pair_inv (bf : BloomFilter) (dict : gmap string bool) : Prop :=
  size bf = 10000%N ∧ numHashFuncs bf = 7 ∧
  length (bitArray bf) = N.to_nat (size bf) ∧
  (∀ w b, dict !! w = Some b → b = true) ∧
  (∀ w, dict !! w = Some true → Contains bf w = Some true).

Definition checker_inv (dym : DidYouMean) : Prop :=
  ∀ lang,
    match bloomFilters dym !! lang, dictionaries dym !! lang with
    | Some bf, Some dict => pair_inv bf dict
    | None, None => True
    | _, _ => False
    end.

(** The dictionaries only grow. *)
Definition dict_kept (dym dym' : DidYouMean) : Prop :=
  ∀ lang w, dictionary_has dym lang w = true → dictionary_has dym' lang w = true.

(** The lazy creation of the pair of a language. *)
Definition ensure_language (dym : DidYouMean) (lang : Language) : option DidYouMean :=
  match bloomFilters dym !! lang with
  | None =>
    bf ← NewBloomFilter 10000 7;
    Some {| bloomFilters := <[lang := bf]> (bloomFilters dym);
            candidates := candidates dym;
            dictionaries := <[lang := ∅]> (dictionaries dym);
            currentLang := currentLang dym |}
  | Some _ => Some dym
  end.

Section CheckerNotions.
Context `{L : GoLibrary}.

(** The body of the loop of [AddWordsForLanguage]. *)
Definition add_word (lang : Language) (dym : DidYouMean) (word : string)
  : option DidYouMean :=
  let normalized := Normalizer (GetLanguageInfo lang) word in
  if IsValidWordForLanguage normalized lang then
    bf ← bloomFilters dym !! lang;
    bf ← Add bf normalized;
    dict ← dictionaries dym !! lang;
    Some {| bloomFilters := <[lang := bf]> (bloomFilters dym);
            candidates := candidates dym;
            dictionaries := <[lang := <[normalized := true]> dict]> (dictionaries dym);
            currentLang := currentLang dym |}
  else Some dym.

(** "The normalized word is present in that language's exact dictionary". *)
Definition dictionary_lookup (dym : DidYouMean) (word : string)
    (lang : Language) : bool :=
  match dictionaries dym !! lang with
  | Some dict => bool_decide (Normalizer (GetLanguageInfo lang) word ∈ dom dict)
  | None => false
  end.

(** Every stored word is a valid word of its language. *)
Definition dict_valid (dym : DidYouMean) : Prop :=
  ∀ lang w, dictionary_has dym lang w = true →
            IsValidWordForLanguage w lang = true.

(** What an update of the language [lang] leaves alone. *)
Definition frame (lang : Language) (dym dym' : DidYouMean) : Prop :=
  currentLang dym' = currentLang dym ∧ candidates dym' = candidates dym ∧
  ∀ lang', lang' ≠ lang →
    bloomFilters dym' !! lang' = bloomFilters dym !! lang' ∧
    dictionaries dym' !! lang' = dictionaries dym !! lang'.

End CheckerNotions.

(** Scores do not increase from the first suggestion to the last. *)
Definition non_increasing (l : list Suggestion) : Prop :=
  ∀ i j a b, (i < j)%nat → l !! i = Some a → l !! j = Some b →
             (Similarity b <= Similarity a)%Q.

(** What [GenerateCommonTypos] promises of a candidate [c] for the
    lower-cased word [lw]: one byte of [lw], a key of the table, replaced
    by one of its neighbours. *)
Definition adjacent_substitution (lw c : string) : Prop :=
  ∃ (i : nat) (key : ascii) (neighbors : list rune) (neighbor : rune),
    index lw i = Some key ∧
    keyboard (byte_val key) = Some neighbors ∧
    neighbor ∈ neighbors ∧
    neighbor ≠ byte_val key ∧
    bytes c = <[i := to_byte neighbor]> (bytes lw).

(** A row of the table is sound: its key is one lower-case ASCII letter
    and so is each neighbour, none equal to the key. *)
Definition key_ok (kv : string * string) : bool :=
  match runes kv.1 with
  | [k] => in_range 0x61 0x7A k
           && forallb (λ n, in_range 0x61 0x7A n && negb (n =? k)) (runes kv.2)
  | _ => false
  end.

(** The index probed for [item] with salt [i] in a filter of [sz] bits,
    and the bit array after setting a list of indices. *)
Definition probe_index (sz : N) (item : string) (i : Z) : nat :=
  Z.to_nat (fnv.Sum64 (fnv.Write (fnv.Write fnv.New64a (bytes item)) [to_byte i])
            mod Z.of_N sz).

Definition set_bits (idxs : list nat) (bits : list bool) : list bool :=
  foldl (λ l i, <[i := true]> l) bits idxs.

(** The probes of [item] in the filter [bf]. *)
Definition probes_of (bf : BloomFilter) (item : string) : list nat :=
  probe_index (size bf) item <$> seqZ 0 (numHashFuncs bf).

(** A string of ASCII bytes. *)
Definition ascii_bytes (s : string) : Prop :=
  Forall (λ c, byte_val c < 0x80) (bytes s).

(** The result of one edit of an ASCII word with a letter of an ASCII alphabet: the
    result is again ASCII and within Levenshtein distance 2. *)
Definition near (w e : string) : Prop :=
  ascii_bytes e ∧
  lev_cell (bytes w) (bytes e) (len w) (len e) ≤ 2.

(** Words within a budget of the original word. *)
Definition within (w0 : string) (bound : Z) (c : string) : Prop :=
  ascii_bytes c ∧ lev_cell (bytes w0) (bytes c) (len w0) (len c) ≤ bound.


(** ** Part II: properties *)

Section Loops.
Context {St A : Type}.
Implicit Types (l : list A) (body : St → A → option St).

Lemma forM_app l1 l2 body s :
  forM (l1 ++ l2) body s = forM l1 body s ≫= forM l2 body.
Proof.
  revert s. induction l1 as [|x l1 IH]; intros s; simpl; [done|].
  destruct (body s x); simpl; auto.
Qed.

(** Partial correctness: what every completed iteration preserves holds
    once the loop has completed. *)
Lemma forM_preserves (P : St → Prop) l body s s' :
  (∀ s x s', x ∈ l → P s → body s x = Some s' → P s') →
  P s → forM l body s = Some s' → P s'.
Proof.
  revert s. induction l as [|x l IH]; intros s Hstep HP Hrun; simpl in Hrun.
  - by simplify_eq.
  - destruct (body s x) as [s1|] eqn:Hb; simpl in Hrun; [|done].
    apply (IH s1); [|by eapply Hstep; [left|..]|done].
    intros ? y ? Hy. apply Hstep. by right.
Qed.

(** Total correctness: the loop completes when every iteration does. *)
Lemma forM_invariant (P : St → Prop) l body s :
  (∀ s x, x ∈ l → P s → ∃ s', body s x = Some s' ∧ P s') →
  P s → ∃ s', forM l body s = Some s' ∧ P s'.
Proof.
  revert s. induction l as [|x l IH]; intros s Hstep HP; simpl.
  - eauto.
  - destruct (Hstep s x) as (s1 & -> & HP1); [by left|done|]. simpl.
    apply IH; [|done]. intros ? y Hy. apply Hstep. by right.
Qed.

(** The same for a counting loop, with an invariant that follows the
    counter. *)
Lemma forM_seq_invariant (P : nat → St → Prop) (body : St → nat → option St)
    (start n : nat) s :
  (∀ k s, (start ≤ k < start + n)%nat → P k s →
          ∃ s', body s k = Some s' ∧ P (S k) s') →
  P start s → ∃ s', forM (seq start n) body s = Some s' ∧ P (start + n)%nat s'.
Proof.
  revert start s. induction n as [|n IH]; intros start s Hstep HP; simpl.
  - rewrite Nat.add_0_r. eauto.
  - destruct (Hstep start s) as (s1 & -> & HP1); [lia|done|]. simpl.
    replace (start + S n)%nat with (S start + n)%nat by lia.
    apply IH; [|done]. intros k ? ?. apply Hstep. lia.
Qed.
End Loops.

(** ** Bloom filter *)

Lemma bits_kept_refl bf : bits_kept bf bf.
Proof. by repeat split. Qed.

Lemma bits_kept_trans bf1 bf2 bf3 :
  bits_kept bf1 bf2 → bits_kept bf2 bf3 → bits_kept bf1 bf3.
Proof.
  intros [(?&?&?) H12] [(?&?&?) H23]. repeat split; try congruence. auto.
Qed.

Lemma probe_same_shape bf bf' item i :
  same_shape bf bf' → probe bf' item i = probe bf item i.
Proof. intros (Hs&_&_). unfold probe. by rewrite Hs. Qed.

Lemma set_probe_spec item bf i bf' :
  set_probe item bf i = Some bf' →
  bits_kept bf bf' ∧
  ∃ index, probe bf item i = Some index ∧ bitArray bf' !! index = Some true.
Proof.
  unfold set_probe. destruct (probe bf item i) as [index|] eqn:Hp; simpl; [|done].
  case_decide; [|done]. intros [= <-]. split.
  - repeat split; simpl; [by rewrite length_insert|].
    intros j Hj. destruct (decide (index = j)) as [->|].
    + by rewrite list_lookup_insert_eq.
    + by rewrite list_lookup_insert_ne.
  - exists index. split; [done|]. simpl. by rewrite list_lookup_insert_eq.
Qed.

Lemma Add_unfold bf item :
  Add bf item = forM (seqZ 0 (numHashFuncs bf)) (set_probe item) bf.
Proof. done. Qed.

(** After the probes [salts] of [item] have been set, each of them reads
    a set bit. *)
Lemma set_probes_spec item salts bf bf' :
  forM salts (set_probe item) bf = Some bf' →
  bits_kept bf bf' ∧
  ∀ i, i ∈ salts →
       ∃ index, probe bf' item i = Some index ∧ bitArray bf' !! index = Some true.
Proof.
  revert bf. induction salts as [|i salts IH]; intros bf Hrun; simpl in Hrun.
  - simplify_eq. split; [apply bits_kept_refl|]. intros ? []%elem_of_nil.
  - destruct (set_probe item bf i) as [bf1|] eqn:H1; simpl in Hrun; [|done].
    apply set_probe_spec in H1 as [Hk1 (index & Hp & Hbit)].
    apply IH in Hrun as [Hk2 Hrest].
    split; [by eapply bits_kept_trans|].
    intros j [->|Hj]%elem_of_cons; [|by apply Hrest].
    exists index. split.
    + rewrite <- Hp. apply probe_same_shape.
      apply (bits_kept_trans _ _ _ Hk1 Hk2).
    + by apply Hk2.
Qed.

Lemma Contains_loop_true bf item salts :
  (∀ i, i ∈ salts →
        ∃ index, probe bf item i = Some index ∧ bitArray bf !! index = Some true) →
  Contains_loop bf item salts = Some true.
Proof.
  induction salts as [|i salts IH]; intros H; simpl; [done|].
  destruct (H i) as (index & -> & Hbit); [by left|]. simpl. rewrite Hbit. simpl.
  apply IH. intros j Hj. apply H. by right.
Qed.

Lemma Contains_loop_true_inv bf item salts :
  Contains_loop bf item salts = Some true →
  ∀ i, i ∈ salts →
       ∃ index, probe bf item i = Some index ∧ bitArray bf !! index = Some true.
Proof.
  induction salts as [|i salts IH]; simpl; intros H j Hj.
  - by apply elem_of_nil in Hj.
  - destruct (probe bf item i) as [index|] eqn:Hp; simpl in H; [|done].
    destruct (bitArray bf !! index) as [[]|] eqn:Hb; simpl in H; try done.
    apply elem_of_cons in Hj as [->|Hj]; eauto.
Qed.

Lemma Add_spec bf item bf' :
  Add bf item = Some bf' → bits_kept bf bf' ∧ Contains bf' item = Some true.
Proof.
  rewrite Add_unfold. intros Hrun.
  pose proof (set_probes_spec _ _ _ _ Hrun) as [Hk Hset].
  split; [done|]. apply Contains_loop_true.
  destruct Hk as [(_&->&_) _]. done.
Qed.

Lemma Contains_bits_kept bf bf' item :
  bits_kept bf bf' → Contains bf item = Some true → Contains bf' item = Some true.
Proof.
  intros Hk Hc. apply Contains_loop_true.
  destruct Hk as [Hs Hbits]. destruct (Hs) as (_&->&_).
  intros i Hi. destruct (Contains_loop_true_inv _ _ _ Hc i Hi) as (index & Hp & Hb).
  exists index. rewrite (probe_same_shape _ _ _ _ Hs). auto.
Qed.

Lemma AddWords_spec words bf bf' :
  BloomFilter_AddWords bf words = Some bf' →
  bits_kept bf bf' ∧ ∀ w, w ∈ words → Contains bf' w = Some true.
Proof.
  unfold BloomFilter_AddWords. revert bf.
  induction words as [|w words IH]; intros bf Hrun; simpl in Hrun.
  - simplify_eq. split; [apply bits_kept_refl|]. intros ? []%elem_of_nil.
  - destruct (Add bf w) as [bf1|] eqn:H1; simpl in Hrun; [|done].
    apply Add_spec in H1 as [Hk1 Hc]. apply IH in Hrun as [Hk2 Hrest].
    split; [by eapply bits_kept_trans|].
    intros v [->|Hv]%elem_of_cons; [|by apply Hrest].
    by eapply Contains_bits_kept.
Qed.

Lemma probe_usable bf item i :
  usable bf → ∃ index, probe bf item i = Some index ∧ (index < length (bitArray bf))%nat.
Proof.
  intros [Hs Hl]. unfold probe. case_decide; [done|].
  eexists; split; [done|]. rewrite Hl.
  pose proof (Z.mod_pos_bound
    (fnv.Sum64 (fnv.Write (fnv.Write fnv.New64a (bytes item)) [to_byte i]))
    (Z.of_N (size bf))). lia.
Qed.

Lemma usable_same_shape bf bf' : same_shape bf bf' → usable bf → usable bf'.
Proof. intros (Hs&_&Hl) [? ?]. split; congruence. Qed.

Lemma Add_total bf item : usable bf → ∃ bf', Add bf item = Some bf' ∧ usable bf'.
Proof.
  intros Hu. rewrite Add_unfold.
  apply (forM_invariant usable); [|done].
  intros s i _ Hs. destruct (probe_usable s item i Hs) as (index & Hp & Hlt).
  unfold set_probe. rewrite Hp. simpl. rewrite decide_True by done.
  eexists; split; [done|]. destruct Hs as [? ?].
  split; simpl; [done|]. by rewrite length_insert.
Qed.

Lemma Contains_total bf item : usable bf → is_Some (Contains bf item).
Proof.
  intros Hu. unfold Contains. induction (seqZ 0 (numHashFuncs bf)) as [|i salts IH]; simpl; [done|].
  destruct (probe_usable bf item i Hu) as (index & -> & Hlt). simpl.
  destruct (lookup_lt_is_Some_2 _ _ Hlt) as [b ->]. simpl. by destruct b.
Qed.

Lemma AddWords_total words bf :
  usable bf → ∃ bf', BloomFilter_AddWords bf words = Some bf' ∧ usable bf'.
Proof.
  intros Hu. apply (forM_invariant usable); [|done].
  intros s w _ Hs. by apply Add_total.
Qed.

Lemma NewBloomFilter_usable sz k bf :
  NewBloomFilter sz k = Some bf → sz ≠ 0%N → usable bf.
Proof.
  unfold NewBloomFilter. case_decide; [done|]. intros [= <-] ?.
  split; simpl; [done|]. by rewrite length_replicate.
Qed.

(** C1.  No false negatives: whatever filter [NewBloomFilter] made and
    whatever words were added, every added word is reported by [Contains];
    and with a positive size and a non-negative number of hash functions
    neither the construction nor any [Add] panics. *)
Theorem bloom_no_false_negatives (sz : N) (k : Z) (words : list string) :
  (∀ bf0 bf, NewBloomFilter sz k = Some bf0 →
             BloomFilter_AddWords bf0 words = Some bf →
             ∀ w, w ∈ words → Contains bf w = Some true) ∧
  (0 ≤ k → sz ≠ 0%N →
   ∃ bf0 bf, NewBloomFilter sz k = Some bf0 ∧
             BloomFilter_AddWords bf0 words = Some bf).
Proof.
  split.
  - intros bf0 bf _ Hadd. by apply AddWords_spec in Hadd as [_ ?].
  - intros Hk Hsz. unfold NewBloomFilter. rewrite decide_False by lia.
    eexists. 
    edestruct (AddWords_total words) as (bf & Hbf & _); [|eauto].
    split; simpl; [done|]. by rewrite length_replicate.
Qed.

Lemma min_spec a b c : min a b c = Z.min a (Z.min b c).
Proof.
  unfold min.
  destruct (a <? b) eqn:Hab, (a <? c) eqn:Hac, (b <? c) eqn:Hbc; simpl; lia.
Qed.

Lemma max_spec a b : max a b = Z.max a b.
Proof. unfold max. destruct (a >? b) eqn:H; lia. Qed.

Section Levenshtein.
Variables s1 s2 : list ascii.
Abbreviation d := (lev_cell s1 s2).

Lemma lev_cell_0_l j : d 0 j = Z.of_nat j.
Proof. done. Qed.

Lemma lev_cell_0_r i : d i 0 = Z.of_nat i.
Proof. by destruct i. Qed.

Lemma lev_cell_S i j :
  d (S i) (S j) = min (d i (S j) + 1) (d (S i) j + 1) (d i j + cost s1 s2 i j).
Proof. done. Qed.

Lemma cost_bounds i j : 0 ≤ cost s1 s2 i j ≤ 1.
Proof. unfold cost. case_decide; lia. Qed.

Lemma lev_cell_bounds i j : 0 ≤ d i j ≤ Z.max (Z.of_nat i) (Z.of_nat j).
Proof.
  revert j. induction i as [|i IHi]; intros j.
  - rewrite lev_cell_0_l. lia.
  - induction j as [|j IHj].
    + rewrite lev_cell_0_r. lia.
    + rewrite lev_cell_S, min_spec.
      pose proof (IHi (S j)). pose proof (IHi j). pose proof (cost_bounds i j).
      lia.
Qed.

(** A zero cell: equal prefixes. *)
Lemma lev_cell_zero i j :
  d i j = 0 → i = j ∧ ∀ k, (k < i)%nat → s1 !! k = s2 !! k.
Proof.
  revert j. induction i as [|i IHi]; intros j.
  - rewrite lev_cell_0_l. intros. split; [lia|]. intros; lia.
  - induction j as [|j IHj].
    + rewrite lev_cell_0_r. lia.
    + rewrite lev_cell_S, min_spec. intros H0.
      pose proof (lev_cell_bounds i (S j)). pose proof (lev_cell_bounds (S i) j).
      pose proof (lev_cell_bounds i j). pose proof (cost_bounds i j).
      assert (d i j = 0 ∧ cost s1 s2 i j = 0) as [Hd Hc] by lia.
      apply IHi in Hd as [<- Hpre]. split; [done|].
      intros k Hk. destruct (decide (k = i)) as [->|]; [|apply Hpre; lia].
      unfold cost in Hc. by case_decide.
Qed.

(** On the diagonal a cell is bounded by the number of mismatches: one
    substitution per position suffices. *)
Lemma lev_cell_diag_step i : d (S i) (S i) ≤ d i i + cost s1 s2 i i.
Proof. rewrite lev_cell_S, min_spec. lia. Qed.

Variables n1 n2 : nat.
Hypothesis Hn1 : n1 = length s1.
Hypothesis Hn2 : n2 = length s2.

Lemma mget_shape m i j :
  shape n1 n2 m → (i ≤ n1)%nat → (j ≤ n2)%nat → is_Some (mget m i j).
Proof.
  intros [Hl Hr] Hi Hj. unfold mget.
  destruct (lookup_lt_is_Some_2 m i) as [row Hrow]; [lia|].
  rewrite Hrow. simpl. apply lookup_lt_is_Some_2. rewrite (Hr _ _ Hrow). lia.
Qed.

Lemma mset_spec m i j v :
  shape n1 n2 m → (i ≤ n1)%nat → (j ≤ n2)%nat →
  ∃ m', mset m i j v = Some m' ∧ shape n1 n2 m' ∧
        mget m' i j = Some v ∧
        ∀ i' j', (i', j') ≠ (i, j) → mget m' i' j' = mget m i' j'.
Proof.
  intros [Hl Hr] Hi Hj. unfold mset.
  destruct (lookup_lt_is_Some_2 m i) as [row Hrow]; [lia|].
  rewrite Hrow. simpl. rewrite decide_True by (rewrite (Hr _ _ Hrow); lia).
  eexists; split; [done|]. split; [|split].
  - split; [by rewrite length_insert|].
    intros i' row'. destruct (decide (i = i')) as [<-|].
    + rewrite list_lookup_insert_eq by lia. intros [= <-].
      rewrite length_insert. eauto.
    + rewrite list_lookup_insert_ne by done. eauto.
  - unfold mget. rewrite list_lookup_insert_eq by lia. simpl.
    apply list_lookup_insert_eq. rewrite (Hr _ _ Hrow); lia.
  - intros i' j' Hne. unfold mget. destruct (decide (i = i')) as [<-|].
    + rewrite list_lookup_insert_eq by lia. rewrite Hrow. simpl.
      apply list_lookup_insert_ne. congruence.
    + by rewrite list_lookup_insert_ne.
Qed.

Abbreviation filled := (cells_filled s1 s2 n1 n2).

Lemma fill_cell_spec i j m :
  (1 ≤ i ≤ n1)%nat → (1 ≤ j ≤ n2)%nat → filled i j m →
  ∃ m', fill_cell s1 s2 i m j = Some m' ∧ filled i (S j) m'.
Proof.
  intros Hi Hj [Hsh Hknown]. unfold fill_cell.
  destruct (lookup_lt_is_Some_2 s1 (i - 1)) as [c1 Hc1]; [lia|].
  destruct (lookup_lt_is_Some_2 s2 (j - 1)) as [c2 Hc2]; [lia|].
  rewrite Hc1, Hc2. simpl.
  rewrite !Hknown by lia. simpl.
  destruct (mset_spec m i j
    (min (d (i - 1) j + 1) (d i (j - 1) + 1)
         (d (i - 1) (j - 1) + (if decide (c1 ≠ c2) then 1 else 0))) Hsh)
    as (m' & -> & Hsh' & Hnew & Hold); [lia..|].
  exists m'. split; [done|]. split; [done|].
  intros i' j' Hi' Hj' Hdone.
  destruct (decide ((i', j') = (i, j))) as [[= -> ->]|Hne].
  - rewrite Hnew. f_equal.
    destruct i as [|i]; [lia|]. destruct j as [|j]; [lia|].
    rewrite lev_cell_S.
    replace (S i - 1)%nat with i in * by lia.
    replace (S j - 1)%nat with j in * by lia.
    unfold cost. rewrite Hc1, Hc2.
    repeat case_decide; congruence.
  - rewrite Hold by done. apply Hknown; [done..|].
    destruct (decide (i' = i)); [|lia].
    destruct (decide (j' = j)); [congruence|lia].
Qed.

Lemma fill_row_spec i m :
  (1 ≤ i ≤ n1)%nat → filled i 1 m →
  ∃ m', forM (seq 1 n2) (fill_cell s1 s2 i) m = Some m' ∧ filled (S i) 1 m'.
Proof.
  intros Hi Hm.
  destruct (forM_seq_invariant (filled i) (fill_cell s1 s2 i) 1 n2 m)
    as (m' & Hrun & [Hsh Hknown]); [|done|].
  - intros j m0 Hj Hm0. apply fill_cell_spec; [done|lia|done].
  - exists m'. split; [done|]. split; [done|].
    intros i' j' ? ? ?. apply Hknown; lia.
Qed.

Lemma LevenshteinDistance_matrix :
  n1 ≠ 0%nat → n2 ≠ 0%nat →
  ∃ m,
    (forM (seq 0 (n1 + 1)) (λ m i, mset m i 0 (Z.of_nat i))
          ((λ _ : list Z, replicate (n2 + 1) 0) <$> replicate (n1 + 1) [])
     ≫= λ m, forM (seq 0 (n2 + 1)) (λ m j, mset m 0 j (Z.of_nat j)) m
     ≫= λ m, forM (seq 1 n1) (λ m i, forM (seq 1 n2) (fill_cell s1 s2 i) m) m)
    = Some m ∧ filled (S n1) 1 m.
Proof.
  intros Hn1' Hn2'.
  set (m0 := (λ _ : list Z, replicate (n2 + 1) 0) <$> replicate (n1 + 1) []).
  assert (shape n1 n2 m0) as Hsh0.
  { split.
    - unfold m0. rewrite length_fmap, length_replicate. lia.
    - intros i row. unfold m0. rewrite list_lookup_fmap.
      destruct (replicate (n1 + 1) [] !! i); simpl; [|done].
      intros [= <-]. rewrite length_replicate. lia. }
  (* first column *)
  destruct (forM_seq_invariant
    (λ k m, shape n1 n2 m ∧
            ∀ i, (i < k)%nat → mget m i 0 = Some (Z.of_nat i))
    (λ m i, mset m i 0 (Z.of_nat i)) 0 (n1 + 1) m0)
    as (m1 & -> & Hsh1 & Hcol).
  { intros k m Hk [Hsh Hc].
    destruct (mset_spec m k 0 (Z.of_nat k) Hsh) as (m' & -> & ? & Hnew & Hold);
      [lia..|].
    exists m'. split; [done|]. split; [done|].
    intros i Hi. destruct (decide (i = k)) as [->|]; [done|].
    rewrite Hold by congruence. apply Hc. lia. }
  { split; [done|]. intros; lia. }
  simpl.
  (* first row *)
  destruct (forM_seq_invariant
    (λ k m, shape n1 n2 m ∧
            (∀ i, (i ≤ n1)%nat → mget m i 0 = Some (Z.of_nat i)) ∧
            ∀ j, (j < k)%nat → mget m 0 j = Some (Z.of_nat j))
    (λ m j, mset m 0 j (Z.of_nat j)) 0 (n2 + 1) m1)
    as (m2 & -> & Hsh2 & Hcol2 & Hrow).
  { intros k m Hk (Hsh & Hc & Hr).
    destruct (mset_spec m 0 k (Z.of_nat k) Hsh) as (m' & -> & ? & Hnew & Hold);
      [lia..|].
    exists m'. split; [done|]. split; [done|]. split.
    - intros i Hi. destruct (decide ((i, 0%nat) = (0%nat, k))) as [[= -> <-]|].
      + done.
      + rewrite Hold by done. by apply Hc.
    - intros j Hj. destruct (decide (j = k)) as [->|]; [done|].
      rewrite Hold by congruence. apply Hr. lia. }
  { split; [done|]. split; [|intros; lia]. intros i Hi. apply Hcol. lia. }
  simpl.
  (* the fill *)
  destruct (forM_seq_invariant (λ i m, filled i 1 m)
    (λ m i, forM (seq 1 n2) (fill_cell s1 s2 i) m) 1 n1 m2)
    as (m3 & -> & Hfilled).
  { intros i m Hi Hm. apply fill_row_spec; [lia|done]. }
  { split; [done|]. intros i' j' Hi' Hj' Hd.
    destruct (decide (j' = 0%nat)) as [->|].
    - rewrite lev_cell_0_r. by apply Hcol2.
    - assert (i' = 0%nat) as -> by lia. rewrite lev_cell_0_l. apply Hrow. lia. }
  exists m3. split; [done|]. done.
Qed.
End Levenshtein.

(** [LevenshteinDistance] never panics and returns the last cell of the
    recurrence. *)
Lemma LevenshteinDistance_cell s1 s2 :
  LevenshteinDistance s1 s2 =
  Some (lev_cell (bytes s1) (bytes s2) (len s1) (len s2)).
Proof.
  unfold LevenshteinDistance, len.
  set (b1 := bytes s1). set (b2 := bytes s2).
  case_decide as H1.
  { rewrite H1. by rewrite lev_cell_0_l. }
  case_decide as H2.
  { rewrite H2. by rewrite lev_cell_0_r. }
  destruct (LevenshteinDistance_matrix b1 b2 (length b1) (length b2) eq_refl eq_refl H1 H2)
    as (m & Hrun & Hsh & Hknown).
  simpl in Hrun.
  destruct (forM (seq 0 (length b1 + 1)) _ _) as [m1|]; simpl in *; [|done].
  destruct (forM (seq 0 (length b2 + 1)) _ _) as [m2|]; simpl in *; [|done].
  rewrite Hrun. simpl. apply Hknown; lia.
Qed.

Lemma bytes_inj a b : bytes a = bytes b → a = b.
Proof.
  unfold bytes. intros H.
  rewrite <- (string_of_list_ascii_of_string a), <- (string_of_list_ascii_of_string b).
  by rewrite H.
Qed.

Lemma bytes_of_bytes l : bytes (of_bytes l) = l.
Proof. apply list_ascii_of_string_of_list_ascii. Qed.

Lemma bytes_app a b : bytes (a +:+ b) = bytes a ++ bytes b.
Proof. unfold bytes. induction a as [|c a IH]; simpl; [done|]. by rewrite IH. Qed.

(** The distance is zero only between equal strings. *)
Lemma lev_cell_zero_eq a b :
  lev_cell (bytes a) (bytes b) (len a) (len b) = 0 → a = b.
Proof.
  intros [Hlen Hpre]%lev_cell_zero. apply bytes_inj.
  apply list_eq. intros k. destruct (decide (k < len a)%nat) as [Hk|Hk].
  - by apply Hpre.
  - unfold len in *. rewrite !lookup_ge_None_2; [done|lia..].
Qed.

Lemma similarity_score_bounds (dist m : Z) :
  0 ≤ dist ≤ m → 0 < m →
  (0 <= 1 - inject_Z dist / inject_Z m <= 1)%Q ∧
  ((1 - inject_Z dist / inject_Z m == 1)%Q → dist = 0).
Proof.
  intros Hd Hm. destruct m as [|p|p]; try lia.
  rewrite <- Qmake_Qdiv.
  unfold Qle, Qeq, Qminus, Qplus, Qopp. simpl. lia.
Qed.

Lemma CalculateSimilarity_spec a b :
  ∃ q, CalculateSimilarity a b = Some q ∧
       (0 <= q <= 1)%Q ∧ ((q == 1)%Q ↔ a = b).
Proof.
  unfold CalculateSimilarity.
  case_decide as Hab.
  { eexists; split; [done|]. split; [split; discriminate|done]. }
  rewrite max_spec. case_decide as Hmax.
  { exfalso. apply Hab, bytes_inj.
    assert (len a = 0 ∧ len b = 0)%nat as [Ha Hb] by lia.
    apply nil_length_inv in Ha, Hb. congruence. }
  rewrite LevenshteinDistance_cell. simpl. eexists; split; [done|].
  pose proof (lev_cell_bounds (bytes a) (bytes b) (len a) (len b)) as Hb.
  destruct (similarity_score_bounds
    (lev_cell (bytes a) (bytes b) (len a) (len b))
    (Z.max (Z.of_nat (len a)) (Z.of_nat (len b)))) as [Hrange Hone]; [lia..|].
  split; [done|]. split; [|done].
  intros H1. exfalso. apply Hab, lev_cell_zero_eq. auto.
Qed.

(** C7.  [CalculateSimilarity] never panics, its score lies in [0, 1],
    [CalculateSimilarity(s, s)] is 1, and the score is 1 exactly when the
    two strings are equal. *)
Theorem similarity_range :
  (∀ s, CalculateSimilarity s s = Some 1%Q) ∧
  ∀ a b, ∃ q, CalculateSimilarity a b = Some q ∧
              (0 <= q <= 1)%Q ∧ ((q == 1)%Q ↔ a = b).
Proof.
  split; [|apply CalculateSimilarity_spec].
  intros s. unfold CalculateSimilarity. by rewrite decide_True.
Qed.

Lemma NewBloomFilter_spec sz k bf :
  NewBloomFilter sz k = Some bf →
  size bf = sz ∧ numHashFuncs bf = k ∧ length (bitArray bf) = N.to_nat sz.
Proof.
  unfold NewBloomFilter. case_decide; [done|]. intros [= <-].
  repeat split. apply length_replicate.
Qed.

Lemma NewBloomFilter_total sz k : 0 ≤ k → is_Some (NewBloomFilter sz k).
Proof. intros. unfold NewBloomFilter. rewrite decide_False by lia. eauto. Qed.

Lemma pair_inv_usable bf dict : pair_inv bf dict → usable bf.
Proof. intros (Hs & _ & Hl & _). split; [by rewrite Hs|done]. Qed.

Section Checker.
Context `{L : GoLibrary}.

Lemma checker_inv_new sz k : checker_inv (NewDidYouMean sz k).
Proof. intros lang. simpl. by rewrite !lookup_empty. Qed.

Lemma checker_inv_lookup dym lang bf :
  checker_inv dym → bloomFilters dym !! lang = Some bf →
  ∃ dict, dictionaries dym !! lang = Some dict ∧ pair_inv bf dict.
Proof.
  intros Hinv Hbf. specialize (Hinv lang). rewrite Hbf in Hinv.
  destruct (dictionaries dym !! lang); [eauto|done].
Qed.

Lemma checker_inv_lookup_dict dym lang dict :
  checker_inv dym → dictionaries dym !! lang = Some dict →
  ∃ bf, bloomFilters dym !! lang = Some bf ∧ pair_inv bf dict.
Proof.
  intros Hinv Hd. specialize (Hinv lang). rewrite Hd in Hinv.
  destruct (bloomFilters dym !! lang); [eauto|done].
Qed.

Lemma dict_kept_refl dym : dict_kept dym dym.
Proof. by intros ??. Qed.

Lemma AddWordsForLanguage_unfold dym words lang :
  AddWordsForLanguage dym words lang =
  ensure_language dym lang ≫= forM words (add_word lang).
Proof. done. Qed.

Lemma ensure_language_spec dym lang :
  checker_inv dym →
  ∃ dym', ensure_language dym lang = Some dym' ∧ checker_inv dym' ∧
          is_Some (bloomFilters dym' !! lang) ∧ dict_kept dym dym' ∧
          currentLang dym' = currentLang dym.
Proof.
  intros Hinv. unfold ensure_language.
  destruct (bloomFilters dym !! lang) as [bf|] eqn:Hbf.
  { exists dym. rewrite Hbf. split_and!; eauto using dict_kept_refl. }
  destruct (NewBloomFilter_total 10000 7) as [bf Hnew]; [lia|].
  rewrite Hnew. simpl. eexists; split; [done|].
  apply NewBloomFilter_spec in Hnew as (Hs & Hk & Hl).
  (* *)
  assert (dictionaries dym !! lang = None) as Hd.
  { specialize (Hinv lang). rewrite Hbf in Hinv.
    by destruct (dictionaries dym !! lang). }
  repeat split; simpl.
  - intros lang'. simpl. destruct (decide (lang = lang')) as [<-|Hne].
    + rewrite !lookup_insert_eq. repeat split; try done.
      by rewrite Hs.
    + rewrite !lookup_insert_ne by done. apply Hinv.
  - rewrite lookup_insert_eq. eauto.
  - intros lang' w. unfold dictionary_has. simpl.
    destruct (decide (lang = lang')) as [<-|Hne].
    + by rewrite Hd.
    + by rewrite lookup_insert_ne.
Qed.

Lemma add_word_spec lang dym word :
  checker_inv dym → is_Some (bloomFilters dym !! lang) →
  ∃ dym', add_word lang dym word = Some dym' ∧ checker_inv dym' ∧
          is_Some (bloomFilters dym' !! lang) ∧ dict_kept dym dym' ∧
          currentLang dym' = currentLang dym ∧
          (IsValidWordForLanguage (Normalizer (GetLanguageInfo lang) word) lang = true →
           dictionary_has dym' lang (Normalizer (GetLanguageInfo lang) word) = true).
Proof.
  intros Hinv [bf Hbf]. unfold add_word.
  set (normalized := Normalizer (GetLanguageInfo lang) word).
  destruct (IsValidWordForLanguage normalized lang).
  2:{ exists dym. split_and!; eauto using dict_kept_refl; done. }
  destruct (checker_inv_lookup _ _ _ Hinv Hbf) as (dict & Hd & Hpair).
  destruct (Add_total bf normalized (pair_inv_usable _ _ Hpair)) as (bf' & Hadd & _).
  rewrite Hbf. simpl. rewrite Hadd. simpl. rewrite Hd. simpl.
  apply Add_spec in Hadd as [Hkept Hin].
  eexists; split; [done|]. split_and!; simpl.
  - intros lang'. simpl. destruct (decide (lang = lang')) as [<-|Hne].
    + rewrite !lookup_insert_eq.
      destruct Hpair as (Hs & Hk & Hl & Htrue & Hsub).
      destruct Hkept as [(Hs' & Hk' & Hl') Hbits].
      split_and!; try congruence.
      * intros w b. destruct (decide (normalized = w)) as [<-|].
        -- rewrite lookup_insert_eq. congruence.
        -- rewrite lookup_insert_ne by done. apply Htrue.
      * intros w. destruct (decide (normalized = w)) as [<-|].
        -- done.
        -- rewrite lookup_insert_ne by done. intros Hw.
           eapply Contains_bits_kept; [|by apply Hsub].
           by split.
    + rewrite !lookup_insert_ne by done. apply Hinv.
  - rewrite lookup_insert_eq. eauto.
  - intros lang' w. unfold dictionary_has. simpl.
    destruct (decide (lang = lang')) as [<-|Hne].
    + rewrite lookup_insert_eq, Hd. simpl.
      destruct (decide (normalized = w)) as [<-|].
      * by rewrite lookup_insert_eq.
      * by rewrite lookup_insert_ne.
    + by rewrite lookup_insert_ne.
  - done.
  - intros _. unfold dictionary_has. simpl.
    by rewrite lookup_insert_eq; simpl; rewrite lookup_insert_eq.
Qed.

Lemma dict_kept_trans d1 d2 d3 : dict_kept d1 d2 → dict_kept d2 d3 → dict_kept d1 d3.
Proof. intros H12 H23 lang w ?. by apply H23, H12. Qed.

Lemma add_words_spec lang words dym :
  checker_inv dym → is_Some (bloomFilters dym !! lang) →
  ∃ dym', forM words (add_word lang) dym = Some dym' ∧ checker_inv dym' ∧
          is_Some (bloomFilters dym' !! lang) ∧ dict_kept dym dym' ∧
          currentLang dym' = currentLang dym ∧
          ∀ w, w ∈ words →
            IsValidWordForLanguage (Normalizer (GetLanguageInfo lang) w) lang = true →
            dictionary_has dym' lang (Normalizer (GetLanguageInfo lang) w) = true.
Proof.
  revert dym. induction words as [|word words IH]; intros dym Hinv Hbf; simpl.
  - exists dym. split_and!; eauto using dict_kept_refl.
    intros w Hw. by apply elem_of_nil in Hw.
  - destruct (add_word_spec lang dym word Hinv Hbf)
      as (dym1 & -> & Hinv1 & Hbf1 & Hk1 & Hc1 & Hw1). simpl.
    destruct (IH dym1 Hinv1 Hbf1) as (dym' & -> & Hinv' & Hbf' & Hk' & Hc' & Hw').
    exists dym'. split_and!; eauto.
    + by eapply dict_kept_trans.
    + congruence.
    + intros w [->|Hw]%elem_of_cons Hvalid; [|by apply Hw'].
      apply Hk'. by apply Hw1.
Qed.

Lemma AddWordsForLanguage_spec dym words lang :
  checker_inv dym →
  ∃ dym', AddWordsForLanguage dym words lang = Some dym' ∧ checker_inv dym' ∧
          is_Some (bloomFilters dym' !! lang) ∧ dict_kept dym dym' ∧
          currentLang dym' = currentLang dym ∧
          ∀ w, w ∈ words →
            IsValidWordForLanguage (Normalizer (GetLanguageInfo lang) w) lang = true →
            dictionary_has dym' lang (Normalizer (GetLanguageInfo lang) w) = true.
Proof.
  intros Hinv. rewrite AddWordsForLanguage_unfold.
  destruct (ensure_language_spec dym lang Hinv)
    as (dym1 & -> & Hinv1 & Hbf1 & Hk1 & Hc1). simpl.
  destruct (add_words_spec lang words dym1 Hinv1 Hbf1)
    as (dym' & -> & Hinv' & Hbf' & Hk' & Hc' & Hw').
  exists dym'. split_and!; eauto.
  - by eapply dict_kept_trans.
  - congruence.
Qed.

Lemma step_spec dym op :
  checker_inv dym → ∃ dym', step dym op = Some dym' ∧ checker_inv dym'.
Proof.
  intros Hinv. destruct op as [words|words lang|lang|lang]; simpl.
  - destruct (AddWordsForLanguage_spec dym words (currentLang dym) Hinv)
      as (dym' & ? & ? & _). eauto.
  - destruct (AddWordsForLanguage_spec dym words lang Hinv)
      as (dym' & ? & ? & _). eauto.
  - eexists; split; [done|]. intros lang'. apply Hinv.
  - destruct (AddWordsForLanguage_spec dym (GetWordsForLanguage lang) lang Hinv)
      as (dym' & ? & ? & _). eauto.
Qed.

Lemma reachable_inv dym : reachable dym → checker_inv dym.
Proof.
  induction 1 as [sz k|dym op dym' _ IH Hstep].
  - apply checker_inv_new.
  - destruct (step_spec dym op IH) as (dym1 & Hstep1 & Hinv1).
    rewrite Hstep in Hstep1. by simplify_eq.
Qed.

(** No public operation panics on a reachable checker. *)
Lemma reachable_step_total dym op : reachable dym → is_Some (step dym op).
Proof.
  intros Hr. destruct (step_spec dym op (reachable_inv _ Hr)) as (? & -> & _). eauto.
Qed.

Lemma IsCorrectForLanguage_inv dym word lang :
  checker_inv dym →
  IsCorrectForLanguage dym word lang =
  Some (dictionary_has dym lang (Normalizer (GetLanguageInfo lang) word)).
Proof.
  intros Hinv. unfold IsCorrectForLanguage.
  pose proof (Hinv lang) as Hl. unfold dictionary_has at 2.
  destruct (bloomFilters dym !! lang) as [bf|],
           (dictionaries dym !! lang) as [dict|] eqn:Hd; try done.
  set (normalized := Normalizer (GetLanguageInfo lang) word).
  destruct (Contains_total bf normalized (pair_inv_usable _ _ Hl)) as [c Hc].
  rewrite Hc. simpl. f_equal. unfold dictionary_has. rewrite Hd. simpl.
  destruct Hl as (_ & _ & _ & Htrue & Hsub).
  destruct (dict !! normalized) as [b|] eqn:Hw; simpl; [|by rewrite andb_false_r].
  pose proof (Htrue _ _ Hw) as ->. apply Hsub in Hw. rewrite Hw in Hc. by simplify_eq.
Qed.

Lemma dictionary_has_lookup dym word lang :
  checker_inv dym →
  dictionary_has dym lang (Normalizer (GetLanguageInfo lang) word) =
  dictionary_lookup dym word lang.
Proof.
  intros Hinv. unfold dictionary_has, dictionary_lookup.
  destruct (dictionaries dym !! lang) as [dict|] eqn:Hd; simpl; [|done].
  destruct (checker_inv_lookup_dict _ _ _ Hinv Hd) as (bf & _ & _ & _ & _ & Htrue & _).
  set (normalized := Normalizer (GetLanguageInfo lang) word).
  destruct (dict !! normalized) as [b|] eqn:Hw; simpl.
  - rewrite (Htrue _ _ Hw). symmetry. apply bool_decide_eq_true.
    apply elem_of_dom. eauto.
  - symmetry. apply bool_decide_eq_false. by apply not_elem_of_dom.
Qed.

(** C3.  In every reachable checker, each word stored in a language's
    dictionary passes [Contains] on that language's filter. *)
Theorem filter_superset_of_dictionary dym lang dict w :
  reachable dym → dictionaries dym !! lang = Some dict → is_Some (dict !! w) →
  ∃ bf, bloomFilters dym !! lang = Some bf ∧ Contains bf w = Some true.
Proof.
  intros Hr Hd [b Hw]. apply reachable_inv in Hr.
  destruct (checker_inv_lookup_dict _ _ _ Hr Hd) as (bf & Hbf & _ & _ & _ & Htrue & Hsub).
  exists bf. split; [done|]. apply Hsub. by rewrite <- (Htrue _ _ Hw).
Qed.

(** C10.  In every reachable checker [IsCorrectForLanguage] never
    panics and agrees with the plain dictionary lookup of the normalized
    word: the filter probe changes nothing. *)
Theorem IsCorrect_is_dictionary_lookup dym word lang :
  reachable dym →
  IsCorrectForLanguage dym word lang = Some (dictionary_lookup dym word lang).
Proof.
  intros Hr%reachable_inv.
  by rewrite IsCorrectForLanguage_inv, dictionary_has_lookup.
Qed.

(** C6, as amended.  After [AddWordsForLanguage(words, lang)] on a
    reachable checker, [IsCorrectForLanguage(w, lang)] is true for every
    [w] of the list whose normalized form is a valid word of the language;
    the call itself never panics. *)
Theorem added_valid_words_are_correct dym words lang :
  reachable dym →
  ∃ dym', AddWordsForLanguage dym words lang = Some dym' ∧
    ∀ w, w ∈ words →
      IsValidWordForLanguage (Normalizer (GetLanguageInfo lang) w) lang = true →
      IsCorrectForLanguage dym' w lang = Some true.
Proof.
  intros Hr%reachable_inv.
  destruct (AddWordsForLanguage_spec dym words lang Hr)
    as (dym' & Hrun & Hinv' & _ & _ & _ & Hw).
  exists dym'. split; [done|]. intros w Hin Hvalid.
  rewrite IsCorrectForLanguage_inv by done. f_equal. by apply Hw.
Qed.

(** C2, what the code does.  Whatever [dictionarySize] and
    [numHashFuncs] were given to [NewDidYouMean], the filter created for a
    language has 10000 bits and 7 hash probes. *)
Theorem filter_sizing_is_fixed sz k words lang dym :
  AddWordsForLanguage (NewDidYouMean sz k) words lang = Some dym →
  ∃ bf, bloomFilters dym !! lang = Some bf ∧
        size bf = 10000%N ∧ numHashFuncs bf = 7.
Proof.
  intros Hrun.
  destruct (AddWordsForLanguage_spec (NewDidYouMean sz k) words lang
              (checker_inv_new sz k)) as (dym' & Hrun' & Hinv & [bf Hbf] & _).
  assert (dym' = dym) as -> by congruence.
  destruct (checker_inv_lookup _ _ _ Hinv Hbf) as (dict & _ & Hs & Hk & _).
  eauto.
Qed.
End Checker.

Lemma forM_total {St A : Type} (l : list A) (body : St → A → option St) s :
  (∀ s x, x ∈ l → is_Some (body s x)) → is_Some (forM l body s).
Proof.
  intros H. destruct (forM_invariant (λ _, True) l body s) as (s' & -> & _); eauto.
  intros s0 x Hx _. destruct (H s0 x Hx) as [s' ->]. eauto.
Qed.

Lemma slice_to_total s i : (i ≤ len s)%nat → is_Some (slice_to s i).
Proof. intros. unfold slice_to. rewrite decide_True by done. eauto. Qed.

Lemma slice_from_total s i : (i ≤ len s)%nat → is_Some (slice_from s i).
Proof. intros. unfold slice_from. rewrite decide_True by done. eauto. Qed.

Lemma index_total s i : (i < len s)%nat → is_Some (index s i).
Proof. intros. by apply lookup_lt_is_Some_2. Qed.

Section Generator.
Context `{L : GoLibrary}.

Lemma deleted_total word i : (i < len word)%nat → is_Some (deleted word i).
Proof.
  intros. unfold deleted.
  destruct (slice_to_total word i) as [? ->]; [lia|].
  destruct (slice_from_total word (i + 1)) as [? ->]; [lia|]. simpl. eauto.
Qed.

Lemma inserted_total word i char : (i ≤ len word)%nat → is_Some (inserted word i char).
Proof.
  intros. unfold inserted.
  destruct (slice_to_total word i) as [? ->]; [lia|].
  destruct (slice_from_total word i) as [? ->]; [lia|]. simpl. eauto.
Qed.

Lemma substituted_total word i char :
  (i < len word)%nat → is_Some (substituted word i char).
Proof.
  intros. unfold substituted.
  destruct (slice_to_total word i) as [? ->]; [lia|].
  destruct (slice_from_total word (i + 1)) as [? ->]; [lia|]. simpl. eauto.
Qed.

Lemma transposed_total word i : (i + 1 < len word)%nat → is_Some (transposed word i).
Proof.
  intros. unfold transposed.
  destruct (slice_to_total word i) as [? ->]; [lia|].
  destruct (index_total word (i + 1)) as [? ->]; [lia|].
  destruct (index_total word i) as [? ->]; [lia|].
  destruct (slice_from_total word (i + 2)) as [? ->]; [lia|]. simpl. eauto.
Qed.

Lemma seq_bound start n i : i ∈ seq start n → (start ≤ i < start + n)%nat.
Proof. by intros ?%elem_of_seq. Qed.

(** Candidate generation never panics: every slice bound and index it
    uses is within the word. *)
Lemma generateCandidatesAtDistance_total cg distance word cands :
  is_Some (generateCandidatesAtDistance cg word distance cands).
Proof.
  revert word cands. induction distance as [|d IH]; intros word cands; simpl.
  { eauto. }
  assert (∀ cs edit, is_Some edit →
    is_Some (edit ≫= λ w : string,
               if decide (S d = 1%nat) then Some ({[w]} ∪ cs)
               else generateCandidatesAtDistance cg w d cs)) as Hvisit.
  { intros cs edit [w ->]. simpl. destruct (decide (S d = 1%nat)); eauto. }
  destruct (forM_total (seq 0 (len word))
    (λ cs i, deleted word i ≫= λ w : string,
               if decide (S d = 1%nat) then Some ({[w]} ∪ cs)
               else generateCandidatesAtDistance cg w d cs) cands) as [c1 ->].
  { intros cs i Hi%seq_bound. apply Hvisit, deleted_total. lia. }
  simpl.
  destruct (forM_total (seq 0 (len word + 1))
    (λ cs i, forM (runes (alphabet cg))
               (λ cs char, inserted word i char ≫= λ w : string,
                  if decide (S d = 1%nat) then Some ({[w]} ∪ cs)
                  else generateCandidatesAtDistance cg w d cs) cs) c1) as [c2 ->].
  { intros cs i Hi%seq_bound. apply forM_total. intros cs' char _.
    apply Hvisit, inserted_total. lia. }
  simpl.
  destruct (forM_total (seq 0 (len word))
    (λ cs i, forM (runes (alphabet cg))
               (λ cs char, index word i ≫= λ wi,
                  if decide (char ≠ byte_val wi)
                  then substituted word i char ≫= λ w : string,
                         if decide (S d = 1%nat) then Some ({[w]} ∪ cs)
                         else generateCandidatesAtDistance cg w d cs
                  else Some cs) cs) c2) as [c3 ->].
  { intros cs i Hi%seq_bound. apply forM_total. intros cs' char _.
    destruct (index_total word i) as [wi ->]; [lia|]. simpl.
    destruct (decide (char ≠ byte_val wi)); [|eauto].
    apply Hvisit, substituted_total. lia. }
  simpl.
  apply forM_total. intros cs i Hi%seq_bound.
  apply Hvisit, transposed_total. lia.
Qed.

Lemma GenerateCandidates_total cg word maxDistance :
  is_Some (GenerateCandidates cg word maxDistance).
Proof.
  unfold GenerateCandidates.
  destruct (forM_total (seq 1 (Z.to_nat maxDistance))
    (λ cs distance,
       generateCandidatesAtDistance cg (strings_ToLower word) distance cs) ∅)
    as [cs ->]; [|simpl; eauto].
  intros. apply generateCandidatesAtDistance_total.
Qed.
End Generator.

Lemma range_from_offsets off skip b i r :
  (i, r) ∈ range_from off skip b → (off ≤ i < off + length b)%nat.
Proof.
  revert off skip. induction b as [|b0 rest IH]; intros off skip; simpl.
  { by intros ?%elem_of_nil. }
  destruct skip as [|k].
  - destruct (utf8.DecodeRune b0 rest) as [r0 w].
    intros [[= -> ->]|Hin%IH]%elem_of_cons; lia.
  - intros Hin%IH. lia.
Qed.

Lemma range_string_offsets s i r : (i, r) ∈ range_string s → (i < len s)%nat.
Proof. intros H%range_from_offsets. unfold len. lia. Qed.

Section Suggestions.
Context `{L : GoLibrary}.

Lemma GenerateCommonTypos_total cg word : is_Some (GenerateCommonTypos cg word).
Proof.
  unfold GenerateCommonTypos.
  set (lw := strings_ToLower word).
  destruct (forM_total (range_string lw)
    (λ (cs : gset string) (ic : nat * Z),
       match keyboard ic.2 with
       | Some neighbors =>
         forM neighbors
           (λ (cs : gset string) neighbor,
              substituted lw ic.1 neighbor ≫= λ candidate : string,
                Some ({[candidate]} ∪ cs)) cs
       | None => Some cs
       end) ∅) as [cs ->]; [|simpl; eauto].
  intros cs [i r] Hin%range_string_offsets. simpl.
  destruct (keyboard r); [|eauto].
  apply forM_total. intros cs' nb _.
  destruct (substituted_total lw i nb) as [? ->]; [done|]. simpl. eauto.
Qed.

Lemma CalculateSimilarity_total a b : is_Some (CalculateSimilarity a b).
Proof. destruct (CalculateSimilarity_spec a b) as (q & -> & _). eauto. Qed.

Lemma more_similar_strict_weak_order : strict_weak_order more_similar.
Proof.
  unfold more_similar. split.
  - intros a b Hab. apply negb_true_iff in Hab. apply negb_false_iff.
    apply Qle_bool_iff. apply Qlt_le_weak, Qnot_le_lt.
    intros H%Qle_bool_iff. congruence.
  - intros a b c Hac. apply negb_true_iff in Hac.
    destruct (Qle_bool (Similarity a) (Similarity b)) eqn:Hab; [|by left].
    right. apply negb_true_iff.
    destruct (Qle_bool (Similarity b) (Similarity c)) eqn:Hbc; [|done].
    apply Qle_bool_iff in Hab, Hbc.
    assert (Qle_bool (Similarity a) (Similarity c) = true) as Habs.
    { apply Qle_bool_iff. by eapply Qle_trans. }
    congruence.
Qed.

Lemma Sorted_non_increasing (l : list Suggestion) :
  Sorted (λ a b, more_similar b a = false) l → non_increasing l.
Proof.
  intros Hs. apply Sorted_StronglySorted in Hs.
  2:{ intros a b c Hab Hbc. unfold more_similar in *.
      apply negb_false_iff, Qle_bool_iff in Hab, Hbc.
      apply negb_false_iff, Qle_bool_iff. by eapply Qle_trans. }
  induction Hs as [|a l Hs IH Hall]; intros i j x y Hij Hi Hj.
  { by rewrite lookup_nil in Hi. }
  destruct j as [|j]; [lia|]. simpl in Hj.
  destruct i as [|i]; simpl in Hi.
  - simplify_eq. rewrite Forall_forall in Hall.
    assert (more_similar y x = false) as Hxy.
    { apply Hall. by eapply list_elem_of_lookup_2. }
    unfold more_similar in Hxy. by apply negb_false_iff, Qle_bool_iff in Hxy.
  - eapply (IH i j); [lia|done..].
Qed.

Lemma non_increasing_take n l : non_increasing l → non_increasing (take n l).
Proof.
  intros H i j a b Hij Hi Hj.
  apply lookup_take_Some in Hi as [Hi _], Hj as [Hj _]. eauto.
Qed.

Lemma non_increasing_short l : (length l ≤ 1)%nat → non_increasing l.
Proof.
  intros Hl i j a b Hij Hi Hj. apply lookup_lt_Some in Hj. lia.
Qed.

(** C4, as amended.  On a reachable checker and for a non-negative
    [maxSuggestions], [GetSuggestionsForLanguage] never panics, its result
    has non-increasing scores, and its length is at most [maxSuggestions],
    or 1 when [maxSuggestions] is 0 (a correct word is returned alone). *)
Theorem suggestions_sorted_and_bounded dym word maxSuggestions maxEditDistance lang :
  sort_Slice_contract L → reachable dym → 0 ≤ maxSuggestions →
  ∃ l, GetSuggestionsForLanguage dym word maxSuggestions maxEditDistance lang = Some l ∧
       non_increasing l ∧
       Z.of_nat (length l) ≤ Z.max maxSuggestions 1.
Proof.
  intros Hsort Hr%reachable_inv Hmax. unfold GetSuggestionsForLanguage.
  pose proof (Hr lang) as Hl.
  destruct (bloomFilters dym !! lang) as [bf|] eqn:Hbf,
           (dictionaries dym !! lang) as [dict|] eqn:Hd; try done.
  2:{ exists []. split_and!; [done|apply non_increasing_short; simpl; lia|simpl; lia]. }
  set (normalized := Normalizer (GetLanguageInfo lang) word).
  destruct (IsValidWordForLanguage normalized lang); simpl.
  2:{ exists []. split_and!; [done|apply non_increasing_short; simpl; lia|simpl; lia]. }
  rewrite IsCorrectForLanguage_inv by done. simpl.
  destruct (dictionary_has dym lang _).
  { eexists. split_and!; [done|apply non_increasing_short; simpl; lia|simpl; lia]. }
  destruct (GenerateCandidates_total (candidates dym) normalized maxEditDistance)
    as [cands ->].
  destruct (GenerateCommonTypos_total (candidates dym) normalized) as [typos ->].
  simpl.
  destruct (forM_total (cands ++ typos)
    (λ valid candidate,
       Contains bf candidate ≫= λ inFilter : bool,
         if inFilter && dictionary_has dym lang candidate
         then Some (valid ++ [candidate]) else Some valid) []) as [valid ->].
  { intros v c _.
    destruct (Contains_total bf c (pair_inv_usable _ _ Hl)) as [x ->]. simpl.
    destruct (x && _); eauto. }
  simpl.
  destruct (forM_total valid
    (λ suggestions candidate,
       CalculateSimilarity normalized candidate ≫= λ similarity,
         Some (suggestions ++ [mkSuggestion candidate similarity])) [])
    as [suggestions ->].
  { intros v c _. destruct (CalculateSimilarity_total normalized c) as [q ->].
    simpl. eauto. }
  simpl.
  destruct (Hsort _ suggestions more_similar more_similar_strict_weak_order)
    as [_ Hsorted%Sorted_non_increasing].
  case_decide.
  - rewrite decide_False by lia. eexists. split; [done|].
    split; [by apply non_increasing_take|].
    rewrite length_take. lia.
  - eexists. split; [done|]. split; [done|]. lia.
Qed.

(** C5, as amended.  On a reachable checker the suggestion query of
    [SuggestForLanguage] never panics, and when it yields no suggestion
    the result is the input word exactly as it was passed. *)
Theorem Suggest_without_suggestions_returns_input dym word lang :
  reachable dym →
  (∃ l, GetSuggestionsForLanguage dym word 1 2 lang = Some l) ∧
  (GetSuggestionsForLanguage dym word 1 2 lang = Some [] →
   SuggestForLanguage dym word lang = Some word) ∧
  (GetSuggestions dym word 1 2 = Some [] → Suggest dym word = Some word).
Proof.
  intros Hr. split_and!.
  - apply reachable_inv in Hr. unfold GetSuggestionsForLanguage.
    pose proof (Hr lang) as Hl.
    destruct (bloomFilters dym !! lang) as [bf|] eqn:Hbf,
             (dictionaries dym !! lang) as [dict|] eqn:Hd; try done; [|eauto].
    set (normalized := Normalizer (GetLanguageInfo lang) word).
    destruct (IsValidWordForLanguage normalized lang); simpl; [|eauto].
    rewrite IsCorrectForLanguage_inv by done. simpl.
    destruct (dictionary_has dym lang _); [eauto|].
    destruct (GenerateCandidates_total (candidates dym) normalized 2) as [cands ->].
    destruct (GenerateCommonTypos_total (candidates dym) normalized) as [typos ->].
    simpl.
    destruct (forM_total (cands ++ typos)
      (λ valid candidate,
         Contains bf candidate ≫= λ inFilter : bool,
           if inFilter && dictionary_has dym lang candidate
           then Some (valid ++ [candidate]) else Some valid) []) as [valid ->].
    { intros v c _.
      destruct (Contains_total bf c (pair_inv_usable _ _ Hl)) as [x ->]. simpl.
      destruct (x && _); eauto. }
    simpl.
    destruct (forM_total valid
      (λ suggestions candidate,
         CalculateSimilarity normalized candidate ≫= λ similarity,
           Some (suggestions ++ [mkSuggestion candidate similarity])) [])
      as [suggestions ->].
    { intros v c _. destruct (CalculateSimilarity_total normalized c) as [q ->].
      simpl. eauto. }
    simpl. repeat case_decide; try lia; eauto.
  - intros H. unfold SuggestForLanguage. by rewrite H.
  - unfold Suggest, GetSuggestions, SuggestForLanguage. by intros ->.
Qed.
End Suggestions.

Lemma byte_val_range c : 0 ≤ byte_val c < 256.
Proof.
  unfold byte_val. pose proof (N_ascii_bounded c). lia.
Qed.

Lemma to_byte_byte_val c : to_byte (byte_val c) = c.
Proof.
  unfold to_byte. pose proof (byte_val_range c).
  rewrite Z.mod_small by done. unfold byte_val.
  rewrite N2Z.id. apply ascii_N_embedding.
Qed.

Lemma byte_val_to_byte r : 0 ≤ r < 256 → byte_val (to_byte r) = r.
Proof.
  intros. unfold byte_val, to_byte. rewrite Z.mod_small by done.
  rewrite N_ascii_embedding by lia. lia.
Qed.

Lemma lor_ge_l a b : 0 ≤ b → a ≤ Z.lor a b.
Proof.
  intros Hb. pose proof (Z.sub_lor_l_same_l b a) as H.
  assert (0 ≤ Z.land b (Z.lnot a)) by (apply Z.land_nonneg; by left).
  lia.
Qed.

Lemma lor_ge_r a b : 0 ≤ a → b ≤ Z.lor a b.
Proof. rewrite Z.lor_comm. apply lor_ge_l. Qed.

(** A property checked on every value of a range. *)
Lemma range_check (f : Z → bool) (lo n : Z) :
  forallb f (seqZ lo n) = true → ∀ z, lo ≤ z < lo + n → f z = true.
Proof.
  intros Hall z Hz. rewrite forallb_forall in Hall.
  apply Hall, list_elem_of_In, elem_of_seqZ. lia.
Qed.

Lemma land_mask (mask base z : Z) :
  forallb (λ z, Z.land z mask =? z - base) (seqZ base (mask + 1)) = true →
  base ≤ z ≤ base + mask → Z.land z mask = z - base.
Proof.
  intros Hall Hz. apply Z.eqb_eq.
  apply (range_check (λ z, Z.land z mask =? z - base) base (mask + 1)); [done|lia].
Qed.

Ltac lor_bounds :=
  repeat match goal with
  | |- context [Z.lor ?a ?b] =>
    lazymatch goal with
    | _ : 0 ≤ b → a ≤ Z.lor a b |- _ => fail
    | _ => pose proof (lor_ge_l a b); pose proof (lor_ge_r a b);
           pose proof (proj2 (Z.lor_nonneg a b))
    end
  end.

(** A rune below [0x80] is a byte of the string. *)
Lemma DecodeRune_ascii b0 rest :
  (utf8.DecodeRune b0 rest).1 < 0x80 → (utf8.DecodeRune b0 rest).1 = byte_val b0.
Proof.
  unfold utf8.DecodeRune. pose proof (byte_val_range b0) as Hb0.
  destruct (byte_val b0 <? 0x80) eqn:H0; [done|].
  apply Z.ltb_ge in H0. remember (byte_val b0) as z eqn:Hz. clear Hz.
  unfold utf8.lead.
  repeat match goal with
  | |- context [if ?b then _ else _] =>
    lazymatch b with
    | context [z] => destruct b eqn:?
    end
  end; simpl; try (unfold utf8.RuneError; lia).
  all: destruct rest as [|b1 [|b2 [|b3 rest]]]; simpl;
    try (unfold utf8.RuneError; lia).
  all: unfold utf8.continuation.
  all: repeat match goal with
  | |- context [if ?b then _ else _] => destruct b eqn:?
  end; simpl; try (unfold utf8.RuneError; lia).
  all: repeat match goal with
  | H : (_ && _) = true |- _ => apply andb_true_iff in H as [? ?]
  | H : (_ <=? _) = true |- _ => apply Z.leb_le in H
  | H : (_ =? _) = true |- _ => apply Z.eqb_eq in H
  | H : _ = false |- _ => clear H
  end.
  all: intros Hlt; exfalso; revert Hlt; apply Z.le_ngt.
  all: rewrite ?Z.shiftl_mul_pow2 by lia.
  all: rewrite ?(land_mask 0x3F 0x80 (byte_val b1)) by (first [lia | vm_compute; reflexivity]).
  all: first [ rewrite (land_mask 0x1F 0xC0 z) by (first [lia | vm_compute; reflexivity])
             | rewrite (land_mask 0x0F 0xE0 z) by (first [lia | vm_compute; reflexivity])
             | rewrite (land_mask 0x07 0xF0 z) by (first [lia | vm_compute; reflexivity]) ].
  all: change (2 ^ 6) with 64; change (2 ^ 12) with 4096; change (2 ^ 18) with 262144.
  all: assert (∀ x, 0 ≤ Z.land x 0x3F) as Hmask
         by (intros x; apply Z.land_nonneg; by right).
  all: try pose proof (Hmask (byte_val b1)).
  all: try pose proof (Hmask (byte_val b2)).
  all: try pose proof (Hmask (byte_val b3)).
  all: lor_bounds; lia.
Qed.

Lemma range_from_ascii off skip b i r :
  (i, r) ∈ range_from off skip b → r < 0x80 →
  ∃ c, b !! (i - off)%nat = Some c ∧ byte_val c = r ∧ (off ≤ i)%nat.
Proof.
  revert off skip. induction b as [|b0 rest IH]; intros off skip; simpl.
  { by intros ?%elem_of_nil. }
  assert (∀ off' skip', off' = S off →
    (i, r) ∈ range_from off' skip' rest → r < 0x80 →
    ∃ c, (b0 :: rest) !! (i - off)%nat = Some c ∧ byte_val c = r ∧ (off ≤ i)%nat)
    as Hrest.
  { intros off' skip' -> Hin Hr.
    destruct (IH _ _ Hin Hr) as (c & Hc & Hv & Hle).
    exists c. split_and!; [|done|lia].
    replace (i - off)%nat with (S (i - S off)) by lia. done. }
  destruct skip as [|k]; [|by apply Hrest].
  destruct (utf8.DecodeRune b0 rest) as [r0 w] eqn:Hdec.
  intros [[= -> ->]|Hin]%elem_of_cons Hr; [|by eapply Hrest].
  exists b0. rewrite Nat.sub_diag. split_and!; [done| |done].
  pose proof (DecodeRune_ascii b0 rest) as H. rewrite Hdec in H. simpl in H.
  symmetry. by apply H.
Qed.

Lemma keyboard_layout_ok : forallb key_ok keyboard_layout = true.
Proof. by vm_compute. Qed.

Lemma keyboard_spec char neighbors :
  keyboard char = Some neighbors →
  0x61 ≤ char ≤ 0x7A ∧ ∀ n, n ∈ neighbors → 0x61 ≤ n ≤ 0x7A ∧ n ≠ char.
Proof.
  unfold keyboard.
  destruct (find _ keyboard_layout) as [kv|] eqn:Hfind; simpl; [|done].
  intros [= <-]. apply find_some in Hfind as [Hin Hkey].
  apply bool_decide_eq_true in Hkey.
  pose proof keyboard_layout_ok as Hok. rewrite forallb_forall in Hok.
  specialize (Hok kv Hin). unfold key_ok in Hok. rewrite Hkey in Hok.
  apply andb_true_iff in Hok as [Hk Hns]. unfold in_range in *.
  split; [lia|]. intros n Hn. rewrite forallb_forall in Hns.
  apply list_elem_of_In in Hn. specialize (Hns n Hn).
  apply andb_true_iff in Hns as [Hr Hne]. apply negb_true_iff, Z.eqb_neq in Hne.
  split; [lia|done].
Qed.

Lemma EncodeRune_ascii r : 0 ≤ r ≤ 0x7F → utf8.EncodeRune r = [to_byte r].
Proof.
  intros Hr. unfold utf8.EncodeRune, utf8.MaxRune.
  replace (r <? 0) with false by (symmetry; apply Z.ltb_ge; lia).
  replace (1114111 <? r) with false by (symmetry; apply Z.ltb_ge; lia).
  replace (55296 <=? r) with false by (symmetry; apply Z.leb_gt; lia).
  simpl. by replace (r <=? 127) with true by (symmetry; apply Z.leb_le; lia).
Qed.

Lemma substituted_ascii word i r c :
  0 ≤ r ≤ 0x7F → substituted word i r = Some c →
  (i < len word)%nat ∧ bytes c = <[i := to_byte r]> (bytes word).
Proof.
  intros Hr. unfold substituted, slice_to, slice_from.
  destruct (decide (i ≤ len word)%nat) as [Hi|Hi]; simpl; [|done].
  destruct (decide (i + 1 ≤ len word)%nat) as [Hi'|Hi']; simpl; [|done].
  intros [= <-]. split; [lia|].
  rewrite !bytes_app, !bytes_of_bytes. unfold string_of_rune.
  rewrite bytes_of_bytes, EncodeRune_ascii by done.
  unfold len in *. rewrite insert_take_drop by lia.
  simpl. do 3 f_equal. lia.
Qed.

(** Replacing one byte by a different one gives distance exactly 1. *)
Lemma lev_cell_substitution (s : list ascii) (i : nat) (x key : ascii) :
  s !! i = Some key → x ≠ key →
  lev_cell s (<[i := x]> s) (length s) (length s) = 1.
Proof.
  intros Hi Hx. set (t := <[i := x]> s).
  assert (∀ j, (j ≤ length s)%nat →
    lev_cell s t j j ≤ if decide (j ≤ i)%nat then 0 else 1) as Hdiag.
  { induction j as [|j IH]; intros Hj.
    - simpl. lia.
    - pose proof (lev_cell_diag_step s t j). specialize (IH ltac:(lia)).
      unfold cost in *. destruct (decide (j = i)) as [->|Hne].
      + repeat case_decide; lia.
      + assert (s !! j = t !! j) as Heq
          by (unfold t; by rewrite list_lookup_insert_ne).
        rewrite decide_True in * by done. repeat case_decide; lia. }
  pose proof (Hdiag (length s) ltac:(lia)) as Hle.
  pose proof (lookup_lt_Some _ _ _ Hi).
  rewrite decide_False in Hle by lia.
  pose proof (lev_cell_bounds s t (length s) (length s)).
  destruct (decide (lev_cell s t (length s) (length s) = 0)) as [Hzero|]; [|lia].
  apply lev_cell_zero in Hzero as [_ Hpre]. specialize (Hpre i ltac:(lia)).
  unfold t in Hpre. rewrite list_lookup_insert_eq in Hpre by lia. congruence.
Qed.

Section Typos.
Context `{L : GoLibrary}.

Lemma adjacent_substitution_distance lw c :
  adjacent_substitution lw c → LevenshteinDistance lw c = Some 1.
Proof.
  intros (i & key & ns & n & Hi & Hkb & Hn & Hne & Hc).
  rewrite LevenshteinDistance_cell. f_equal.
  unfold len. rewrite Hc, length_insert.
  apply (lev_cell_substitution _ _ _ key); [done|].
  intros Heq. apply Hne. rewrite <- Heq.
  apply keyboard_spec in Hkb as [_ Hns]. destruct (Hns n Hn).
  rewrite byte_val_to_byte; lia.
Qed.

(** C8.  [GenerateCommonTypos] never panics, and each candidate it
    returns is the lower-cased word with exactly one byte, a key of the
    table, replaced by one of its neighbours; its Levenshtein distance
    to the lower-cased word is 1. *)
Theorem typos_are_single_adjacent_substitutions cg w :
  ∃ cs, GenerateCommonTypos cg w = Some cs ∧
        ∀ c, c ∈ cs →
             adjacent_substitution (strings_ToLower w) c ∧
             LevenshteinDistance (strings_ToLower w) c = Some 1.
Proof.
  unfold GenerateCommonTypos. set (lw := strings_ToLower w).
  destruct (forM_invariant
    (λ cs : gset string, ∀ c, c ∈ cs → adjacent_substitution lw c)
    (range_string lw)
    (λ (cs : gset string) (ic : nat * Z),
       match keyboard ic.2 with
       | Some neighbors =>
         forM neighbors
           (λ (cs : gset string) neighbor,
              substituted lw ic.1 neighbor ≫= λ candidate : string,
                Some ({[candidate]} ∪ cs)) cs
       | None => Some cs
       end) ∅) as (cs & -> & Hcs).
  - intros cs0 [i r] Hin Hcs0. simpl.
    destruct (keyboard r) as [ns|] eqn:Hkb; [|eauto].
    pose proof (keyboard_spec _ _ Hkb) as [Hr Hns].
    destruct (range_from_ascii _ _ _ _ _ Hin) as (key & Hkey & Hval & _); [lia|].
    rewrite Nat.sub_0_r in Hkey. subst r.
    apply forM_invariant; [|done].
    intros cs1 n Hn Hcs1. destruct (Hns n Hn) as [Hnr Hne].
    destruct (substituted_total lw i n) as [c Hc].
    { by eapply range_string_offsets. }
    rewrite Hc. simpl. eexists; split; [done|].
    intros c' [->%elem_of_singleton|Hc']%elem_of_union; [|by apply Hcs1].
    apply substituted_ascii in Hc as [_ Hbytes]; [|lia].
    by exists i, key, ns, n.
  - intros c Hc. by apply elem_of_empty in Hc.
  - simpl. eexists; split; [done|]. intros c Hc%elem_of_elements.
    split; [by apply Hcs|]. by apply adjacent_substitution_distance, Hcs.
Qed.
End Typos.

(** ** Further properties of the Levenshtein metric *)

Lemma min_comm a b c : min a b c = min b a c.
Proof. rewrite !min_spec. lia. Qed.

Lemma cost_comm s1 s2 i j : cost s1 s2 i j = cost s2 s1 j i.
Proof. unfold cost. repeat case_decide; congruence. Qed.

Lemma lev_cell_comm s1 s2 i j : lev_cell s1 s2 i j = lev_cell s2 s1 j i.
Proof.
  revert j. induction i as [|i IHi]; intros j.
  - by rewrite lev_cell_0_l, lev_cell_0_r.
  - induction j as [|j IHj].
    + by rewrite lev_cell_0_l, lev_cell_0_r.
    + rewrite !lev_cell_S, min_comm, IHj, (IHi (S j)), (IHi j), cost_comm. done.
Qed.

(** One more byte on either side costs at most one more edit. *)
Lemma lev_cell_step_l s1 s2 i j : lev_cell s1 s2 (S i) j ≤ lev_cell s1 s2 i j + 1.
Proof.
  destruct j as [|j].
  - rewrite !lev_cell_0_r. lia.
  - rewrite lev_cell_S, min_spec. lia.
Qed.

Lemma lev_cell_step_r s1 s2 i j : lev_cell s1 s2 i (S j) ≤ lev_cell s1 s2 i j + 1.
Proof.
  rewrite (lev_cell_comm s1 s2 i (S j)), (lev_cell_comm s1 s2 i j).
  apply lev_cell_step_l.
Qed.

Lemma lev_cell_step_diag s1 s2 i j :
  lev_cell s1 s2 (S i) (S j) ≤ lev_cell s1 s2 i j + cost s1 s2 i j.
Proof. rewrite lev_cell_S, min_spec. lia. Qed.

Lemma lev_cell_lower s1 s2 i j :
  Z.abs (Z.of_nat i - Z.of_nat j) ≤ lev_cell s1 s2 i j.
Proof.
  revert j. induction i as [|i IHi]; intros j.
  - rewrite lev_cell_0_l. lia.
  - induction j as [|j IHj].
    + rewrite lev_cell_0_r. lia.
    + rewrite lev_cell_S, min_spec.
      pose proof (IHi (S j)). pose proof (IHi j). pose proof (cost_bounds s1 s2 i j).
      lia.
Qed.

Lemma lev_cell_same s i : lev_cell s s i i = 0.
Proof.
  induction i as [|i IH]; [done|].
  pose proof (lev_cell_diag_step s s i) as Hstep.
  pose proof (lev_cell_bounds s s (S i) (S i)).
  unfold cost in Hstep. rewrite decide_True in Hstep by done. lia.
Qed.

Lemma cost_triangle s1 s2 s3 i j k :
  (i < length s1)%nat → (j < length s2)%nat → (k < length s3)%nat →
  cost s1 s3 i k ≤ cost s1 s2 i j + cost s2 s3 j k.
Proof.
  intros Hi Hj Hk. unfold cost. repeat case_decide; try lia. congruence.
Qed.

(** The recurrence obeys the triangle inequality on all prefixes. *)
Lemma lev_cell_triangle s1 s2 s3 n :
  ∀ i j k, (i + j + k ≤ n)%nat →
    (i ≤ length s1)%nat → (j ≤ length s2)%nat → (k ≤ length s3)%nat →
    lev_cell s1 s3 i k ≤ lev_cell s1 s2 i j + lev_cell s2 s3 j k.
Proof.
  induction n as [|n IH]; intros i j k Hn Hi Hj Hk.
  { assert (i = 0 ∧ j = 0 ∧ k = 0)%nat as (-> & -> & ->) by lia. simpl. lia. }
  destruct i as [|i].
  { rewrite !lev_cell_0_l. pose proof (lev_cell_lower s2 s3 j k). lia. }
  destruct k as [|k].
  { rewrite !lev_cell_0_r. pose proof (lev_cell_lower s1 s2 (S i) j). lia. }
  destruct j as [|j].
  { rewrite lev_cell_0_r, lev_cell_0_l.
    pose proof (lev_cell_bounds s1 s3 (S i) (S k)). lia. }
  pose proof (IH i (S j) (S k) ltac:(lia) ltac:(lia) ltac:(lia) ltac:(lia)).
  pose proof (IH (S i) (S j) k ltac:(lia) ltac:(lia) ltac:(lia) ltac:(lia)).
  pose proof (IH (S i) j (S k) ltac:(lia) ltac:(lia) ltac:(lia) ltac:(lia)).
  pose proof (IH (S i) j k ltac:(lia) ltac:(lia) ltac:(lia) ltac:(lia)).
  pose proof (IH i j (S k) ltac:(lia) ltac:(lia) ltac:(lia) ltac:(lia)).
  pose proof (IH i j k ltac:(lia) ltac:(lia) ltac:(lia) ltac:(lia)).
  pose proof (lev_cell_step_l s1 s3 i (S k)).
  pose proof (lev_cell_step_r s1 s3 (S i) k).
  pose proof (lev_cell_step_diag s1 s3 i k).
  pose proof (cost_triangle s1 s2 s3 i j k ltac:(lia) ltac:(lia) ltac:(lia)).
  pose proof (cost_bounds s1 s2 i j). pose proof (cost_bounds s2 s3 j k).
  pose proof (lev_cell_S s1 s2 i j) as H12. rewrite min_spec in H12.
  pose proof (lev_cell_S s2 s3 j k) as H23. rewrite min_spec in H23.
  lia.
Qed.

(** X1.  [LevenshteinDistance] is zero exactly between equal strings. *)
Theorem LevenshteinDistance_zero_iff a b :
  LevenshteinDistance a b = Some 0 ↔ a = b.
Proof.
  rewrite LevenshteinDistance_cell. split.
  - intros [= H]. by apply lev_cell_zero_eq.
  - intros ->. f_equal. apply lev_cell_same.
Qed.

(** X2.  [LevenshteinDistance] is symmetric. *)
Theorem LevenshteinDistance_symmetric a b :
  LevenshteinDistance a b = LevenshteinDistance b a.
Proof. rewrite !LevenshteinDistance_cell. f_equal. apply lev_cell_comm. Qed.

(** X3.  [LevenshteinDistance] obeys the triangle inequality. *)
Theorem LevenshteinDistance_triangle a b c :
  ∃ dac dab dbc,
    LevenshteinDistance a c = Some dac ∧ LevenshteinDistance a b = Some dab ∧
    LevenshteinDistance b c = Some dbc ∧ dac ≤ dab + dbc.
Proof.
  rewrite !LevenshteinDistance_cell. do 3 eexists. split_and!; [done..|].
  eapply lev_cell_triangle; unfold len; done.
Qed.

(** X4.  The distance lies between the difference of the two lengths and
    the greater of them; in particular the distance to the empty string
    is the length of the other string. *)
Theorem LevenshteinDistance_bounds a b :
  ∃ d, LevenshteinDistance a b = Some d ∧
       Z.abs (Z.of_nat (len a) - Z.of_nat (len b)) ≤ d ≤
       Z.max (Z.of_nat (len a)) (Z.of_nat (len b)).
Proof.
  rewrite LevenshteinDistance_cell. eexists. split; [done|]. split.
  - apply lev_cell_lower.
  - apply lev_cell_bounds.
Qed.

(** X5.  [CalculateSimilarity] is symmetric. *)
Theorem CalculateSimilarity_symmetric a b :
  CalculateSimilarity a b = CalculateSimilarity b a.
Proof.
  unfold CalculateSimilarity. rewrite !max_spec, !LevenshteinDistance_cell.
  rewrite (lev_cell_comm (bytes a)), (Z.max_comm (Z.of_nat (len a))).
  repeat case_decide; congruence.
Qed.

(** ** Further properties of the bloom filter *)

Lemma set_bits_length idxs bits : length (set_bits idxs bits) = length bits.
Proof.
  unfold set_bits. revert bits. induction idxs as [|i idxs IH]; intros bits; simpl.
  - done.
  - by rewrite IH, length_insert.
Qed.

Lemma set_bits_lookup idxs bits j :
  set_bits idxs bits !! j =
  if decide (j ∈ idxs ∧ j < length bits)%nat then Some true else bits !! j.
Proof.
  unfold set_bits. revert bits.
  induction idxs as [|i idxs IH]; intros bits; cbn [foldl].
  - destruct (decide (j ∈ [] ∧ j < length bits)%nat) as [[Hin _]|]; [|done].
    by apply elem_of_nil in Hin.
  - rewrite IH, length_insert.
    destruct (decide (j ∈ idxs ∧ j < length bits)%nat) as [[Hin Hlt]|Hn].
    + rewrite decide_True; [done|]. split; [by right|done].
    + destruct (decide (j ∈ i :: idxs ∧ j < length bits)%nat) as [[Hin Hlt]|Hn'].
      * apply elem_of_cons in Hin as [->|Hin]; [|tauto].
        by apply list_lookup_insert_eq.
      * destruct (decide (i = j)) as [->|Hne].
        -- rewrite list_insert_ge; [done|].
           apply Nat.nlt_ge. intros Hlt. apply Hn'. split; [by left|done].
        -- by rewrite list_lookup_insert_ne.
Qed.

Lemma set_bits_comm a b bits :
  set_bits a (set_bits b bits) = set_bits b (set_bits a bits).
Proof.
  apply list_eq. intros j. rewrite !set_bits_lookup, !set_bits_length.
  repeat case_decide; done.
Qed.

Lemma set_bits_idemp a bits : set_bits a (set_bits a bits) = set_bits a bits.
Proof.
  apply list_eq. intros j. rewrite !set_bits_lookup, !set_bits_length.
  repeat case_decide; done.
Qed.

Lemma probe_usable_index bf item i :
  usable bf →
  probe bf item i = Some (probe_index (size bf) item i) ∧
  (probe_index (size bf) item i < length (bitArray bf))%nat.
Proof.
  intros [Hs Hl]. unfold probe, probe_index. rewrite decide_False by done.
  split; [done|]. rewrite Hl.
  pose proof (Z.mod_pos_bound
    (fnv.Sum64 (fnv.Write (fnv.Write fnv.New64a (bytes item)) [to_byte i]))
    (Z.of_N (size bf))). lia.
Qed.

Lemma set_probe_usable item bf i :
  usable bf →
  set_probe item bf i =
  Some {| bitArray := <[probe_index (size bf) item i := true]> (bitArray bf);
          size := size bf; numHashFuncs := numHashFuncs bf |}.
Proof.
  intros Hu. destruct (probe_usable_index bf item i Hu) as [Hp Hlt].
  unfold set_probe. rewrite Hp. cbn [mbind option_bind].
  by rewrite decide_True.
Qed.

(** On a usable filter [Add] sets the probes of the item and nothing else. *)
Lemma set_probes_usable item salts bf :
  usable bf →
  forM salts (set_probe item) bf =
  Some {| bitArray := set_bits (probe_index (size bf) item <$> salts) (bitArray bf);
          size := size bf; numHashFuncs := numHashFuncs bf |}.
Proof.
  revert bf. induction salts as [|i salts IH]; intros bf Hu; cbn [forM fmap list_fmap].
  - by destruct bf.
  - rewrite (set_probe_usable item bf i Hu). cbn [mbind option_bind].
    rewrite IH; [done|].
    destruct Hu as [? ?]. split; simpl; [done|]. by rewrite length_insert.
Qed.

Lemma Add_usable bf item :
  usable bf →
  Add bf item =
  Some {| bitArray := set_bits (probes_of bf item) (bitArray bf);
          size := size bf; numHashFuncs := numHashFuncs bf |}.
Proof. intros Hu. rewrite Add_unfold. by apply set_probes_usable. Qed.

Lemma usable_set_bits bf idxs :
  usable bf →
  usable {| bitArray := set_bits idxs (bitArray bf);
            size := size bf; numHashFuncs := numHashFuncs bf |}.
Proof. intros [? ?]. split; simpl; [done|]. by rewrite set_bits_length. Qed.

Lemma Add_Add_comm bf v w :
  usable bf → Add bf v ≫= (λ bf', Add bf' w) = Add bf w ≫= (λ bf', Add bf' v).
Proof.
  intros Hu. rewrite (Add_usable bf v Hu), (Add_usable bf w Hu). simpl.
  rewrite !Add_usable by by apply usable_set_bits.
  unfold probes_of. simpl. by rewrite set_bits_comm.
Qed.

Lemma Add_Add_idemp bf w :
  usable bf → Add bf w ≫= (λ bf', Add bf' w) = Add bf w.
Proof.
  intros Hu. rewrite (Add_usable bf w Hu). simpl.
  rewrite !Add_usable by by apply usable_set_bits.
  unfold probes_of. simpl. by rewrite set_bits_idemp.
Qed.

Lemma AddWords_Permutation bf ws ws' :
  usable bf → Permutation ws ws' →
  BloomFilter_AddWords bf ws = BloomFilter_AddWords bf ws'.
Proof.
  unfold BloomFilter_AddWords. intros Hu Hperm. revert bf Hu.
  induction Hperm as [|w ws ws' _ IH|v w ws|ws1 ws2 ws3 _ IH1 _ IH2]; intros bf Hu.
  - done.
  - simpl. destruct (Add_total bf w Hu) as (bf' & -> & Hu'). simpl. by apply IH.
  - simpl.
    pose proof (Add_Add_comm bf w v Hu) as Hcomm.
    destruct (Add bf w) as [b1|], (Add bf v) as [b2|]; simpl in *; try done.
    + by rewrite Hcomm.
    + by rewrite Hcomm.
    + by rewrite <- Hcomm.
  - by rewrite IH1, IH2.
Qed.

(** X6.  A filter fresh from [NewBloomFilter] with at least one bit and
    one hash function reports no word at all. *)
Theorem fresh_filter_contains_nothing sz k bf w :
  NewBloomFilter sz k = Some bf → sz ≠ 0%N → 0 < k →
  Contains bf w = Some false.
Proof.
  intros Hnew Hsz Hk.
  pose proof (NewBloomFilter_usable _ _ _ Hnew Hsz) as Hu.
  destruct (probe_usable_index bf w 0 Hu) as [Hp Hlt].
  assert (bitArray bf = replicate (N.to_nat sz) false ∧ numHashFuncs bf = k)
    as [Hbits Hnum].
  { unfold NewBloomFilter in Hnew. case_decide; [done|]. by simplify_eq. }
  unfold Contains. rewrite Hnum, seqZ_cons by lia. cbn [Contains_loop].
  rewrite Hp. cbn [mbind option_bind].
  rewrite Hbits in Hlt |- *. rewrite length_replicate in Hlt.
  by rewrite lookup_replicate_2.
Qed.

(** X7.  With zero hash functions nothing is ever probed: [Add] leaves
    the filter as it is and [Contains] reports every word, whatever the
    size. *)
Theorem zero_hash_functions_contain_everything sz words w :
  ∃ bf, NewBloomFilter sz 0 = Some bf ∧
        BloomFilter_AddWords bf words = Some bf ∧
        Contains bf w = Some true.
Proof.
  unfold NewBloomFilter. rewrite decide_False by lia. eexists. split; [done|].
  split; [|done].
  unfold BloomFilter_AddWords. induction words as [|v words IH]; [done|].
  simpl. unfold Add at 1. simpl. exact IH.
Qed.


(** X9.  Bits are only ever set: a word reported by [Contains] is still
    reported after any further [Add], and [Add] changes neither the size
    nor the number of hash functions nor the length of the bit array. *)
Theorem Add_keeps_positive_answers bf v bf' w :
  Add bf v = Some bf' →
  size bf' = size bf ∧ numHashFuncs bf' = numHashFuncs bf ∧
  length (bitArray bf') = length (bitArray bf) ∧
  (Contains bf w = Some true → Contains bf' w = Some true).
Proof.
  intros [[(? & ? & ?) Hbits] _]%Add_spec. split_and!; [done..|].
  apply Contains_bits_kept. by repeat split.
Qed.

(** X10.  On a filter made with a positive size the final state depends
    only on which words were added: adding the same words in another
    order gives the same filter, and adding a word again changes nothing. *)
Theorem AddWords_order_irrelevant sz k bf0 ws ws' w :
  NewBloomFilter sz k = Some bf0 → sz ≠ 0%N →
  (Permutation ws ws' →
   BloomFilter_AddWords bf0 ws = BloomFilter_AddWords bf0 ws') ∧
  (∀ bf, BloomFilter_AddWords bf0 ws = Some bf →
         Add bf w ≫= (λ bf', Add bf' w) = Add bf w).
Proof.
  intros Hnew Hsz. pose proof (NewBloomFilter_usable _ _ _ Hnew Hsz) as Hu. split.
  - by apply AddWords_Permutation.
  - intros bf Hadd. apply Add_Add_idemp.
    destruct (AddWords_total ws bf0 Hu) as (bf1 & Hrun & Hu1). congruence.
Qed.

(** ** Further properties of the language registry *)

Section LanguageProperties.
Context `{L : GoLibrary}.

Lemma supported_iff lang :
  lang ∈ GetSupportedLanguages ↔
  lang = English ∨ lang = Persian ∨ lang = Arabic ∨ lang = French ∨
  lang = Spanish ∨ lang = German ∨ lang = Italian ∨ lang = Russian ∨
  lang = Chinese ∨ lang = Japanese ∨ lang = Korean.
Proof.
  unfold GetSupportedLanguages. rewrite !elem_of_cons, elem_of_nil. tauto.
Qed.

(** X11.  [GetLanguageInfo] answers every supported code with the
    profile of that code and every other code with the English profile;
    a profile is right-to-left exactly for Persian and Arabic, and its
    [Direction] agrees with [IsRTL]. *)
Theorem GetLanguageInfo_profiles lang :
  Code (GetLanguageInfo lang) =
    (if bool_decide (lang ∈ GetSupportedLanguages) then lang else English) ∧
  (lang ∉ GetSupportedLanguages → GetLanguageInfo lang = GetLanguageInfo English) ∧
  (IsRTL (GetLanguageInfo lang) = bool_decide (lang ∈ [Persian; Arabic])) ∧
  (Direction (GetLanguageInfo lang) =
     if IsRTL (GetLanguageInfo lang) then "rtl" else "ltr").
Proof.
  assert (∀ l : Language, l ∈ [Persian; Arabic] ↔ l = Persian ∨ l = Arabic) as Hrtl.
  { intros l. rewrite !elem_of_cons, elem_of_nil. tauto. }
  destruct (decide (lang ∈ GetSupportedLanguages)) as [Hin|Hout].
  - rewrite (bool_decide_eq_true_2 _ Hin).
    apply supported_iff in Hin.
    repeat (destruct Hin as [->|Hin]); [..|subst lang].
    all: (split_and!;
          [reflexivity
          |intros Hn; exfalso; apply Hn, supported_iff; auto 20
          | |reflexivity]).
    all: try (symmetry; apply bool_decide_eq_true_2, Hrtl; auto; fail).
    all: symmetry; apply bool_decide_eq_false_2; rewrite Hrtl;
      intros [?|?]; discriminate.
  - rewrite (bool_decide_eq_false_2 _ Hout).
    rewrite supported_iff in Hout.
    assert (GetLanguageInfo lang = GetLanguageInfo English) as ->.
    { unfold GetLanguageInfo at 1.
      repeat (rewrite decide_False by tauto). reflexivity. }
    split_and!; try reflexivity.
    symmetry; apply bool_decide_eq_false_2; rewrite Hrtl. tauto.
Qed.

Lemma forallb_pointwise {A} (f g : A → bool) l :
  (∀ x, f x = g x) → forallb f l = forallb g l.
Proof. intros E. induction l as [|x l IH]; [done|]. cbn. by rewrite E, IH. Qed.

(** Validity as the alphabet decides it. *)
Lemma IsValidWordForLanguage_alphabet word lang :
  lang ≠ Chinese →
  IsValidWordForLanguage word lang =
  negb (bool_decide (len word = 0%nat)) &&
  forallb (λ r, strings_ContainsRune (Alphabet (GetLanguageInfo lang)) r
                || unicode_IsSpace r) (runes word).
Proof.
  intros Hzh. unfold IsValidWordForLanguage.
  destruct (decide (len word = 0%nat)) as [H0|H0].
  { by rewrite bool_decide_eq_true_2. }
  rewrite bool_decide_eq_false_2 by done. cbn [negb andb].
  assert (∀ a b, negb (negb a && negb b) = a || b) as Hdm by (by intros [] []).
  assert (Alphabet (GetLanguageInfo lang) ≠ "") as Hne.
  { unfold GetLanguageInfo. repeat case_decide; try done. }
  rewrite decide_False by done.
  apply forallb_pointwise. intros r. apply Hdm.
Qed.

(** X12.  Only for Chinese are the Unicode classes consulted.  For every
    other code, Japanese and Korean included, a word is valid exactly when
    it is not empty and each of its runes occurs in the profile's
    [Alphabet] or is white space; a Chinese word is valid when it is not
    empty and each rune is Han or a letter. *)
Theorem IsValidWordForLanguage_cases word lang :
  IsValidWordForLanguage word lang =
  negb (bool_decide (len word = 0%nat)) &&
  if decide (lang = Chinese)
  then forallb (λ r, unicode_Is Han r || unicode_IsLetter r) (runes word)
  else forallb (λ r, strings_ContainsRune (Alphabet (GetLanguageInfo lang)) r
                     || unicode_IsSpace r) (runes word).
Proof.
  destruct (decide (lang = Chinese)) as [->|Hzh].
  2:{ by apply IsValidWordForLanguage_alphabet. }
  unfold IsValidWordForLanguage.
  destruct (decide (len word = 0%nat)) as [H0|H0].
  { by rewrite bool_decide_eq_true_2. }
  rewrite bool_decide_eq_false_2 by done. cbn [negb andb].
  assert (∀ a b, negb (negb a && negb b) = a || b) as Hdm by (by intros [] []).
  change (Alphabet (GetLanguageInfo Chinese)) with "".
  rewrite !decide_True by done. apply forallb_pointwise. intros r. apply Hdm.
Qed.

(** The runes of a word of ASCII bytes are its bytes. *)
Lemma range_from_all_ascii off b :
  Forall (λ c, byte_val c < 0x80) b →
  (range_from off 0 b).*2 = byte_val <$> b.
Proof.
  intros Hall. revert off. induction Hall as [|c b Hc _ IH]; intros off; [done|].
  cbn [range_from]. unfold utf8.DecodeRune.
  replace (byte_val c <? 0x80) with true by (symmetry; by apply Z.ltb_lt).
  cbn. by rewrite IH.
Qed.

Lemma existsb_false_below {A} (f : A → bool) (g : A → Z) (bound : Z) l :
  (∀ x, f x = true → bound ≤ g x) → Forall (λ x, g x < bound) l →
  existsb f l = false.
Proof.
  intros Hf Hall. apply not_true_is_false. intros (x & Hin & Hx)%existsb_exists.
  rewrite Forall_forall in Hall. apply list_elem_of_In, Hall in Hin.
  apply Hf in Hx. lia.
Qed.

(** X13.  A word made of ASCII bytes only is detected as English,
    whatever its letters: the detector looks for non-Latin scripts and
    falls back to English. *)
Theorem DetectLanguage_ascii_is_English word :
  Forall (λ c, byte_val c < 0x80) (bytes word) →
  DetectLanguage word = English.
Proof.
  intros Hall. unfold DetectLanguage.
  destruct (decide (len word = 0%nat)); [done|].
  assert (Forall (λ r : rune, id r < 0x80) (runes word)) as Hr.
  { unfold runes, range_string. rewrite range_from_all_ascii by done.
    by apply Forall_fmap. }
  assert (∀ f : rune → bool, (∀ r, f r = true → 0x80 ≤ id r) →
            existsb f (runes word) = false) as Hno.
  { intros f Hf. by apply (existsb_false_below f id 0x80). }
  rewrite !Hno; [done|..]; intros r; unfold in_range, id; lia.
Qed.

(** The detector answers with one of six codes. *)
Lemma DetectLanguage_codes word :
  DetectLanguage word ∈ [English; Persian; Russian; Chinese; Japanese; Korean].
Proof.
  unfold DetectLanguage. rewrite !elem_of_cons.
  repeat (case_match; [auto 10; fail|]). auto.
Qed.

Lemma Korean_alphabet_is_jamo :
  forallb (λ a, negb (in_range 0xAC00 0xD7AF a))
    (runes (Alphabet (GetLanguageInfo Korean))) = true.
Proof. vm_compute. reflexivity. Qed.

Lemma Korean_alphabet_has_no_syllable r :
  in_range 0xAC00 0xD7AF r = true →
  strings_ContainsRune (Alphabet (GetLanguageInfo Korean)) r = false.
Proof.
  intros Hr. apply bool_decide_eq_false_2. intros Hall.
  pose proof Korean_alphabet_is_jamo as Hjamo.
  rewrite forallb_forall in Hjamo.
  apply list_elem_of_In, Hjamo in Hall. by rewrite Hr in Hall.
Qed.

Lemma DetectLanguage_Korean_syllable word :
  DetectLanguage word = Korean →
  ∃ r, In r (runes word) ∧ in_range 0xAC00 0xD7AF r = true.
Proof.
  intros Hdet. unfold DetectLanguage in Hdet.
  repeat (case_match; [discriminate Hdet|]).
  destruct (existsb (in_range 0xAC00 0xD7AF) (runes word)) eqn:Hex;
    [|discriminate Hdet].
  apply existsb_exists in Hex as (r & Hin & Hr). eauto.
Qed.

(** X14.  Detection and validity disagree on Korean: a word is detected
    as Korean because it holds a Hangul syllable (U+AC00 - U+D7AF), and no
    such syllable is in the Korean profile's alphabet of jamo, so no word
    detected as Korean is a valid Korean word. *)
Theorem detected_Korean_is_not_valid_Korean word :
  (∀ r, in_range 0xAC00 0xD7AF r = true → unicode_IsSpace r = false) →
  DetectLanguage word = Korean →
  IsValidWordForLanguage word Korean = false.
Proof.
  intros Hsp (r & Hin & Hr)%DetectLanguage_Korean_syllable.
  assert (Korean ≠ Chinese) as Hne by discriminate.
  rewrite (IsValidWordForLanguage_alphabet word Korean Hne).
  apply andb_false_intro2, not_true_is_false. intros Hall.
  rewrite forallb_forall in Hall. specialize (Hall r Hin).
  by rewrite (Hsp r Hr), (Korean_alphabet_has_no_syllable r Hr) in Hall.
Qed.

(** Replacing a one-byte pattern works byte by byte. *)
Lemma replace_from_single o new b :
  replace_from [o] new 0 b = b ≫= (λ c, if decide (c = o) then new else [c]).
Proof.
  induction b as [|c rest IH]; [done|]. cbn [replace_from length Nat.sub].
  rewrite IH. destruct (decide (c = o)) as [->|Hne].
  - rewrite bool_decide_eq_true_2; [|by apply prefix_cons, prefix_nil].
    cbn. by rewrite decide_True.
  - rewrite bool_decide_eq_false_2; [|by intros [k [= ? _]]].
    cbn. by rewrite decide_False.
Qed.

Lemma ReplaceAll_single_absent s o new :
  o ∉ bytes s → strings_ReplaceAll s (String o "") new = s.
Proof.
  intros Ho. unfold strings_ReplaceAll. apply bytes_inj.
  rewrite bytes_of_bytes. change (bytes (String o "")) with [o].
  rewrite replace_from_single.
  induction (bytes s) as [|c rest IH]; [done|].
  apply not_elem_of_cons in Ho as [Hc Hrest]. cbn.
  rewrite decide_False by done. cbn. f_equal. by apply IH.
Qed.

Lemma ReplaceAll_single_elem s o new c :
  c ∈ bytes (strings_ReplaceAll s (String o "") new) →
  c ∈ bytes new ∨ (c ∈ bytes s ∧ c ≠ o).
Proof.
  unfold strings_ReplaceAll. rewrite bytes_of_bytes.
  change (bytes (String o "")) with [o]. rewrite replace_from_single.
  intros (x & Hc & Hx)%list_elem_of_bind.
  destruct (decide (x = o)) as [->|Hne]; [by left|].
  apply list_elem_of_singleton in Hc as ->. by right.
Qed.

(** After the digit [0x30 + k] has been replaced, the digits below
    [k + 1] are gone. *)
Lemma replace_digit_step s k o new :
  byte_val o = 0x30 + k →
  Forall (λ c, 0x80 ≤ byte_val c) (bytes new) →
  (∀ c, c ∈ bytes s → 0x30 ≤ byte_val c ≤ 0x39 → 0x30 + k ≤ byte_val c) →
  ∀ c, c ∈ bytes (strings_ReplaceAll s (String o "") new) →
       0x30 ≤ byte_val c ≤ 0x39 → 0x30 + (k + 1) ≤ byte_val c.
Proof.
  intros Ho Hnew Hs c [Hc|[Hc Hne]]%ReplaceAll_single_elem Hd.
  - rewrite Forall_forall in Hnew. apply Hnew in Hc. lia.
  - specialize (Hs c Hc Hd).
    assert (byte_val c ≠ byte_val o); [|lia].
    intros E. apply Hne. by rewrite <- (to_byte_byte_val c), E, to_byte_byte_val.
Qed.

(** X15.  Persian normalization leaves no ASCII digit in a word: after
    trimming, every digit [0] to [9] has been replaced by its Persian
    form; a trimmed word without ASCII digits is returned as it is. *)
Theorem normalizePersian_digits word :
  (∀ c, c ∈ bytes (normalizePersian word) → ¬ 0x30 ≤ byte_val c ≤ 0x39) ∧
  ((∀ c, c ∈ bytes (strings_TrimSpace word) → ¬ 0x30 ≤ byte_val c ≤ 0x39) →
   normalizePersian word = strings_TrimSpace word).
Proof.
  unfold normalizePersian. set (w := strings_TrimSpace word). clearbody w.
  split.
  - intros c Hc Hd.
    assert (0x30 + 10 ≤ byte_val c); [|lia].
    revert c Hc Hd.
    repeat (first
      [ apply (replace_digit_step _ 9) | apply (replace_digit_step _ 8)
      | apply (replace_digit_step _ 7) | apply (replace_digit_step _ 6)
      | apply (replace_digit_step _ 5) | apply (replace_digit_step _ 4)
      | apply (replace_digit_step _ 3) | apply (replace_digit_step _ 2)
      | apply (replace_digit_step _ 1) | apply (replace_digit_step _ 0) ];
      [reflexivity | by repeat constructor |]).
    intros c _ Hd. lia.
  - intros Hno.
    assert (∀ o, 0x30 ≤ byte_val o ≤ 0x39 → o ∉ bytes w) as Habs.
    { intros o Ho Hin. by apply (Hno o). }
    by repeat (rewrite (ReplaceAll_single_absent w)
      by (apply Habs; split; apply Z.leb_le; reflexivity)).
Qed.

End LanguageProperties.

(** ** Further properties of the checker *)

Section CheckerProperties.
Context `{L : GoLibrary}.

Lemma frame_refl lang dym : frame lang dym dym.
Proof. by split_and!. Qed.

Lemma frame_trans lang d1 d2 d3 :
  frame lang d1 d2 → frame lang d2 d3 → frame lang d1 d3.
Proof.
  intros (Hc & Hg & H12) (Hc' & Hg' & H23). split_and!; [congruence..|].
  intros lang' Hne. destruct (H12 lang' Hne), (H23 lang' Hne). split; congruence.
Qed.

Lemma ensure_language_frame dym lang dym' :
  ensure_language dym lang = Some dym' →
  frame lang dym dym' ∧ (dict_valid dym → dict_valid dym').
Proof.
  unfold ensure_language. destruct (bloomFilters dym !! lang) eqn:Hbf.
  { intros [= <-]. split; [apply frame_refl|done]. }
  destruct (NewBloomFilter 10000 7) as [bf|]; simpl; [|done].
  intros [= <-]. split.
  - split_and!; [done..|]. intros lang' Hne. simpl.
    by rewrite !lookup_insert_ne.
  - intros Hv lang' w. unfold dictionary_has. simpl.
    destruct (decide (lang = lang')) as [<-|Hne].
    + by rewrite lookup_insert_eq.
    + rewrite lookup_insert_ne by done. apply Hv.
Qed.

Lemma add_word_frame lang dym word dym' :
  add_word lang dym word = Some dym' →
  frame lang dym dym' ∧ (dict_valid dym → dict_valid dym').
Proof.
  unfold add_word. set (normalized := Normalizer (GetLanguageInfo lang) word).
  destruct (IsValidWordForLanguage normalized lang) eqn:Hvalid.
  2:{ intros [= <-]. split; [apply frame_refl|done]. }
  destruct (bloomFilters dym !! lang) as [bf|]; simpl; [|done].
  destruct (Add bf normalized) as [bf'|]; simpl; [|done].
  destruct (dictionaries dym !! lang) as [dict|] eqn:Hd; simpl; [|done].
  intros [= <-]. split.
  - split_and!; [done..|]. intros lang' Hne. simpl.
    by rewrite !lookup_insert_ne.
  - intros Hv lang' w. unfold dictionary_has. simpl.
    destruct (decide (lang = lang')) as [<-|Hne].
    + rewrite lookup_insert_eq. simpl.
      destruct (decide (normalized = w)) as [<-|Hw]; [done|].
      rewrite lookup_insert_ne by done. intros Hin. apply Hv.
      unfold dictionary_has. by rewrite Hd.
    + rewrite lookup_insert_ne by done. apply Hv.
Qed.

Lemma AddWordsForLanguage_frame dym words lang dym' :
  AddWordsForLanguage dym words lang = Some dym' →
  frame lang dym dym' ∧ (dict_valid dym → dict_valid dym').
Proof.
  rewrite AddWordsForLanguage_unfold.
  destruct (ensure_language dym lang) as [dym1|] eqn:H1; simpl; [|done].
  apply ensure_language_frame in H1 as [Hf1 Hv1]. intros Hrun.
  apply (forM_preserves
           (λ s, frame lang dym s ∧ (dict_valid dym → dict_valid s)))
    in Hrun; [done| |done].
  intros s w s' _ [Hf Hv] [Hf' Hv']%add_word_frame. split; [|by auto].
  by eapply frame_trans.
Qed.

Lemma step_valid dym op dym' :
  step dym op = Some dym' → dict_valid dym → dict_valid dym'.
Proof.
  destruct op as [words|words lang|lang|lang]; simpl.
  - unfold AddWords. by intros [_ ?]%AddWordsForLanguage_frame.
  - by intros [_ ?]%AddWordsForLanguage_frame.
  - by intros [= <-].
  - unfold LoadDefaultDictionary. by intros [_ ?]%AddWordsForLanguage_frame.
Qed.

Lemma reachable_valid dym : reachable dym → dict_valid dym.
Proof.
  induction 1 as [sz k|dym op dym' _ IH Hstep].
  - intros lang w. unfold dictionary_has. simpl. by rewrite lookup_empty.
  - by eapply step_valid.
Qed.

(** X16.  A checker only ever stores valid words: on a reachable
    checker every dictionary word is a valid word of its language, so a
    word is judged correct only if its normalized form is valid. *)
Theorem only_valid_words_are_correct dym word lang :
  reachable dym →
  IsCorrectForLanguage dym word lang = Some true →
  dictionary_has dym lang (Normalizer (GetLanguageInfo lang) word) = true ∧
  IsValidWordForLanguage (Normalizer (GetLanguageInfo lang) word) lang = true.
Proof.
  intros Hr Hc. rewrite IsCorrectForLanguage_inv in Hc by by apply reachable_inv.
  injection Hc as Hc. split; [done|]. by apply (reachable_valid dym Hr).
Qed.

(** The queries on a language read the pair of that language and the
    candidate generator only. *)
Lemma queries_frame dym dym' lang :
  bloomFilters dym' !! lang = bloomFilters dym !! lang →
  dictionaries dym' !! lang = dictionaries dym !! lang →
  candidates dym' = candidates dym →
  (∀ word, IsCorrectForLanguage dym' word lang = IsCorrectForLanguage dym word lang) ∧
  (∀ word m d, GetSuggestionsForLanguage dym' word m d lang =
               GetSuggestionsForLanguage dym word m d lang).
Proof.
  intros Hb Hd Hc.
  unfold GetSuggestionsForLanguage, IsCorrectForLanguage, dictionary_has.
  rewrite Hb, Hd, Hc. done.
Qed.

(** X17.  Languages are isolated from one another: adding words to one
    language changes neither the active language nor the filter, the
    dictionary or the answers of any other language. *)
Theorem AddWordsForLanguage_isolation dym words lang dym' lang' :
  AddWordsForLanguage dym words lang = Some dym' → lang' ≠ lang →
  currentLang dym' = currentLang dym ∧
  bloomFilters dym' !! lang' = bloomFilters dym !! lang' ∧
  dictionaries dym' !! lang' = dictionaries dym !! lang' ∧
  (∀ word, IsCorrectForLanguage dym' word lang' = IsCorrectForLanguage dym word lang') ∧
  (∀ word m d, GetSuggestionsForLanguage dym' word m d lang' =
               GetSuggestionsForLanguage dym word m d lang').
Proof.
  intros [(Hc & Hg & Hf) _]%AddWordsForLanguage_frame Hne.
  destruct (Hf lang' Hne) as [Hb Hd].
  split_and!; [done..| |]; by apply queries_frame.
Qed.

Lemma step_dict_kept dym op dym' :
  checker_inv dym → step dym op = Some dym' → dict_kept dym dym'.
Proof.
  intros Hinv Hstep.
  destruct op as [words|words lang|lang|lang]; simpl in Hstep.
  - destruct (AddWordsForLanguage_spec dym words (currentLang dym) Hinv)
      as (d & Hd & _ & _ & Hk & _).
    unfold AddWords in Hstep. rewrite Hd in Hstep. by injection Hstep as <-.
  - destruct (AddWordsForLanguage_spec dym words lang Hinv)
      as (d & Hd & _ & _ & Hk & _).
    rewrite Hd in Hstep. by injection Hstep as <-.
  - injection Hstep as <-. by intros ??.
  - destruct (AddWordsForLanguage_spec dym (GetWordsForLanguage lang) lang Hinv)
      as (d & Hd & _ & _ & Hk & _).
    unfold LoadDefaultDictionary in Hstep. rewrite Hd in Hstep.
    by injection Hstep as <-.
Qed.

Lemma run_reachable ops dym dym' :
  reachable dym → forM ops step dym = Some dym' →
  reachable dym' ∧ dict_kept dym dym'.
Proof.
  revert dym. induction ops as [|op ops IH]; intros dym Hr Hrun; simpl in Hrun.
  { injection Hrun as <-. split; [done|apply dict_kept_refl]. }
  destruct (step dym op) as [dym1|] eqn:Hstep; simpl in Hrun; [|done].
  destruct (IH dym1) as [Hr' Hk']; [by eapply reachable_step|done|].
  split; [done|]. eapply dict_kept_trans; [|done].
  eapply step_dict_kept; [by apply reachable_inv|done].
Qed.

(** X18.  Nothing is ever forgotten: a word judged correct on a
    reachable checker is still judged correct after any further sequence
    of operations, and no such sequence panics. *)
Theorem correct_words_stay_correct dym ops word lang :
  reachable dym →
  IsCorrectForLanguage dym word lang = Some true →
  ∃ dym', forM ops step dym = Some dym' ∧
          IsCorrectForLanguage dym' word lang = Some true.
Proof.
  intros Hr Hc.
  destruct (forM_invariant reachable ops step dym) as (dym' & Hrun & Hr'); [|done|].
  { intros s op _ Hs. destruct (reachable_step_total s op Hs) as [s' Hs'].
    exists s'. split; [done|]. by eapply reachable_step. }
  exists dym'. split; [done|].
  destruct (run_reachable ops dym dym' Hr Hrun) as [_ Hk].
  rewrite IsCorrectForLanguage_inv in Hc |- * by by apply reachable_inv.
  injection Hc as Hc. f_equal. by apply Hk.
Qed.

End CheckerProperties.

(** ** Further properties of the queries *)

Lemma non_increasing_cons a l :
  non_increasing (a :: l) ↔
  (∀ b, b ∈ l → (Similarity b <= Similarity a)%Q) ∧ non_increasing l.
Proof.
  split.
  - intros H. split.
    + intros b [j Hj]%list_elem_of_lookup_1. by apply (H 0%nat (S j) a b); [lia|..].
    + intros i j x y Hij Hi Hj. by apply (H (S i) (S j) x y); [lia|..].
  - intros [Hhd Htl] i j x y Hij Hi Hj.
    destruct j as [|j]; [lia|]. simpl in Hj. destruct i as [|i]; simpl in Hi.
    + simplify_eq. apply Hhd. by eapply list_elem_of_lookup_2.
    + apply (Htl i j x y); [lia|done..].
Qed.

Lemma non_increasing_filter (f : Suggestion → bool) l :
  non_increasing l → non_increasing (List.filter f l).
Proof.
  induction l as [|a l IH]; [done|]. intros [Hhd Htl]%non_increasing_cons.
  cbn. destruct (f a); [|by apply IH].
  apply non_increasing_cons. split; [|by apply IH].
  intros b [Hb _]%list_elem_of_In%filter_In. by apply Hhd, list_elem_of_In.
Qed.

Lemma int64_small z : - 2 ^ 63 ≤ z < 2 ^ 63 → int64 z = z.
Proof. intros Hz. unfold int64. rewrite Z.mod_small; lia. Qed.

Section QueryProperties.
Context `{L : GoLibrary}.

(** The suggestion query on a checker that keeps its invariant. *)
Lemma GetSuggestionsForLanguage_shape dym word m d lang :
  sort_Slice_contract L → checker_inv dym → 0 ≤ m →
  ∃ l, GetSuggestionsForLanguage dym word m d lang = Some l ∧
       non_increasing l ∧
       ((l = [mkSuggestion (Normalizer (GetLanguageInfo lang) word) 1] ∧
         IsValidWordForLanguage (Normalizer (GetLanguageInfo lang) word) lang = true ∧
         IsCorrectForLanguage dym (Normalizer (GetLanguageInfo lang) word) lang
           = Some true) ∨
        (Z.of_nat (length l) ≤ m ∧
         (IsValidWordForLanguage (Normalizer (GetLanguageInfo lang) word) lang = true →
          IsCorrectForLanguage dym (Normalizer (GetLanguageInfo lang) word) lang
            = Some false))).
Proof.
  intros Hsort Hr Hmax. unfold GetSuggestionsForLanguage.
  pose proof (Hr lang) as Hl.
  set (normalized := Normalizer (GetLanguageInfo lang) word).
  pose proof (IsCorrectForLanguage_inv dym normalized lang Hr) as Hcorrect.
  destruct (bloomFilters dym !! lang) as [bf|] eqn:Hbf,
           (dictionaries dym !! lang) as [dict|] eqn:Hd; try done.
  2:{ exists []. split_and!; [done|apply non_increasing_short; simpl; lia|].
      right. split; [simpl; lia|]. intros _. rewrite Hcorrect.
      unfold dictionary_has. by rewrite Hd. }
  destruct (IsValidWordForLanguage normalized lang); simpl.
  2:{ exists []. split_and!; [done|apply non_increasing_short; simpl; lia|].
      right. split; [simpl; lia|done]. }
  rewrite Hcorrect. simpl.
  destruct (dictionary_has dym lang _).
  { eexists. split_and!; [done|apply non_increasing_short; simpl; lia|]. by left. }
  destruct (GenerateCandidates_total (candidates dym) normalized d)
    as [cands ->].
  destruct (GenerateCommonTypos_total (candidates dym) normalized) as [typos ->].
  simpl.
  destruct (forM_total (cands ++ typos)
    (λ valid candidate,
       Contains bf candidate ≫= λ inFilter : bool,
         if inFilter && dictionary_has dym lang candidate
         then Some (valid ++ [candidate]) else Some valid) []) as [valid ->].
  { intros v c _.
    destruct (Contains_total bf c (pair_inv_usable _ _ Hl)) as [x ->]. simpl.
    destruct (x && _); eauto. }
  simpl.
  destruct (forM_total valid
    (λ suggestions candidate,
       CalculateSimilarity normalized candidate ≫= λ similarity,
         Some (suggestions ++ [mkSuggestion candidate similarity])) [])
    as [suggestions ->].
  { intros v c _. destruct (CalculateSimilarity_total normalized c) as [q ->].
    simpl. eauto. }
  simpl.
  destruct (Hsort _ suggestions more_similar more_similar_strict_weak_order)
    as [_ Hsorted%Sorted_non_increasing].
  case_decide.
  - rewrite decide_False by lia. eexists. split; [done|].
    split; [by apply non_increasing_take|]. right.
    rewrite length_take. split; [lia|done].
  - eexists. split; [done|]. split; [done|]. right. split; [lia|done].
Qed.

(** Where the suggestions come from. *)
Lemma GetSuggestionsForLanguage_sound dym word m d lang l s :
  sort_Slice_contract L →
  GetSuggestionsForLanguage dym word m d lang = Some l → s ∈ l →
  (∃ q, CalculateSimilarity (Normalizer (GetLanguageInfo lang) word) (Word s)
          = Some q ∧ (q == Similarity s)%Q) ∧
  (dictionary_has dym lang (Word s) = true ∨
   (l = [mkSuggestion (Normalizer (GetLanguageInfo lang) word) 1] ∧
    IsCorrectForLanguage dym (Normalizer (GetLanguageInfo lang) word) lang
      = Some true)).
Proof.
  intros Hsort. unfold GetSuggestionsForLanguage.
  set (normalized := Normalizer (GetLanguageInfo lang) word).
  destruct (bloomFilters dym !! lang) as [bf|] eqn:Hbf,
           (dictionaries dym !! lang) as [dict|] eqn:Hd;
    try (by intros [= <-] ?%elem_of_nil).
  destruct (IsValidWordForLanguage normalized lang); simpl;
    [|by intros [= <-] ?%elem_of_nil].
  destruct (IsCorrectForLanguage dym normalized lang) as [[]|] eqn:Hc;
    simpl; [| |done].
  { intros [= <-] ->%list_elem_of_singleton. simpl. split; [|by right].
    destruct (CalculateSimilarity_spec normalized normalized) as (q & Hq & _ & Hone).
    exists q. split; [done|]. by apply Hone. }
  destruct (GenerateCandidates _ _ _) as [cands|]; simpl; [|done].
  destruct (GenerateCommonTypos _ _) as [typos|]; simpl; [|done].
  destruct (forM (cands ++ typos) _ []) as [valid|] eqn:Hvalid; simpl; [|done].
  destruct (forM valid _ []) as [suggestions|] eqn:Hsugg; simpl; [|done].
  assert (∀ c, c ∈ valid → dictionary_has dym lang c = true) as Hv.
  { eapply (forM_preserves
              (λ v, ∀ c, c ∈ v → dictionary_has dym lang c = true));
      [| |exact Hvalid].
    - intros v c v' _ Hv. cbv beta.
      destruct (Contains bf c) as [x|]; simpl; [|done].
      destruct (x && dictionary_has dym lang c) eqn:Hx; intros [= <-]; [|done].
      intros c' [?| ->%list_elem_of_singleton]%elem_of_app; [by apply Hv|].
      by apply andb_prop in Hx as [_ ?].
    - by intros c ?%elem_of_nil. }
  assert (∀ s, s ∈ suggestions →
            Word s ∈ valid ∧
            CalculateSimilarity normalized (Word s) = Some (Similarity s)) as Hs.
  { eapply (forM_preserves
              (λ ss, ∀ s, s ∈ ss →
                 Word s ∈ valid ∧
                 CalculateSimilarity normalized (Word s) = Some (Similarity s)));
      [| |exact Hsugg].
    - intros ss c ss' Hin Hss. cbv beta.
      destruct (CalculateSimilarity normalized c) as [q|] eqn:Hq; simpl; [|done].
      intros [= <-] s' [?| ->%list_elem_of_singleton]%elem_of_app;
        [by apply Hss|done].
    - by intros s' ?%elem_of_nil. }
  destruct (Hsort _ suggestions more_similar more_similar_strict_weak_order)
    as [Hperm _].
  intros Hl Hin.
  assert (s ∈ suggestions) as Hs'.
  { rewrite <- Hperm. repeat case_decide; simplify_eq; [|done].
    by eapply subseteq_take. }
  destruct (Hs s Hs') as [Hw Hq]. split.
  - exists (Similarity s). split; [done|reflexivity].
  - left. by apply Hv.
Qed.

(** X19.  Suggestions are dictionary words with their true scores:
    every suggestion returned for a word is a word of the language's
    dictionary (or the normalized input itself, when that is judged
    correct), and its score is the similarity of the normalized input to
    it. *)
Theorem suggestions_come_from_dictionary dym word m d lang l s :
  sort_Slice_contract L →
  GetSuggestionsForLanguage dym word m d lang = Some l → s ∈ l →
  (∃ q, CalculateSimilarity (Normalizer (GetLanguageInfo lang) word) (Word s)
          = Some q ∧ (q == Similarity s)%Q) ∧
  (dictionary_has dym lang (Word s) = true ∨
   (l = [mkSuggestion (Normalizer (GetLanguageInfo lang) word) 1] ∧
    IsCorrectForLanguage dym (Normalizer (GetLanguageInfo lang) word) lang
      = Some true)).
Proof. apply GetSuggestionsForLanguage_sound. Qed.

(** X20.  [Suggest] answers with the input word, its normalized form or
    a dictionary word, and never panics; for a word that is judged
    correct and whose normalized form normalizes to itself, it answers
    with the normalized form. *)
Theorem Suggest_result dym word lang :
  sort_Slice_contract L → reachable dym →
  ∃ r, SuggestForLanguage dym word lang = Some r ∧
       (r = word ∨ r = Normalizer (GetLanguageInfo lang) word ∨
        dictionary_has dym lang r = true) ∧
       (IsCorrectForLanguage dym word lang = Some true →
        Normalizer (GetLanguageInfo lang) (Normalizer (GetLanguageInfo lang) word)
          = Normalizer (GetLanguageInfo lang) word →
        r = Normalizer (GetLanguageInfo lang) word).
Proof.
  intros Hsort Hr. pose proof (reachable_inv dym Hr) as Hinv.
  unfold SuggestForLanguage.
  destruct (GetSuggestionsForLanguage_shape dym word 1 2 lang Hsort Hinv)
    as (l & Hl & _ & Hshape); [lia|].
  rewrite Hl. simpl.
  assert (∀ s, s ∈ l → Word s = Normalizer (GetLanguageInfo lang) word ∨
                       dictionary_has dym lang (Word s) = true) as Hfrom.
  { intros s Hs.
    destruct (GetSuggestionsForLanguage_sound dym word 1 2 lang l s Hsort Hl Hs)
      as [_ [?|[-> _]]]; [by right|].
    apply list_elem_of_singleton in Hs as ->. by left. }
  destruct l as [|s l'].
  - exists word. split; [done|]. split; [by left|].
    intros Hc Hidem. exfalso.
    destruct Hshape as [[? _]|[_ Hno]]; [done|].
    rewrite IsCorrectForLanguage_inv in Hc, Hno by done.
    injection Hc as Hc. rewrite Hidem, Hc in Hno.
    assert (Some true = Some false); [|done]. apply Hno.
    by apply (reachable_valid dym Hr).
  - exists (Word s). split; [done|]. split.
    + right. apply Hfrom. by left.
    + intros Hc Hidem.
      destruct Hshape as [[[= -> ->] _]|[_ Hno]]; [done|]. exfalso.
      rewrite IsCorrectForLanguage_inv in Hc, Hno by done.
      injection Hc as Hc. rewrite Hidem, Hc in Hno.
      assert (Some true = Some false); [|done]. apply Hno.
      by apply (reachable_valid dym Hr).
Qed.

(** X21.  [GetSuggestionsWithThreshold] panics for every negative
    [maxSuggestions]; for [0 ≤ maxSuggestions < 2^62] it never panics on a
    reachable checker and returns at most [maxSuggestions] of the
    suggestions of [GetSuggestions(word, 2*maxSuggestions, 2)], all of them
    with a score of at least the threshold, best first. *)
Theorem GetSuggestionsWithThreshold_result dym word threshold maxSuggestions :
  sort_Slice_contract L → reachable dym →
  (maxSuggestions < 0 →
   GetSuggestionsWithThreshold dym word threshold maxSuggestions = None) ∧
  (0 ≤ maxSuggestions < 2 ^ 62 →
   ∃ l all,
     GetSuggestions dym word (2 * maxSuggestions) 2 = Some all ∧
     GetSuggestionsWithThreshold dym word threshold maxSuggestions = Some l ∧
     Z.of_nat (length l) ≤ maxSuggestions ∧ non_increasing l ∧
     ∀ s, s ∈ l → s ∈ all ∧ (threshold <= Similarity s)%Q).
Proof.
  intros Hsort Hr%reachable_inv. unfold GetSuggestionsWithThreshold. split.
  - intros Hneg. destruct (GetSuggestions _ _ _ _) as [all|]; simpl; [|done].
    rewrite decide_True by lia. by rewrite decide_True.
  - intros Hm. rewrite int64_small by lia.
    replace (maxSuggestions * 2) with (2 * maxSuggestions) by lia.
    unfold GetSuggestions.
    destruct (GetSuggestionsForLanguage_shape dym word (2 * maxSuggestions) 2
                (currentLang dym) Hsort Hr) as (all & Hall & Hsorted & _); [lia|].
    rewrite Hall. simpl.
    set (filtered := List.filter _ all).
    assert (non_increasing filtered) as Hfs by by apply non_increasing_filter.
    assert (∀ s, s ∈ filtered → s ∈ all ∧ (threshold <= Similarity s)%Q) as Hf.
    { intros s [Hs Ht]%list_elem_of_In%filter_In.
      split; [by apply list_elem_of_In|by apply Qle_bool_iff]. }
    case_decide.
    + rewrite decide_False by lia.
      exists (take (Z.to_nat maxSuggestions) filtered), all.
      split_and!; [done..| | |].
      * rewrite length_take. lia.
      * by apply non_increasing_take.
      * intros s Hs. apply Hf. by eapply subseteq_take.
    + exists filtered, all. split_and!; [done..|lia|done|done].
Qed.

(** X22.  [CheckAndSuggestForLanguage] never panics on a reachable
    checker; its flag is the answer of [IsCorrectForLanguage]; a correct
    word comes with no suggestion, any other with at most five, best
    first.  [CheckAndSuggest] is the same on the active language. *)
Theorem CheckAndSuggest_result dym word lang :
  sort_Slice_contract L → reachable dym →
  ∃ flag l,
    CheckAndSuggestForLanguage dym word lang = Some (flag, l) ∧
    IsCorrectForLanguage dym word lang = Some flag ∧
    (flag = true → l = []) ∧
    (flag = false → GetSuggestionsForLanguage dym word 5 2 lang = Some l) ∧
    Z.of_nat (length l) ≤ 5 ∧ non_increasing l ∧
    (lang = currentLang dym → CheckAndSuggest dym word = Some (flag, l)).
Proof.
  intros Hsort Hr. pose proof (reachable_inv dym Hr) as Hinv.
  assert (∃ flag l,
    CheckAndSuggestForLanguage dym word lang = Some (flag, l) ∧
    IsCorrectForLanguage dym word lang = Some flag ∧
    (flag = true → l = []) ∧
    (flag = false → GetSuggestionsForLanguage dym word 5 2 lang = Some l) ∧
    Z.of_nat (length l) ≤ 5 ∧ non_increasing l)
    as (flag & l & H1 & H2 & H3 & H4 & H5 & H6).
  { unfold CheckAndSuggestForLanguage.
    rewrite IsCorrectForLanguage_inv by done. simpl.
    destruct (dictionary_has dym lang _) eqn:Hc.
    - exists true, [].
      split_and!; [done|done|done|done|simpl; lia|].
      apply non_increasing_short. simpl; lia.
    - destruct (GetSuggestionsForLanguage_shape dym word 5 2 lang Hsort Hinv)
        as (l & Hl & Hsorted & Hshape); [lia|].
      rewrite Hl. simpl. exists false, l.
      split_and!; [done|done|done|done| |done].
      destruct Hshape as [[-> _]|[? _]]; [simpl; lia|done]. }
  exists flag, l. split_and!; [done..|]. intros ->. exact H1.
Qed.

(** X23.  [AutoDetectAndSuggest] never panics on a reachable checker,
    reports the language of [DetectLanguage], one of six codes, with the
    answer of [CheckAndSuggestForLanguage] for it, and does not depend on
    the active language. *)
Theorem AutoDetectAndSuggest_result dym word active :
  sort_Slice_contract L → reachable dym →
  ∃ flag l,
    AutoDetectAndSuggest dym word = Some (DetectLanguage word, flag, l) ∧
    CheckAndSuggestForLanguage dym word (DetectLanguage word) = Some (flag, l) ∧
    DetectLanguage word ∈ [English; Persian; Russian; Chinese; Japanese; Korean] ∧
    AutoDetectAndSuggest (SetLanguage dym active) word =
      AutoDetectAndSuggest dym word.
Proof.
  intros Hsort Hr. pose proof (reachable_inv dym Hr) as Hinv.
  unfold AutoDetectAndSuggest, CheckAndSuggestForLanguage.
  rewrite IsCorrectForLanguage_inv by done. simpl.
  assert (∀ lang, (∀ w, IsCorrectForLanguage (SetLanguage dym active) w lang =
                        IsCorrectForLanguage dym w lang) ∧
                  (∀ w m d, GetSuggestionsForLanguage (SetLanguage dym active) w m d lang =
                            GetSuggestionsForLanguage dym w m d lang)) as Hset.
  { intros lang. by apply queries_frame. }
  destruct (Hset (DetectLanguage word)) as [-> ->].
  rewrite IsCorrectForLanguage_inv by done. simpl.
  destruct (dictionary_has dym _ _) eqn:Hc.
  - exists true, []. split_and!; [done..|apply DetectLanguage_codes|done].
  - destruct (GetSuggestionsForLanguage_shape dym word 5 2 (DetectLanguage word)
                Hsort Hinv) as (l & -> & _); [lia|].
    exists false, l. split_and!; [done..|apply DetectLanguage_codes|done].
Qed.

End QueryProperties.

(** ** Further properties of candidate generation *)

(** Two byte strings that differ in a middle part only. *)
Lemma lev_cell_common_prefix s t n :
  (∀ k, (k < n)%nat → s !! k = t !! k) → lev_cell s t n n = 0.
Proof.
  intros Heq. induction n as [|n IH]; [done|].
  pose proof (lev_cell_diag_step s t n) as Hstep.
  pose proof (lev_cell_bounds s t (S n) (S n)).
  unfold cost in Hstep. rewrite decide_True in Hstep by (apply Heq; lia).
  rewrite IH in Hstep by (intros; apply Heq; lia). lia.
Qed.

Lemma lev_cell_grow s t n i j :
  lev_cell s t (n + i) (n + j)
  ≤ lev_cell s t n n + Z.max (Z.of_nat i) (Z.of_nat j).
Proof.
  revert j. induction i as [|i IHi]; intros j.
  - induction j as [|j IHj]; [rewrite Nat.add_0_r; lia|].
    rewrite Nat.add_0_r in *. replace (n + S j)%nat with (S (n + j)) by lia.
    pose proof (lev_cell_step_r s t n (n + j)). lia.
  - destruct j as [|j].
    + specialize (IHi 0%nat). replace (n + S i)%nat with (S (n + i)) by lia.
      pose proof (lev_cell_step_l s t (n + i) (n + 0)). lia.
    + specialize (IHi j).
      replace (n + S i)%nat with (S (n + i)) by lia.
      replace (n + S j)%nat with (S (n + j)) by lia.
      pose proof (lev_cell_step_diag s t (n + i) (n + j)).
      pose proof (cost_bounds s t (n + i) (n + j)). lia.
Qed.

Lemma lev_cell_common_suffix s t i j k :
  (∀ k', (k' < k)%nat → s !! (i + k')%nat = t !! (j + k')%nat) →
  lev_cell s t (i + k) (j + k) ≤ lev_cell s t i j.
Proof.
  intros Heq. induction k as [|k IH]; [rewrite !Nat.add_0_r; lia|].
  replace (i + S k)%nat with (S (i + k)) by lia.
  replace (j + S k)%nat with (S (j + k)) by lia.
  pose proof (lev_cell_step_diag s t (i + k) (j + k)) as Hstep.
  unfold cost in Hstep. rewrite decide_True in Hstep by (apply Heq; lia).
  specialize (IH ltac:(intros; apply Heq; lia)). lia.
Qed.

Lemma lev_cell_edit (p a b q : list ascii) :
  lev_cell (p ++ a ++ q) (p ++ b ++ q)
    (length (p ++ a ++ q)) (length (p ++ b ++ q))
  ≤ Z.max (Z.of_nat (length a)) (Z.of_nat (length b)).
Proof.
  rewrite !length_app.
  replace (length p + (length a + length q))%nat
    with ((length p + length a) + length q)%nat by lia.
  replace (length p + (length b + length q))%nat
    with ((length p + length b) + length q)%nat by lia.
  etrans; [apply lev_cell_common_suffix|].
  { intros k Hk. rewrite !lookup_app_r by lia. f_equal. lia. }
  etrans; [apply lev_cell_grow|].
  rewrite lev_cell_common_prefix; [lia|].
  intros k Hk. by rewrite !lookup_app_l.
Qed.

Lemma slice_to_bytes s i pre :
  slice_to s i = Some pre → bytes pre = take i (bytes s).
Proof. unfold slice_to. case_decide; [|done]. intros [= <-]. apply bytes_of_bytes. Qed.

Lemma slice_from_bytes s i post :
  slice_from s i = Some post → bytes post = drop i (bytes s).
Proof. unfold slice_from. case_decide; [|done]. intros [= <-]. apply bytes_of_bytes. Qed.

Lemma string_of_rune_ascii r :
  0 ≤ r < 0x80 → bytes (string_of_rune r) = [to_byte r].
Proof.
  intros Hr. unfold string_of_rune. rewrite bytes_of_bytes.
  apply EncodeRune_ascii. lia.
Qed.

Section CandidateProperties.
Context `{L : GoLibrary}.

Lemma near_middle w e (p a b q : list ascii) :
  ascii_bytes w → bytes w = p ++ a ++ q → bytes e = p ++ b ++ q →
  (length a ≤ 2)%nat → (length b ≤ 2)%nat →
  Forall (λ c, byte_val c < 0x80) b → near w e.
Proof.
  intros Hw Ew Ee Ha Hb Hascii. unfold near, ascii_bytes, len in *.
  rewrite Ew, Ee in *. split.
  - apply Forall_app in Hw as [Hp [_ Hq]%Forall_app].
    by repeat (apply Forall_app; split).
  - pose proof (lev_cell_edit p a b q). lia.
Qed.

Lemma to_byte_ascii r : 0 ≤ r < 0x80 → byte_val (to_byte r) < 0x80.
Proof. intros Hr. rewrite byte_val_to_byte; lia. Qed.

Lemma deleted_near w i e : ascii_bytes w → deleted w i = Some e → near w e.
Proof.
  intros Hw. unfold deleted.
  destruct (slice_to w i) as [pre|] eqn:Hpre; simpl; [|done].
  destruct (slice_from w (i + 1)) as [post|] eqn:Hpost; simpl; [|done].
  intros [= <-].
  assert (i + 1 ≤ len w)%nat as Hi.
  { unfold slice_from in Hpost. by case_decide. }
  destruct (lookup_lt_is_Some_2 (bytes w) i) as [c Hc]; [unfold len in Hi; lia|].
  apply (near_middle _ _ (take i (bytes w)) [c] [] (drop (S i) (bytes w)));
    [done| | |simpl; lia..|constructor].
  - by rewrite <- (take_drop_middle _ _ _ Hc) at 1.
  - rewrite bytes_app, (slice_to_bytes _ _ _ Hpre), (slice_from_bytes _ _ _ Hpost).
    by rewrite Nat.add_1_r.
Qed.

Lemma inserted_near w i r e :
  ascii_bytes w → 0 ≤ r < 0x80 → inserted w i r = Some e → near w e.
Proof.
  intros Hw Hr. unfold inserted.
  destruct (slice_to w i) as [pre|] eqn:Hpre; simpl; [|done].
  destruct (slice_from w i) as [post|] eqn:Hpost; simpl; [|done].
  intros [= <-].
  apply (near_middle _ _ (take i (bytes w)) [] [to_byte r] (drop i (bytes w)));
    [done| | |simpl; lia..|].
  - simpl. by rewrite take_drop.
  - rewrite !bytes_app, (slice_to_bytes _ _ _ Hpre), (slice_from_bytes _ _ _ Hpost).
    by rewrite string_of_rune_ascii.
  - repeat constructor. by apply to_byte_ascii.
Qed.

Lemma substituted_near w i r e :
  ascii_bytes w → 0 ≤ r < 0x80 → substituted w i r = Some e → near w e.
Proof.
  intros Hw Hr. unfold substituted.
  destruct (slice_to w i) as [pre|] eqn:Hpre; simpl; [|done].
  destruct (slice_from w (i + 1)) as [post|] eqn:Hpost; simpl; [|done].
  intros [= <-].
  assert (i + 1 ≤ len w)%nat as Hi.
  { unfold slice_from in Hpost. by case_decide. }
  destruct (lookup_lt_is_Some_2 (bytes w) i) as [c Hc]; [unfold len in Hi; lia|].
  apply (near_middle _ _ (take i (bytes w)) [c] [to_byte r] (drop (S i) (bytes w)));
    [done| | |simpl; lia..|].
  - by rewrite <- (take_drop_middle _ _ _ Hc) at 1.
  - rewrite !bytes_app, (slice_to_bytes _ _ _ Hpre), (slice_from_bytes _ _ _ Hpost).
    by rewrite string_of_rune_ascii, Nat.add_1_r.
  - repeat constructor. by apply to_byte_ascii.
Qed.

Lemma transposed_near w i e : ascii_bytes w → transposed w i = Some e → near w e.
Proof.
  intros Hw. unfold transposed, index.
  destruct (slice_to w i) as [pre|] eqn:Hpre; simpl; [|done].
  destruct (bytes w !! (i + 1)%nat) as [c1|] eqn:H1; simpl; [|done].
  destruct (bytes w !! i) as [c0|] eqn:H0; simpl; [|done].
  destruct (slice_from w (i + 2)) as [post|] eqn:Hpost; simpl; [|done].
  intros [= <-].
  assert (byte_val c0 < 0x80 ∧ byte_val c1 < 0x80) as [Hc0 Hc1].
  { unfold ascii_bytes in Hw. rewrite Forall_lookup in Hw. eauto. }
  pose proof (byte_val_range c0). pose proof (byte_val_range c1).
  apply (near_middle _ _ (take i (bytes w)) [c0; c1] [c1; c0]
           (drop (i + 2) (bytes w))); [done| | |simpl; lia..|by repeat constructor].
  - rewrite <- (take_drop_middle _ _ _ H0) at 1. simpl. do 2 f_equal.
    rewrite Nat.add_1_r in H1. rewrite (drop_S _ _ _ H1).
    by replace (i + 2)%nat with (S (S i)) by lia.
  - rewrite !bytes_app, (slice_to_bytes _ _ _ Hpre), (slice_from_bytes _ _ _ Hpost).
    rewrite !string_of_rune_ascii by lia. by rewrite !to_byte_byte_val.
Qed.

Lemma within_near w0 bound w e :
  within w0 bound w → near w e → within w0 (bound + 2) e.
Proof.
  intros [Hw Hd] [He Hn]. split; [done|].
  pose proof (lev_cell_triangle (bytes w0) (bytes w) (bytes e)
                (len w0 + len w + len e) (len w0) (len w) (len e)) as Ht.
  unfold len in *. specialize (Ht ltac:(lia) ltac:(lia) ltac:(lia) ltac:(lia)).
  lia.
Qed.

Lemma within_mono w0 b b' c : b ≤ b' → within w0 b c → within w0 b' c.
Proof. intros Hb [? ?]. split; [done|lia]. Qed.

Lemma generateCandidatesAtDistance_within cg w0 total :
  Forall (λ r, 0 ≤ r < 0x80) (runes (alphabet cg)) →
  ∀ distance word bound cands res,
    within w0 bound word → bound + 2 * Z.of_nat distance ≤ total →
    (∀ c, c ∈ cands → within w0 total c) →
    generateCandidatesAtDistance cg word distance cands = Some res →
    ∀ c, c ∈ res → within w0 total c.
Proof.
  intros Halpha. induction distance as [|d IH];
    intros word bound cands res Hword Hbound Hcands; simpl.
  { intros [= <-] c [->%elem_of_singleton|Hc]%elem_of_union; [|by apply Hcands].
    apply (within_mono _ bound); [lia|done]. }
  assert (∀ cs e res',
    near word e → (∀ c, c ∈ cs → within w0 total c) →
    (if decide (S d = 1%nat) then Some ({[e]} ∪ cs)
     else generateCandidatesAtDistance cg e d cs) = Some res' →
    ∀ c, c ∈ res' → within w0 total c) as Hvisit.
  { intros cs e res' He Hcs. destruct (decide (S d = 1%nat)) as [Hd|Hd].
    - intros [= <-] c [->%elem_of_singleton|Hc]%elem_of_union; [|by apply Hcs].
      apply (within_mono _ (bound + 2)); [lia|]. by eapply within_near.
    - apply (IH e (bound + 2)); [by eapply within_near|lia|done]. }
  assert (Hword' := Hword). destruct Hword' as [Hascii _].
  destruct (forM (seq 0 (len word)) _ cands) as [c1|] eqn:H1; simpl; [|done].
  destruct (forM (seq 0 (len word + 1)) _ c1) as [c2|] eqn:H2; simpl; [|done].
  destruct (forM (seq 0 (len word)) _ c2) as [c3|] eqn:H3; simpl; [|done].
  intros H4.
  assert (∀ c, c ∈ c1 → within w0 total c) as Hc1.
  { eapply (forM_preserves (λ cs, ∀ c, c ∈ cs → within w0 total c));
      [|exact Hcands|exact H1].
    intros cs i cs' _ Hcs. cbv beta.
    destruct (deleted word i) as [e|] eqn:He; simpl; [|done].
    apply Hvisit; [|done]. by eapply deleted_near. }
  assert (∀ c, c ∈ c2 → within w0 total c) as Hc2.
  { eapply (forM_preserves (λ cs, ∀ c, c ∈ cs → within w0 total c));
      [|exact Hc1|exact H2].
    intros cs i cs' _ Hcs. cbv beta.
    apply (forM_preserves (λ cs, ∀ c, c ∈ cs → within w0 total c)); [|done].
    intros cs0 r cs0' Hr Hcs0.
    destruct (inserted word i r) as [e|] eqn:He; simpl; [|done].
    apply Hvisit; [|done]. eapply inserted_near; [done| |done].
    rewrite Forall_forall in Halpha. by apply Halpha. }
  assert (∀ c, c ∈ c3 → within w0 total c) as Hc3.
  { eapply (forM_preserves (λ cs, ∀ c, c ∈ cs → within w0 total c));
      [|exact Hc2|exact H3].
    intros cs i cs' _ Hcs. cbv beta.
    apply (forM_preserves (λ cs, ∀ c, c ∈ cs → within w0 total c)); [|done].
    intros cs0 r cs0' Hr Hcs0.
    destruct (index word i) as [wi|]; simpl; [|done].
    destruct (decide (r ≠ byte_val wi)); [|by intros [= <-]].
    destruct (substituted word i r) as [e|] eqn:He; simpl; [|done].
    apply Hvisit; [|done]. eapply substituted_near; [done| |done].
    rewrite Forall_forall in Halpha. by apply Halpha. }
  eapply (forM_preserves (λ cs, ∀ c, c ∈ cs → within w0 total c));
    [|exact Hc3|exact H4].
  intros cs i cs' _ Hcs. cbv beta.
  destruct (transposed word i) as [e|] eqn:He; simpl; [|done].
  apply Hvisit; [|done]. by eapply transposed_near.
Qed.

(** X24.  The candidates of an ASCII word stay close to it under the
    package's own metric: with an ASCII alphabet (the default one is),
    every candidate that [GenerateCandidates] returns for [maxDistance] is
    an ASCII word whose Levenshtein distance to the lower-cased input is at
    most [2 * maxDistance]; a transposition counts as one edit for the
    generator and as two for the metric. *)
Theorem candidates_within_twice_maxDistance cg word maxDistance cands c :
  Forall (λ r, 0 ≤ r < 0x80) (runes (alphabet cg)) →
  ascii_bytes (strings_ToLower word) →
  GenerateCandidates cg word maxDistance = Some cands → c ∈ cands →
  ascii_bytes c ∧
  ∃ dist, LevenshteinDistance (strings_ToLower word) c = Some dist ∧
          dist ≤ 2 * maxDistance.
Proof.
  intros Halpha Hascii. unfold GenerateCandidates.
  set (lw := strings_ToLower word) in *.
  destruct (forM _ _ ∅) as [cs|] eqn:Hrun; simpl; [|done].
  intros [= <-] Hc%elem_of_elements.
  assert (∀ c, c ∈ cs → within lw (2 * maxDistance) c) as Hall.
  { eapply (forM_preserves (λ cs, ∀ c, c ∈ cs → within lw (2 * maxDistance) c));
      [| |exact Hrun].
    - intros s distance s' Hd%elem_of_seq Hs. cbv beta.
      apply (generateCandidatesAtDistance_within cg lw _ Halpha distance lw 0);
        [|lia|done].
      split; [done|]. rewrite lev_cell_same. lia.
    - intros c' Hc'. by apply elem_of_empty in Hc'. }
  destruct (Hall c Hc) as [Hca Hd]. split; [done|].
  rewrite LevenshteinDistance_cell. eauto.
Qed.

End CandidateProperties.

(** A loop establishes what one of its iterations establishes and the
    others keep. *)
Lemma forM_establishes {St A : Type} (Q : St → Prop) (l : list A)
    (body : St → A → option St) x s s' :
  x ∈ l →
  (∀ s y s', body s y = Some s' → Q s → Q s') →
  (∀ s s', body s x = Some s' → Q s') →
  forM l body s = Some s' → Q s'.
Proof.
  intros Hx Hkeep Hest. revert s.
  induction l as [|y l IH]; intros s Hrun; [by apply elem_of_nil in Hx|].
  simpl in Hrun. destruct (body s y) as [s1|] eqn:Hb; simpl in Hrun; [|done].
  apply elem_of_cons in Hx as [<-|Hx]; [|by apply (IH Hx s1)].
  apply (forM_preserves Q l body s1); [|by eapply Hest|done].
  intros ? z ? _ ? ?. by eapply Hkeep.
Qed.

Section TypoCandidates.
Context `{L : GoLibrary}.

Lemma GenerateCommonTypos_adjacent cg word typos c :
  GenerateCommonTypos cg word = Some typos → c ∈ typos →
  adjacent_substitution (strings_ToLower word) c.
Proof.
  unfold GenerateCommonTypos. set (lw := strings_ToLower word).
  destruct (forM (range_string lw) _ ∅) as [cs|] eqn:Hrun; simpl; [|done].
  intros [= <-] Hc%elem_of_elements. revert c Hc.
  eapply (forM_preserves
            (λ cs : gset string, ∀ c, c ∈ cs → adjacent_substitution lw c));
    [| |exact Hrun].
  - intros cs0 [i r] cs0' Hin Hcs0. simpl.
    destruct (keyboard r) as [ns|] eqn:Hkb; [|by intros [= <-]].
    pose proof (keyboard_spec _ _ Hkb) as [Hr Hns].
    destruct (range_from_ascii _ _ _ _ _ Hin) as (key & Hkey & Hval & _); [lia|].
    rewrite Nat.sub_0_r in Hkey. subst r.
    apply (forM_preserves
             (λ cs : gset string, ∀ c, c ∈ cs → adjacent_substitution lw c));
      [|done].
    intros cs1 n cs1' Hn Hcs1. destruct (Hns n Hn) as [Hnr Hne].
    destruct (substituted lw i n) as [e|] eqn:He; simpl; [|done].
    intros [= <-] c' [->%elem_of_singleton|Hc']%elem_of_union; [|by apply Hcs1].
    apply substituted_ascii in He as [_ Hbytes]; [|lia].
    by exists i, key, ns, n.
  - intros c Hc. by apply elem_of_empty in Hc.
Qed.

(** Candidate generation only adds to the shared set. *)
Lemma generateCandidatesAtDistance_grows cg distance :
  ∀ word cands res,
    generateCandidatesAtDistance cg word distance cands = Some res →
    cands ⊆ res.
Proof.
  induction distance as [|d IH]; intros word cands res; simpl.
  { intros [= <-]. set_solver. }
  assert (∀ (cs : gset string) (edit : option string) res',
    (edit ≫= λ e : string,
       if decide (S d = 1%nat) then Some ({[e]} ∪ cs)
       else generateCandidatesAtDistance cg e d cs) = Some res' →
    cs ⊆ res') as Hvisit.
  { intros cs [e|] res'; simpl; [|done].
    destruct (decide (S d = 1%nat)); [intros [= <-]; set_solver|apply IH]. }
  destruct (forM (seq 0 (len word)) _ cands) as [c1|] eqn:H1; simpl; [|done].
  destruct (forM (seq 0 (len word + 1)) _ c1) as [c2|] eqn:H2; simpl; [|done].
  destruct (forM (seq 0 (len word)) _ c2) as [c3|] eqn:H3; simpl; [|done].
  intros H4.
  assert (cands ⊆ c1) as Hc1.
  { eapply (forM_preserves (λ cs, cands ⊆ cs)); [|done|exact H1].
    intros cs i cs' _ Hcs Hb. apply Hvisit in Hb. set_solver. }
  assert (c1 ⊆ c2) as Hc2.
  { eapply (forM_preserves (λ cs, c1 ⊆ cs)); [|done|exact H2].
    intros cs i cs' _ Hcs. cbv beta.
    apply (forM_preserves (λ cs, c1 ⊆ cs)); [|done].
    intros cs0 r cs0' _ Hcs0 Hb. apply Hvisit in Hb. set_solver. }
  assert (c2 ⊆ c3) as Hc3.
  { eapply (forM_preserves (λ cs, c2 ⊆ cs)); [|done|exact H3].
    intros cs i cs' _ Hcs. cbv beta.
    apply (forM_preserves (λ cs, c2 ⊆ cs)); [|done].
    intros cs0 r cs0' _ Hcs0.
    destruct (index word i) as [wi|]; simpl; [|done].
    destruct (decide (r ≠ byte_val wi)); [|by intros [= <-]].
    intros Hb. apply Hvisit in Hb. set_solver. }
  assert (c3 ⊆ res) as Hc4.
  { eapply (forM_preserves (λ cs, c3 ⊆ cs)); [|done|exact H4].
    intros cs i cs' _ Hcs Hb. apply Hvisit in Hb. set_solver. }
  set_solver.
Qed.

(** The substitutions are among the candidates at distance 1. *)
Lemma generateCandidatesAtDistance_substitution cg word cands res i r wi e :
  generateCandidatesAtDistance cg word 1 cands = Some res →
  index word i = Some wi → r ∈ runes (alphabet cg) → r ≠ byte_val wi →
  substituted word i r = Some e → e ∈ res.
Proof.
  intros Hrun Hwi Hr Hne He. simpl in Hrun.
  destruct (forM (seq 0 (len word)) _ cands) as [c1|] eqn:H1;
    simpl in Hrun; [|done].
  destruct (forM (seq 0 (len word + 1)) _ c1) as [c2|] eqn:H2;
    simpl in Hrun; [|done].
  destruct (forM (seq 0 (len word)) _ c2) as [c3|] eqn:H3;
    simpl in Hrun; [|done].
  assert (e ∈ c3) as Hc3.
  { assert (∀ (cs cs' : gset string) r',
      (index word i ≫= λ wi',
         if decide (r' ≠ byte_val wi')
         then substituted word i r' ≫= λ w : string, Some ({[w]} ∪ cs)
         else Some cs) = Some cs' → cs ⊆ cs') as Hinner.
    { intros cs cs' r'. rewrite Hwi. simpl.
      destruct (decide (r' ≠ byte_val wi)); [|by intros [= <-]].
      destruct (substituted word i r'); simpl; [|done].
      intros [= <-]. set_solver. }
    eapply (forM_establishes (λ cs, e ∈ cs) _ _ i); [| | |exact H3].
    - apply elem_of_seq. apply lookup_lt_Some in Hwi. unfold len. lia.
    - intros cs j cs' Hb Hcs. revert Hb.
      apply (forM_preserves (λ cs, e ∈ cs)); [|done].
      intros cs0 r' cs0' _ Hcs0.
      destruct (index word j) as [wj|]; simpl; [|done].
      destruct (decide (r' ≠ byte_val wj)); [|by intros [= <-]].
      destruct (substituted word j r'); simpl; [|done].
      intros [= <-]. set_solver.
    - intros cs cs'.
      apply (forM_establishes (λ cs, e ∈ cs) _ _ r); [done| |].
      + intros cs0 r' cs0' Hb Hcs0. apply Hinner in Hb. set_solver.
      + intros cs0 cs0'. rewrite Hwi. simpl.
        rewrite decide_True by done. rewrite He. simpl.
        intros [= <-]. set_solver. }
  revert Hrun. apply (forM_preserves (λ cs, e ∈ cs)); [|done].
  intros cs j cs' _ Hcs.
  destruct (transposed word j); simpl; [|done]. intros [= <-]. set_solver.
Qed.

(** X25.  The typo candidates add nothing to the edit candidates: with
    an alphabet that holds the letters [a] to [z] (the default one does)
    and [maxDistance ≥ 1], every candidate of [GenerateCommonTypos] is
    already among the candidates of [GenerateCandidates], so the candidate
    list of a suggestion query holds it twice. *)
Theorem typos_are_candidates cg word maxDistance cands typos c :
  (∀ n, 0x61 ≤ n ≤ 0x7A → n ∈ runes (alphabet cg)) → 1 ≤ maxDistance →
  GenerateCandidates cg word maxDistance = Some cands →
  GenerateCommonTypos cg word = Some typos →
  c ∈ typos → c ∈ cands ∧ ¬ NoDup (cands ++ typos).
Proof.
  intros Halpha Hmax Hcands Htypos Hc.
  destruct (GenerateCommonTypos_adjacent cg word typos c Htypos Hc)
    as (i & key & ns & n & Hkey & Hkb & Hn & Hne & Hbytes).
  assert (c ∈ cands) as Hin.
  { unfold GenerateCandidates in Hcands. set (lw := strings_ToLower word) in *.
    destruct (forM _ _ ∅) as [cs|] eqn:Hrun; simpl in Hcands; [|done].
    injection Hcands as <-. apply elem_of_elements.
    destruct (Z.to_nat maxDistance) as [|k] eqn:Hk; [lia|].
    change (seq 1 (S k)) with (1%nat :: seq 2 k) in Hrun.
    cbn [forM] in Hrun.
    destruct (generateCandidatesAtDistance cg lw 1 ∅) as [c1|] eqn:H1;
      [|done].
    cbn [mbind option_bind] in Hrun.
    destruct (keyboard_spec _ _ Hkb) as [_ Hns]. destruct (Hns n Hn) as [Hn' _].
    destruct (substituted_total lw i n) as [e He].
    { apply lookup_lt_Some in Hkey. by unfold len. }
    assert (e ∈ c1) as He1.
    { eapply (generateCandidatesAtDistance_substitution cg lw ∅ c1 i n key e);
        [done..|by apply Halpha|done|done]. }
    assert (c = e) as ->.
    { apply bytes_inj. rewrite Hbytes.
      apply substituted_ascii in He as [_ ->]; [done|lia]. }
    revert Hrun. apply (forM_preserves (λ cs, e ∈ cs)); [|done].
    intros s d s' _ Hs Hg%generateCandidatesAtDistance_grows. set_solver. }
  split; [done|].
  intros [_ [Hdisj _]]%NoDup_app. by apply (Hdisj c).
Qed.

End TypoCandidates.

(** ** Adding again what is already stored *)

Lemma set_bits_present idxs bits :
  (∀ j, j ∈ idxs → bits !! j = Some true) → set_bits idxs bits = bits.
Proof.
  intros Hset. apply list_eq. intros j. rewrite set_bits_lookup.
  destruct (decide (j ∈ idxs ∧ j < length bits)%nat) as [[Hj _]|]; [|done].
  by rewrite Hset.
Qed.

Lemma Add_present bf item :
  usable bf → Contains bf item = Some true → Add bf item = Some bf.
Proof.
  intros Hu Hc. rewrite Add_usable by done.
  rewrite set_bits_present; [by destruct bf|].
  intros j (i & -> & Hi)%list_elem_of_fmap.
  destruct (Contains_loop_true_inv _ _ _ Hc i Hi) as (index & Hp & Hbit).
  destruct (probe_usable_index bf item i Hu) as [Hp' _]. congruence.
Qed.

Lemma forM_fixed {St A : Type} (l : list A) (body : St → A → option St) s :
  (∀ x, x ∈ l → body s x = Some s) → forM l body s = Some s.
Proof.
  induction l as [|x l IH]; intros Hfix; simpl; [done|].
  rewrite Hfix by by left. simpl. apply IH. intros y Hy. apply Hfix. by right.
Qed.

Section Idempotence.
Context `{L : GoLibrary}.

Lemma add_word_present lang dym word :
  checker_inv dym →
  (IsValidWordForLanguage (Normalizer (GetLanguageInfo lang) word) lang = true →
   dictionary_has dym lang (Normalizer (GetLanguageInfo lang) word) = true) →
  add_word lang dym word = Some dym.
Proof.
  intros Hinv Hhas. unfold add_word.
  set (normalized := Normalizer (GetLanguageInfo lang) word) in *.
  destruct (IsValidWordForLanguage normalized lang); [|done].
  specialize (Hhas eq_refl). unfold dictionary_has in Hhas.
  destruct (dictionaries dym !! lang) as [dict|] eqn:Hd; simpl in Hhas; [|done].
  destruct (dict !! normalized) as [b|] eqn:Hb; simpl in Hhas; [|done]. subst b.
  destruct (checker_inv_lookup_dict _ _ _ Hinv Hd) as (bf & Hbf & Hpair).
  rewrite Hbf. simpl.
  assert (Contains bf normalized = Some true) as Hc.
  { destruct Hpair as (_ & _ & _ & _ & Hsub). by apply Hsub. }
  rewrite (Add_present bf normalized (pair_inv_usable _ _ Hpair) Hc). simpl.
  rewrite (insert_id dict normalized true Hb).
  rewrite (insert_id _ lang bf Hbf), (insert_id _ lang dict Hd).
  by destruct dym.
Qed.

Lemma AddWordsForLanguage_again dym words lang dym' :
  checker_inv dym → AddWordsForLanguage dym words lang = Some dym' →
  AddWordsForLanguage dym' words lang = Some dym'.
Proof.
  intros Hinv Hrun.
  destruct (AddWordsForLanguage_spec dym words lang Hinv)
    as (d & Hd & Hinv' & [bf Hbf] & _ & _ & Hw).
  rewrite Hd in Hrun. injection Hrun as ->.
  rewrite AddWordsForLanguage_unfold. unfold ensure_language. rewrite Hbf.
  simpl. apply forM_fixed. intros w Hin.
  apply add_word_present; [done|]. by apply Hw.
Qed.

(** X26.  Adding is idempotent: on a reachable checker, adding a batch
    of words a second time, or loading a default dictionary a second time,
    leaves the checker exactly as it was after the first time. *)
Theorem adding_again_changes_nothing dym words lang :
  reachable dym →
  (∃ dym', AddWordsForLanguage dym words lang = Some dym' ∧
           AddWordsForLanguage dym' words lang = Some dym') ∧
  (∃ dym', LoadDefaultDictionary dym lang = Some dym' ∧
           LoadDefaultDictionary dym' lang = Some dym').
Proof.
  intros Hinv%reachable_inv. unfold LoadDefaultDictionary. split.
  - destruct (AddWordsForLanguage_spec dym words lang Hinv) as (d & Hd & _).
    exists d. split; [done|]. by eapply AddWordsForLanguage_again.
  - destruct (AddWordsForLanguage_spec dym (GetWordsForLanguage lang) lang Hinv)
      as (d & Hd & _).
    exists d. split; [done|]. by eapply AddWordsForLanguage_again.
Qed.

End Idempotence.

(** ** Part III: evaluation on concrete inputs *)

Lemma insert_by_Permutation {A : Type} (less : A → A → bool) x l :
  Permutation (insert_by less x l) (x :: l).
Proof.
  induction l as [|y l IH]; simpl; [done|].
  destruct (less x y); [done|]. rewrite IH. apply perm_swap.
Qed.

Lemma insert_by_Sorted {A : Type} (less : A → A → bool) x l :
  (∀ a b, less a b = true → less b a = false) →
  Sorted (λ a b, less b a = false) l →
  Sorted (λ a b, less b a = false) (insert_by less x l).
Proof.
  intros Hasym. induction 1 as [|y l Hs IH Hhd]; simpl.
  { by repeat constructor. }
  destruct (less x y) eqn:Hxy.
  - constructor; [by constructor|]. constructor. by apply Hasym.
  - constructor; [done|].
    destruct Hhd as [|z l Hyz]; simpl.
    + by constructor.
    + destruct (less x z); by constructor.
Qed.

Lemma ascii_model_sort_contract : sort_Slice_contract ascii_model.
Proof.
  intros A l less [Hasym _]. simpl. unfold insertion_sort. split.
  - induction l as [|x l IH]; simpl; [done|].
    by rewrite insert_by_Permutation, IH.
  - induction l as [|x l IH]; simpl; [constructor|].
    by apply insert_by_Sorted.
Qed.

(** C9.  The four detection examples. *)
Theorem DetectLanguage_examples :
  DetectLanguage "hello" = English ∧
  DetectLanguage "سلام" = Persian ∧
  DetectLanguage "привет" = Russian ∧
  DetectLanguage "你好" = Chinese.
Proof. by vm_compute. Qed.

Lemma bloom_no_false_negatives_witness :
  ∃ bf0 bf, NewBloomFilter 1000 5 = Some bf0 ∧
            BloomFilter_AddWords bf0 ["hello"; "world"; "test"; "go"] = Some bf ∧
            Contains bf "world" = Some true.
Proof.
  destruct (bloom_no_false_negatives 1000 5 ["hello"; "world"; "test"; "go"])
    as [Hsound Htotal].
  destruct Htotal as (bf0 & bf & Hnew & Hadd); [lia|lia|].
  exists bf0, bf. split; [exact Hnew|]. split; [exact Hadd|].
  apply (Hsound bf0 bf Hnew Hadd). repeat constructor.
Defined.

Lemma filter_sizing_is_fixed_witness :
  ∃ dym bf,
    AddWordsForLanguage (L := ascii_model) (NewDidYouMean 1000 5) ["hello"] English
      = Some dym ∧
    bloomFilters dym !! English = Some bf ∧
    size bf = 10000%N ∧ numHashFuncs bf = 7.
Proof.
  destruct (AddWordsForLanguage_spec (L := ascii_model) (NewDidYouMean 1000 5)
              ["hello"] English (checker_inv_new 1000 5)) as (dym & Hrun & _).
  destruct (filter_sizing_is_fixed (L := ascii_model) 1000 5 ["hello"] English dym Hrun)
    as (bf & Hbf & Hsize & Hk).
  exists dym, bf. auto.
Defined.

(** The checker obtained by adding ["hello"] to a fresh one. *)
Lemma hello_checker :
  ∃ dym dict,
    AddWordsForLanguage (L := ascii_model) (NewDidYouMean 10000 7) ["hello"] English
      = Some dym ∧
    reachable (L := ascii_model) dym ∧
    dictionaries dym !! English = Some dict ∧ dict !! "hello" = Some true.
Proof.
  destruct (AddWordsForLanguage_spec (L := ascii_model) (NewDidYouMean 10000 7)
              ["hello"] English (checker_inv_new 10000 7))
    as (dym & Hrun & Hinv & _ & _ & _ & Hw).
  assert (IsValidWordForLanguage (L := ascii_model)
            (Normalizer (GetLanguageInfo (L := ascii_model) English) "hello") English = true)
    as Hvalid by (vm_compute; reflexivity).
  specialize (Hw "hello" (list_elem_of_here _ _) Hvalid). clear Hvalid.
  change (Normalizer (GetLanguageInfo English) "hello") with "hello" in Hw.
  unfold dictionary_has in Hw.
  destruct (dictionaries dym !! English) as [dict|] eqn:Hd; simpl in Hw; [|done].
  destruct (checker_inv_lookup_dict _ _ _ Hinv Hd) as (bf & _ & _ & _ & _ & Htrue & _).
  destruct (dict !! "hello") as [b|] eqn:Hb; simpl in Hw; [|done]. subst b.
  exists dym, dict. split; [exact Hrun|]. split; [|split; [exact Hd|exact Hb]].
  eapply (reachable_step _ (OpAddWordsForLanguage ["hello"] English));
    [apply reachable_new|exact Hrun].
Qed.

Lemma filter_superset_of_dictionary_witness :
  ∃ dym dict bf,
    reachable (L := ascii_model) dym ∧
    dictionaries dym !! English = Some dict ∧
    is_Some (dict !! "hello") ∧
    bloomFilters dym !! English = Some bf ∧
    Contains bf "hello" = Some true.
Proof.
  destruct hello_checker as (dym & dict & _ & Hr & Hd & Hw).
  destruct (filter_superset_of_dictionary (L := ascii_model) dym English dict "hello"
              Hr Hd (ex_intro _ true Hw)) as (bf & Hbf & Hc).
  exists dym, dict, bf. split; [exact Hr|]. split; [exact Hd|].
  split; [exists true; exact Hw|]. split; [exact Hbf|exact Hc].
Defined.

Lemma IsCorrect_is_dictionary_lookup_witness :
  ∃ dym,
    reachable (L := ascii_model) dym ∧
    IsCorrectForLanguage (L := ascii_model) dym "Hello" English =
    Some (dictionary_lookup (L := ascii_model) dym "Hello" English).
Proof.
  destruct hello_checker as (dym & dict & _ & Hr & _).
  exists dym. split; [exact Hr|].
  exact (IsCorrect_is_dictionary_lookup (L := ascii_model) dym "Hello" English Hr).
Defined.

Lemma added_valid_words_are_correct_witness :
  ∃ dym',
    AddWordsForLanguage (L := ascii_model) (NewDidYouMean 10000 7)
      ["hello"; "World"] English = Some dym' ∧
    IsCorrectForLanguage (L := ascii_model) dym' "World" English = Some true.
Proof.
  destruct (added_valid_words_are_correct (L := ascii_model) (NewDidYouMean 10000 7)
              ["hello"; "World"] English (reachable_new 10000 7))
    as (dym' & Hrun & Hall).
  exists dym'. split; [exact Hrun|].
  apply Hall; [repeat constructor|vm_compute; reflexivity].
Defined.

Lemma suggestions_sorted_and_bounded_witness :
  ∃ dym l,
    reachable (L := ascii_model) dym ∧
    GetSuggestionsForLanguage (L := ascii_model) dym "helo" 3 2 English = Some l ∧
    non_increasing l ∧ Z.of_nat (length l) ≤ 3.
Proof.
  destruct hello_checker as (dym & dict & _ & Hr & _).
  destruct (suggestions_sorted_and_bounded (L := ascii_model) dym "helo" 3 2 English
              ascii_model_sort_contract Hr ltac:(lia)) as (l & Hrun & Hsorted & Hlen).
  exists dym, l. split; [exact Hr|]. split; [exact Hrun|].
  split; [exact Hsorted|exact Hlen].
Defined.

Lemma Suggest_without_suggestions_returns_input_witness :
  (∃ l, GetSuggestionsForLanguage (L := ascii_model) (NewDidYouMean 10000 7)
          "Hello" 1 2 English = Some l) ∧
  SuggestForLanguage (L := ascii_model) (NewDidYouMean 10000 7) "Hello" English
    = Some "Hello".
Proof.
  destruct (Suggest_without_suggestions_returns_input (L := ascii_model)
              (NewDidYouMean 10000 7) "Hello" English (reachable_new 10000 7))
    as (Htotal & Hnone & _).
  split; [exact Htotal|]. apply Hnone. reflexivity.
Defined.

(** Counterexamples to the claims as stated. *)

Lemma correct_word_exceeds_zero_cap :
  ∃ l, (AddWords (L := ascii_model) (NewDidYouMean 10000 7) ["hello"]
          ≫= λ dym, GetSuggestions (L := ascii_model) dym "hello" 0 2) = Some l ∧
       ¬ (Z.of_nat (length l) ≤ 0).
Proof.
  exists [mkSuggestion "hello" 1]. split; [vm_compute; reflexivity|simpl; lia].
Qed.

Lemma Suggest_returns_unnormalized_input :
  GetSuggestionsForLanguage (L := ascii_model) (NewDidYouMean 10000 7)
    "Hello" 1 2 English = Some [] ∧
  SuggestForLanguage (L := ascii_model) (NewDidYouMean 10000 7) "Hello" English
    = Some "Hello" ∧
  Normalizer (GetLanguageInfo (L := ascii_model) English) "Hello" = "hello" ∧
  "Hello" ≠ "hello".
Proof. split_and!; [vm_compute; reflexivity..|discriminate]. Qed.

Lemma added_invalid_word_is_not_correct :
  "e-mail" ∈ ["hello"; "e-mail"] ∧
  (AddWordsForLanguage (L := ascii_model) (NewDidYouMean 10000 7)
     ["hello"; "e-mail"] English
     ≫= λ dym, IsCorrectForLanguage (L := ascii_model) dym "e-mail" English)
  = Some false.
Proof. split; [repeat constructor|vm_compute; reflexivity]. Qed.

(** Further evaluations: each property above that has a precondition,
    applied to a concrete input. *)

Lemma fresh_filter_contains_nothing_witness :
  ∃ bf, NewBloomFilter 1000 5 = Some bf ∧ Contains bf "hello" = Some false.
Proof.
  destruct (NewBloomFilter_total 1000 5 ltac:(lia)) as [bf Hnew].
  exists bf. split; [exact Hnew|].
  apply (fresh_filter_contains_nothing 1000 5 bf "hello" Hnew); [discriminate|lia].
Defined.


Lemma Add_keeps_positive_answers_witness :
  ∃ bf0 bf1 bf2,
    NewBloomFilter 1000 5 = Some bf0 ∧ Add bf0 "hello" = Some bf1 ∧
    Add bf1 "world" = Some bf2 ∧ size bf2 = size bf1 ∧
    Contains bf2 "hello" = Some true.
Proof.
  destruct (NewBloomFilter_total 1000 5 ltac:(lia)) as [bf0 Hnew].
  assert (1000%N ≠ 0%N) as Hsz by discriminate.
  destruct (Add_total bf0 "hello" (NewBloomFilter_usable _ _ _ Hnew Hsz))
    as (bf1 & Hadd1 & Hu1).
  destruct (Add_total bf1 "world" Hu1) as (bf2 & Hadd2 & _).
  exists bf0, bf1, bf2. split; [exact Hnew|]. split; [exact Hadd1|].
  split; [exact Hadd2|].
  destruct (Add_keeps_positive_answers bf1 "world" bf2 "hello" Hadd2)
    as (Hsize & _ & _ & Hkeep).
  split; [exact Hsize|]. apply Hkeep. exact (proj2 (Add_spec _ _ _ Hadd1)).
Defined.

Lemma AddWords_order_irrelevant_witness :
  ∃ bf0, NewBloomFilter 1000 5 = Some bf0 ∧
         BloomFilter_AddWords bf0 ["hello"; "world"] =
         BloomFilter_AddWords bf0 ["world"; "hello"].
Proof.
  destruct (NewBloomFilter_total 1000 5 ltac:(lia)) as [bf0 Hnew].
  exists bf0. split; [exact Hnew|].
  apply (AddWords_order_irrelevant 1000 5 bf0 ["hello"; "world"]
           ["world"; "hello"] "hello" Hnew); [discriminate|apply perm_swap].
Defined.

Lemma DetectLanguage_ascii_is_English_witness :
  DetectLanguage "bonjour" = English.
Proof.
  apply DetectLanguage_ascii_is_English.
  repeat (constructor; [vm_compute; reflexivity|]). constructor.
Defined.

Lemma ascii_IsSpace_not_Hangul (r : rune) :
  in_range 0xAC00 0xD7AF r = true → IsSpace r = false.
Proof.
  unfold in_range, IsSpace. intros [H1 H2]%andb_prop.
  apply Z.leb_le in H1, H2. apply orb_false_intro.
  - apply bool_decide_eq_false_2. rewrite !elem_of_cons, elem_of_nil. lia.
  - apply andb_false_intro2, Z.leb_gt. lia.
Qed.

Lemma detected_Korean_is_not_valid_Korean_witness :
  DetectLanguage "한국어" = Korean ∧
  IsValidWordForLanguage (L := ascii_model) "한국어" Korean = false.
Proof.
  split; [vm_compute; reflexivity|].
  apply (detected_Korean_is_not_valid_Korean (L := ascii_model) "한국어").
  - exact ascii_IsSpace_not_Hangul.
  - vm_compute. reflexivity.
Defined.

(** The checker of [hello_checker] judges its word correct. *)
Lemma hello_is_correct :
  ∃ dym, reachable (L := ascii_model) dym ∧
         AddWordsForLanguage (L := ascii_model) (NewDidYouMean 10000 7)
           ["hello"] English = Some dym ∧
         IsCorrectForLanguage (L := ascii_model) dym "hello" English = Some true.
Proof.
  destruct hello_checker as (dym & dict & Hrun & Hr & Hd & Hw).
  exists dym. split; [exact Hr|]. split; [exact Hrun|].
  rewrite (IsCorrectForLanguage_inv dym "hello" English (reachable_inv dym Hr)).
  change (Normalizer (GetLanguageInfo English) "hello") with "hello".
  unfold dictionary_has. rewrite Hd. simpl. rewrite Hw. reflexivity.
Qed.

Lemma hello_suggestions :
  ∃ dym, reachable (L := ascii_model) dym ∧
         GetSuggestionsForLanguage (L := ascii_model) dym "hello" 3 2 English
           = Some [mkSuggestion "hello" 1].
Proof.
  destruct hello_is_correct as (dym & Hr & _ & Hc).
  exists dym. split; [exact Hr|].
  destruct (GetSuggestionsForLanguage_shape (L := ascii_model) dym "hello" 3 2
              English ascii_model_sort_contract (reachable_inv dym Hr))
    as (l & Hl & _ & [[-> _]|[_ Hno]]); [lia|exact Hl|].
  change (Normalizer (GetLanguageInfo English) "hello") with "hello" in Hno.
  rewrite Hc in Hno. discriminate Hno. vm_compute. reflexivity.
Qed.

Lemma only_valid_words_are_correct_witness :
  ∃ dym, reachable (L := ascii_model) dym ∧
         IsValidWordForLanguage (L := ascii_model)
           (Normalizer (GetLanguageInfo (L := ascii_model) English) "hello")
           English = true.
Proof.
  destruct hello_is_correct as (dym & Hr & _ & Hc).
  exists dym. split; [exact Hr|].
  exact (proj2 (only_valid_words_are_correct (L := ascii_model) dym "hello"
                  English Hr Hc)).
Defined.

Lemma AddWordsForLanguage_isolation_witness :
  ∃ dym, AddWordsForLanguage (L := ascii_model) (NewDidYouMean 10000 7)
           ["hello"] English = Some dym ∧
         currentLang dym = English ∧
         bloomFilters dym !! Persian = None ∧
         ∀ word, IsCorrectForLanguage (L := ascii_model) dym word Persian
                 = Some false.
Proof.
  destruct hello_is_correct as (dym & _ & Hrun & _).
  exists dym. split; [exact Hrun|].
  destruct (AddWordsForLanguage_isolation (L := ascii_model)
              (NewDidYouMean 10000 7) ["hello"] English dym Persian Hrun
              ltac:(discriminate)) as (Hc & Hb & _ & Hq & _).
  split; [exact Hc|]. split; [exact Hb|]. intros word. rewrite Hq. reflexivity.
Defined.

Lemma correct_words_stay_correct_witness :
  ∃ dym dym',
    reachable (L := ascii_model) dym ∧
    forM [OpSetLanguage Persian; OpAddWords ["سلام"];
          OpLoadDefaultDictionary English] (step (L := ascii_model)) dym
      = Some dym' ∧
    IsCorrectForLanguage (L := ascii_model) dym' "hello" English = Some true.
Proof.
  destruct hello_is_correct as (dym & Hr & _ & Hc).
  destruct (correct_words_stay_correct (L := ascii_model) dym
              [OpSetLanguage Persian; OpAddWords ["سلام"];
               OpLoadDefaultDictionary English] "hello" English Hr Hc)
    as (dym' & Hrun & Hc').
  exists dym, dym'. split; [exact Hr|]. split; [exact Hrun|exact Hc'].
Defined.

Lemma suggestions_come_from_dictionary_witness :
  ∃ dym,
    GetSuggestionsForLanguage (L := ascii_model) dym "hello" 3 2 English
      = Some [mkSuggestion "hello" 1] ∧
    ∃ q, CalculateSimilarity
           (Normalizer (GetLanguageInfo (L := ascii_model) English) "hello")
           "hello" = Some q ∧ (q == 1)%Q.
Proof.
  destruct hello_suggestions as (dym & _ & Hl).
  exists dym. split; [exact Hl|].
  exact (proj1 (suggestions_come_from_dictionary (L := ascii_model) dym "hello"
                  3 2 English _ (mkSuggestion "hello" 1)
                  ascii_model_sort_contract Hl (list_elem_of_here _ _))).
Defined.

Lemma Suggest_result_witness :
  ∃ dym, reachable (L := ascii_model) dym ∧
         SuggestForLanguage (L := ascii_model) dym "hello" English
           = Some (Normalizer (GetLanguageInfo (L := ascii_model) English) "hello").
Proof.
  destruct hello_is_correct as (dym & Hr & _ & Hc).
  exists dym. split; [exact Hr|].
  destruct (Suggest_result (L := ascii_model) dym "hello" English
              ascii_model_sort_contract Hr) as (r & Hrun & _ & Hcorrect).
  rewrite Hrun. f_equal. apply Hcorrect; [exact Hc|vm_compute; reflexivity].
Defined.

Lemma GetSuggestionsWithThreshold_result_witness :
  ∃ dym,
    reachable (L := ascii_model) dym ∧
    GetSuggestionsWithThreshold (L := ascii_model) dym "helo" (7 # 10) (-1)
      = None ∧
    ∃ l, GetSuggestionsWithThreshold (L := ascii_model) dym "helo" (7 # 10) 3
           = Some l ∧
         Z.of_nat (length l) ≤ 3 ∧
         ∀ s, s ∈ l → (7 # 10 <= Similarity s)%Q.
Proof.
  destruct hello_is_correct as (dym & Hr & _).
  exists dym. split; [exact Hr|]. split.
  - apply (GetSuggestionsWithThreshold_result (L := ascii_model) dym "helo"
             (7 # 10) (-1) ascii_model_sort_contract Hr). lia.
  - destruct (proj2 (GetSuggestionsWithThreshold_result (L := ascii_model) dym
                       "helo" (7 # 10) 3 ascii_model_sort_contract Hr)
                ltac:(lia)) as (l & all & _ & Hl & Hlen & _ & Hall).
    exists l. split; [exact Hl|]. split; [exact Hlen|].
    intros s Hs. exact (proj2 (Hall s Hs)).
Defined.

Lemma CheckAndSuggest_result_witness :
  ∃ dym, reachable (L := ascii_model) dym ∧
         CheckAndSuggestForLanguage (L := ascii_model) dym "hello" English
           = Some (true, []).
Proof.
  destruct hello_is_correct as (dym & Hr & _ & Hc).
  exists dym. split; [exact Hr|].
  destruct (CheckAndSuggest_result (L := ascii_model) dym "hello" English
              ascii_model_sort_contract Hr)
    as (flag & l & Hrun & Hflag & Hnil & _).
  rewrite Hc in Hflag. injection Hflag as <-.
  rewrite (Hnil eq_refl) in Hrun. exact Hrun.
Defined.

Lemma AutoDetectAndSuggest_result_witness :
  ∃ dym flag l,
    reachable (L := ascii_model) dym ∧
    AutoDetectAndSuggest (L := ascii_model) dym "سلام"
      = Some (DetectLanguage "سلام", flag, l) ∧
    AutoDetectAndSuggest (L := ascii_model) (SetLanguage dym Persian) "سلام"
      = AutoDetectAndSuggest (L := ascii_model) dym "سلام".
Proof.
  destruct hello_is_correct as (dym & Hr & _).
  destruct (AutoDetectAndSuggest_result (L := ascii_model) dym "سلام" Persian
              ascii_model_sort_contract Hr) as (flag & l & Hrun & _ & _ & Hset).
  exists dym, flag, l. split; [exact Hr|]. split; [exact Hrun|exact Hset].
Defined.

Lemma default_alphabet_ascii :
  Forall (λ r, 0 ≤ r < 0x80) (runes (alphabet NewCandidateGenerator)).
Proof.
  apply Forall_forall. intros r Hr%list_elem_of_In.
  assert (forallb (λ r, (0 <=? r) && (r <? 0x80))
            (runes (alphabet NewCandidateGenerator)) = true) as Hall
    by (vm_compute; reflexivity).
  rewrite forallb_forall in Hall. apply Hall in Hr.
  apply andb_prop in Hr as [?%Z.leb_le ?%Z.ltb_lt]. lia.
Qed.

Lemma default_alphabet_letters n :
  0x61 ≤ n ≤ 0x7A → n ∈ runes (alphabet NewCandidateGenerator).
Proof.
  intros Hn.
  assert (forallb (λ n, bool_decide (n ∈ runes (alphabet NewCandidateGenerator)))
            (seqZ 0x61 26) = true) as Hall by (vm_compute; reflexivity).
  pose proof (range_check _ _ _ Hall n ltac:(lia)) as H. cbv beta in H.
  by apply bool_decide_eq_true_1 in H.
Qed.

Lemma candidates_within_twice_maxDistance_witness :
  ∃ cands,
    GenerateCandidates (L := ascii_model) NewCandidateGenerator "Ab" 1
      = Some cands ∧
    "ba" ∈ cands ∧
    ∃ dist, LevenshteinDistance (strings_ToLower (GoLibrary := ascii_model) "Ab")
              "ba" = Some dist ∧ dist ≤ 2 * 1.
Proof.
  eexists. split; [vm_compute; reflexivity|].
  assert ("ba" ∈
    ["oab"; "ob"; "wab"; "wb"; "gab"; "gb"; "kab"; "kb"; "sab"; "sb";
     "cab"; "cb"; "mab"; "mb"; "uab"; "ub"; "eab"; "eb"; "yab"; "yb";
     "iab"; "ib"; "qab"; "qb"; "aob"; "ao"; "awb"; "aw"; "agb"; "ag";
     "akb"; "ak"; "asb"; "as"; "acb"; "ac"; "amb"; "am"; "aub"; "au";
     "aeb"; "ae"; "ayb"; "ay"; "aib"; "ai"; "aqb"; "aq"; "aab"; "aa";
     "anb"; "an"; "avb"; "av"; "afb"; "af"; "azb"; "az"; "ajb"; "aj";
     "arb"; "ar"; "abo"; "abw"; "abg"; "abk"; "abs"; "abc"; "abm";
     "abu"; "abe"; "aby"; "abi"; "abq"; "aba"; "abn"; "abv"; "abf";
     "abz"; "abj"; "abr"; "abb"; "abl"; "abt"; "abd"; "abx"; "abh";
     "abp"; "alb"; "al"; "atb"; "at"; "adb"; "ad"; "axb"; "ax"; "ahb";
     "ah"; "apb"; "ap"; "a"; "nab"; "nb"; "vab"; "vb"; "fab"; "fb";
     "zab"; "zb"; "jab"; "jb"; "rab"; "rb"; "bab"; "ba"; "bb"; "b";
     "lab"; "lb"; "tab"; "tb"; "dab"; "db"; "xab"; "xb"; "hab"; "hb";
     "pab"; "pb"]) as Hin.
  { apply (bool_decide_unpack _). vm_compute. exact I. }
  split; [exact Hin|].
  refine (proj2 (candidates_within_twice_maxDistance (L := ascii_model)
                   NewCandidateGenerator "Ab" 1 _ "ba" default_alphabet_ascii
                   _ _ Hin)).
  - repeat (constructor; [vm_compute; reflexivity|]). constructor.
  - vm_compute. reflexivity.
Defined.

Lemma typos_are_candidates_witness :
  ∃ cands,
    GenerateCandidates (L := ascii_model) NewCandidateGenerator "a" 1
      = Some cands ∧
    GenerateCommonTypos (L := ascii_model) NewCandidateGenerator "a"
      = Some ["w"; "s"; "q"; "z"] ∧
    "q" ∈ cands ∧ ¬ NoDup (cands ++ ["w"; "s"; "q"; "z"]).
Proof.
  destruct (GenerateCandidates_total (L := ascii_model) NewCandidateGenerator
              "a" 1) as [cands Hcands].
  assert (GenerateCommonTypos (L := ascii_model) NewCandidateGenerator "a"
          = Some ["w"; "s"; "q"; "z"]) as Htypos by (vm_compute; reflexivity).
  exists cands. split; [exact Hcands|]. split; [exact Htypos|].
  apply (typos_are_candidates (L := ascii_model) NewCandidateGenerator "a" 1
           cands ["w"; "s"; "q"; "z"] "q" default_alphabet_letters
           ltac:(lia) Hcands Htypos).
  apply list_elem_of_further, list_elem_of_further, list_elem_of_here.
Defined.

Lemma adding_again_changes_nothing_witness :
  ∃ dym,
    AddWordsForLanguage (L := ascii_model) (NewDidYouMean 10000 7)
      ["hello"; "world"] English = Some dym ∧
    AddWordsForLanguage (L := ascii_model) dym ["hello"; "world"] English
      = Some dym.
Proof.
  exact (proj1 (adding_again_changes_nothing (L := ascii_model)
                  (NewDidYouMean 10000 7) ["hello"; "world"] English
                  (reachable_new 10000 7))).
Defined.

